(** * Whiplash: the playlist aggregation engine and the progress-file flow

    A shallow embedding of
    - [src/app/api/spotify/artists/route.ts], the scan ([GET]),
    - the page component ([src/unnamed/part_000]): its helpers [pct1],
      [safeNumber], [loadJSON], [saveJSON], [downloadJson],
      [isProgressFileV1], its handlers [exportProgress],
      [onResumeFileSelected] and [scanSpotify], the insight navigation, the
      sorting of the table, the deck ([deckArtistsSorted], [deckStats],
      [markCurrent], [undoDeck], [resetDeck]) and its keyboard handler,
    - the service client ([src/app/lib/spotify.ts]), and
    - the sign-in routes ([src/app/api/auth/login/route.ts], the callback
      route [src/unnamed/part_001] and the status route
      [src/unnamed/part_002]),
    with the properties of the specification stated over them, followed by
    further properties of the code.

    Conventions of the embedding.
    - A JavaScript number that holds a count is a [nat]; a number that
      holds a percentage is an exact rational [Q] (no floating-point
      rounding is modelled).
    - A value that may be [null] or [undefined] is an [option].
    - A JavaScript [Map] or [Set] iterates in insertion order, and that order
      is observable here (it feeds a stable sort), so both are modelled as
      insertion-ordered lists.
    - The providers of [src/app/lib/spotify.ts] are taken at their
      interface by the scan: each call is an oracle that returns or throws,
      and the calls made are recorded in a trace. The client itself is
      embedded over [fetch], an oracle for the answers of the service; its
      loops run for as long as the service sends links, so they take the
      number of iterations they may make.
    - What the runtime supplies is a parameter: the collation behind
      [String.prototype.localeCompare], and [JSON.stringify], [JSON.parse]
      and the coercion of [Number] on the page. A reference runtime gives
      them values to run the code on examples.
    - The deck, the statistics and the table read the data of the page at
      the types the component declares for them. *)

From Stdlib Require Import String Ascii List ZArith QArith Qround Lia Lqa.
From Stdlib Require Import Permutation Sorted DecimalString.
From Stdlib Require HexadecimalString.
From stdpp Require Import base option list gmap sets strings sorting.
Import ListNotations.

#[local] Set Warnings "-register-all,-clear-no-such-hyp".

Local Open Scope string_scope.
Local Open Scope list_scope.
Local Open Scope nat_scope.

(** ** JavaScript primitives used by the code *)

(** [!s] for a value of type [string | null | undefined]: the empty string
    and null are falsy. *)
Definition truthy (s : option string) : option string :=
  match s with
  | Some EmptyString => None
  | other => other
  end.

(** [x ?? d] *)
Definition nullish {A} (x : option A) (d : A) : A :=
  match x with Some a => a | None => d end.

(** [Math.round]: the nearest integer, halves towards plus infinity. *)
Definition Math_round (y : Q) : Z := Qfloor (y + (1 # 2)).

(** Insertion-ordered [Set<string>]. *)
Module JsSet.
Definition t := list string.
Definition empty : t := [].
Definition has (k : string) (s : t) : bool := bool_decide (k ∈ s).
Definition add (k : string) (s : t) : t := if has k s then s else s ++ [k].
Definition size (s : t) : nat := length s.
End JsSet.

(** Insertion-ordered [Map<string, V>]: [set] on an existing key keeps the
    key's position, on a new key appends. *)
Module JsMap.
Section Ops.
Context {V : Type}.
Definition t := list (string * V).
Definition empty : t := [].

Fixpoint get (k : string) (m : t) : option V :=
  match m with
  | [] => None
  | (k', v) :: m' => if String.eqb k k' then Some v else get k m'
  end.

Definition has (k : string) (m : t) : bool :=
  match get k m with Some _ => true | None => false end.

Fixpoint set (k : string) (v : V) (m : t) : t :=
  match m with
  | [] => [(k, v)]
  | (k', v') :: m' =>
      if String.eqb k k' then (k', v) :: m' else (k', v') :: set k v m'
  end.

(** In-place mutation of the record stored under [k] (a no-op when the
    key is absent): [const rec = m.get(k); if (rec) rec.f = ...]. *)
Definition update (k : string) (f : V -> V) (m : t) : t :=
  match get k m with
  | Some v => set k (f v) m
  | None => m
  end.

Definition keys (m : t) : list string := map fst m.
Definition entries (m : t) : list (string * V) := m.
End Ops.
Arguments t : clear implicits.
End JsMap.

(** ** Raw provider data (the JSON the streaming service returns)

    The route reads it through optional chaining, so every object and
    every field may be absent. *)

Record RawArtist := { ra_id : option string; ra_name : option string }.

Record RawTrack := {
  rt_type : option string;
  rt_id : option string;
  rt_name : option string;
  rt_artists : option (list (option RawArtist))
}.

Record RawItem := { it_track : option RawTrack }.

Record RawPlaylist := { pl_id : option string }.

Record RawImage := { img_url : option string }.

Record RawArtistObj := {
  ao_id : option string;
  ao_images : option (list (option RawImage))
}.

(** ** The two accumulator tables *)

Module ArtistRec.
Record t := mk {
  name : string;
  songCount : nat;
  playlistCount : nat;
  imageUrl : option string
}.
Definition incSong (r : t) : t :=
  mk (name r) (S (songCount r)) (playlistCount r) (imageUrl r).
Definition incPlaylist (r : t) : t :=
  mk (name r) (songCount r) (S (playlistCount r)) (imageUrl r).
Definition setImage (u : option string) (r : t) : t :=
  mk (name r) (songCount r) (playlistCount r) u.
End ArtistRec.

Module TrackRec.
Record t := mk {
  name : string;
  mainArtistId : option string;
  mainArtistName : string;
  mainArtistImageUrl : option string;
  playlistCount : nat
}.
Definition incPlaylist (r : t) : t :=
  mk (name r) (mainArtistId r) (mainArtistName r) (mainArtistImageUrl r)
     (S (playlistCount r)).
Definition setImage (u : option string) (r : t) : t :=
  mk (name r) (mainArtistId r) (mainArtistName r) u (playlistCount r).
End TrackRec.

(** The state of one scan: [uniqueTrackIds], [artistMap],
    [trackPlaylistMap]. *)
Record Agg := mkAgg {
  uniqueTrackIds : JsSet.t;
  artistMap : JsMap.t ArtistRec.t;
  trackPlaylistMap : JsMap.t TrackRec.t
}.

Definition emptyAgg : Agg := mkAgg JsSet.empty JsMap.empty JsMap.empty.

(** The state of the inner loop adds the two playlist-scoped sets. *)
Record Loop := mkLoop {
  agg : Agg;
  artistIdsInPlaylist : JsSet.t;
  trackIdsInPlaylist : JsSet.t
}.

(** ** The playlist aggregator (route.ts, lines 55-125) *)

(** [track.artists ?? []] *)
Definition artistsOf (track : RawTrack) : list (option RawArtist) :=
  nullish (rt_artists track) [].

(** [const artistId = a?.id; const artistName = a?.name;
     if (!artistId || !artistName) continue;] *)
Definition credit (a : option RawArtist) : option (string * string) :=
  match a with
  | None => None
  | Some a =>
      match truthy (ra_id a), truthy (ra_name a) with
      | Some artistId, Some artistName => Some (artistId, artistName)
      | _, _ => None
      end
  end.

(** Lines 92-100: one more song for every credit of a new unique track. *)
Definition countSong (m : JsMap.t ArtistRec.t) (a : option RawArtist)
  : JsMap.t ArtistRec.t :=
  match credit a with
  | None => m
  | Some (artistId, artistName) =>
      match JsMap.get artistId m with
      | Some prev => JsMap.set artistId (ArtistRec.incSong prev) m
      | None => JsMap.set artistId (ArtistRec.mk artistName 1 0 None) m
      end
  end.

(** Lines 104-113: playlist presence of every credit. *)
Definition notePresence (st : JsSet.t * JsMap.t ArtistRec.t)
    (a : option RawArtist) : JsSet.t * JsMap.t ArtistRec.t :=
  let '(seen, m) := st in
  match credit a with
  | None => st
  | Some (artistId, artistName) =>
      (JsSet.add artistId seen,
       if JsMap.has artistId m then m
       else JsMap.set artistId (ArtistRec.mk artistName 0 0 None) m)
  end.

(** Lines 65-69: the track normalizer. The item must carry a track whose
    type tag is "track" and whose identifier is a non-empty string. *)
Definition normalize (it : option RawItem) : option (string * RawTrack) :=
  match it with
  | None => None
  | Some it =>
      match it_track it with
      | None => None
      | Some track =>
          if bool_decide (rt_type track = Some "track") then
            match truthy (rt_id track) with
            | Some trackId => Some (trackId, track)
            | None => None
            end
          else None
      end
  end.

(** Lines 73-86: the track accumulator created at first sight. *)
Definition newTrackRec (track : RawTrack) : TrackRec.t :=
  let trackName := nullish (rt_name track) "Unknown track" in
  let mainArtist :=
    match rt_artists track with
    | Some (a :: _) => a
    | _ => None
    end in
  let mainArtistId := mainArtist ≫= ra_id in
  let mainArtistName := nullish (mainArtist ≫= ra_name) "Unknown artist" in
  TrackRec.mk trackName mainArtistId mainArtistName None 0.

(** The body of [for (const it of items)]. *)
Definition processItem (st : Loop) (it : option RawItem) : Loop :=
  match normalize it with
  | None => st
  | Some (trackId, track) =>
      let a := agg st in
      let trackIds := JsSet.add trackId (trackIdsInPlaylist st) in
      let tracks :=
        if JsMap.has trackId (trackPlaylistMap a) then trackPlaylistMap a
        else JsMap.set trackId (newTrackRec track) (trackPlaylistMap a) in
      let isNewUniqueTrack := negb (JsSet.has trackId (uniqueTrackIds a)) in
      let unique :=
        if isNewUniqueTrack then JsSet.add trackId (uniqueTrackIds a)
        else uniqueTrackIds a in
      let artists1 :=
        if isNewUniqueTrack
        then fold_left countSong (artistsOf track) (artistMap a)
        else artistMap a in
      let '(artistIds, artists2) :=
        fold_left notePresence (artistsOf track)
                  (artistIdsInPlaylist st, artists1) in
      mkLoop (mkAgg unique artists2 tracks) artistIds trackIds
  end.

(** Lines 116-124: the end-of-playlist increments. *)
Definition bumpArtist (m : JsMap.t ArtistRec.t) (artistId : string) :=
  JsMap.update artistId ArtistRec.incPlaylist m.

Definition bumpTrack (m : JsMap.t TrackRec.t) (trackId : string) :=
  JsMap.update trackId TrackRec.incPlaylist m.

(** One iteration of [for (const pl of playlists)], after the fetch. *)
Definition processPlaylist (a : Agg) (items : list (option RawItem)) : Agg :=
  let st := fold_left processItem items (mkLoop a JsSet.empty JsSet.empty) in
  mkAgg (uniqueTrackIds (agg st))
        (fold_left bumpArtist (artistIdsInPlaylist st) (artistMap (agg st)))
        (fold_left bumpTrack (trackIdsInPlaylist st)
                   (trackPlaylistMap (agg st))).

(** ** The providers and the effects of a request

    A computation makes provider calls, which are recorded, and either
    returns or throws (a rejected promise that nothing catches). *)

Definition Err := string.

Inductive Call :=
| CallGetAccessToken
| CallFetchAllPlaylists (token : string)
| CallFetchAllPlaylistTracks (token playlistId : string)
| CallFetchArtistsByIds (token : string) (ids : list string).

Record Provider := {
  getAccessToken : option string;
  fetchAllPlaylists : string -> Err + list (option RawPlaylist);
  fetchAllPlaylistTracks : string -> string -> Err + list (option RawItem);
  fetchArtistsByIds : string -> list string -> Err + list (option RawArtistObj)
}.

Definition M (A : Type) : Type := list Call * (Err + A).

Definition ret {A} (a : A) : M A := ([], inr a).

Definition bind {A B} (m : M A) (k : A -> M B) : M B :=
  match m with
  | (tr, inl e) => (tr, inl e)
  | (tr, inr a) => let '(tr', r) := k a in (tr ++ tr', r)
  end.

Notation "'await' x <- m ; k" := (bind m (fun x => k))
  (at level 10, x name, m at level 100, k at level 200).

(** A provider call: one trace entry, then the oracle's answer. *)
Definition call {A} (c : Call) (answer : Err + A) : M A := ([c], answer).

(** ** The shape of the response *)

Module ArtistAgg.
Record t := mk {
  artistId : string;
  artistName : string;
  songCount : nat;
  playlistCount : nat;
  imageUrl : option string
}.
End ArtistAgg.

Module TopArtist.
Record t := mk {
  artistId : string;
  artistName : string;
  imageUrl : option string;
  value : nat;
  percent : Q
}.
End TopArtist.

Module TrackPlaylistAgg.
Record t := mk {
  trackId : string;
  trackName : string;
  mainArtistId : option string;
  mainArtistName : string;
  mainArtistImageUrl : option string;
  playlistCount : nat
}.
End TrackPlaylistAgg.

Module TopTrack.
Record t := mk {
  trackId : string;
  trackName : string;
  mainArtistId : option string;
  mainArtistName : string;
  mainArtistImageUrl : option string;
  playlistCount : nat;
  percent : Q
}.
End TopTrack.

Module ArtistRow.
Record t := mk {
  artistId : string;
  artistName : string;
  imageUrl : option string;
  songCount : nat;
  songPercent : Q;
  playlistCount : nat;
  playlistPercent : Q
}.
End ArtistRow.

Module ArtistDeckItem.
Record t := mk {
  artistId : string;
  artistName : string;
  imageUrl : option string;
  trackCount : nat
}.
End ArtistDeckItem.

Record Totals := mkTotals {
  totalPlaylists : nat;
  totalArtists : nat;
  totalUniqueTracks : nat
}.

Record Snapshot := mkSnapshot {
  totals : Totals;
  topArtistsBySongs : list TopArtist.t;
  topArtistsByPlaylists : list TopArtist.t;
  topTracksByPlaylists : list TopTrack.t;
  artistTable : list ArtistRow.t;
  artists : list ArtistDeckItem.t
}.

Inductive Body :=
| ErrorBody (error : string)
| SnapshotBody (snapshot : Snapshot).

Record Response := mkResponse { status : nat; body : Body }.

(** ** Percentages *)

Definition ofNat (n : nat) : Q := inject_Z (Z.of_nat n).

(** [const pct = (x, denom) => (denom > 0 ? (x / denom) * 100 : 0)] *)
Definition pct (x denom : nat) : Q :=
  if 0 <? denom then (ofNat x / ofNat denom) * 100 else 0.


(** ** [Array.prototype.sort]

    The sort is stable, and for a consistent comparator its result is the
    one stable ordering; it is computed here by insertion from the right,
    an element staying in front of those it does not compare greater to. *)

Section Sort.
Context {A : Type} (cmp : A -> A -> Z).

Fixpoint insertSorted (x : A) (l : list A) : list A :=
  match l with
  | [] => [x]
  | y :: l' =>
      if (cmp x y <=? 0)%Z then x :: y :: l' else y :: insertSorted x l'
  end.

Definition Array_sort (l : list A) : list A := fold_right insertSorted [] l.
End Sort.

(** [x || y] on numbers *)
Definition orElse (x y : Z) : Z := if (x =? 0)%Z then y else x.

(** [.slice(0, 5)] *)
Definition slice5 {A} (l : list A) : list A := firstn 5 l.

(** ** The route handler *)

Section Route.

(** [String.prototype.localeCompare] with no options: the collation of the
    platform, a negative, zero or positive number. *)
Variable localeCompare : string -> string -> Z.

(** [(a, b) => b.songCount - a.songCount
               || a.artistName.localeCompare(b.artistName)] *)
Definition bySongs (a b : ArtistAgg.t) : Z :=
  orElse (Z.of_nat (ArtistAgg.songCount b) - Z.of_nat (ArtistAgg.songCount a))
         (localeCompare (ArtistAgg.artistName a) (ArtistAgg.artistName b)).

Definition byPlaylists (a b : ArtistAgg.t) : Z :=
  orElse (Z.of_nat (ArtistAgg.playlistCount b)
          - Z.of_nat (ArtistAgg.playlistCount a))
         (localeCompare (ArtistAgg.artistName a) (ArtistAgg.artistName b)).

Definition byPresence (a b : TrackPlaylistAgg.t) : Z :=
  orElse (Z.of_nat (TrackPlaylistAgg.playlistCount b)
          - Z.of_nat (TrackPlaylistAgg.playlistCount a))
         (localeCompare (TrackPlaylistAgg.trackName a)
                        (TrackPlaylistAgg.trackName b)).

(** Lines 55-125: the loop over the playlists. A playlist without an
    identifier is skipped before its items are fetched. *)
Fixpoint scan (p : Provider) (token : string)
    (playlists : list (option RawPlaylist)) (a : Agg) : M Agg :=
  match playlists with
  | [] => ret a
  | pl :: rest =>
      match truthy (pl ≫= pl_id) with
      | None => scan p token rest a
      | Some playlistId =>
          await items <- call (CallFetchAllPlaylistTracks token playlistId)
                              (fetchAllPlaylistTracks p token playlistId);
          scan p token rest (processPlaylist a items)
      end
  end.

(** Lines 134-140: [imageByArtistId]. *)
Definition imageOf (a : RawArtistObj) : option string :=
  match ao_images a with
  | Some (first :: _) => first ≫= img_url
  | _ => None
  end.

Definition noteImage (m : JsMap.t (option string)) (a : option RawArtistObj)
  : JsMap.t (option string) :=
  match a with
  | None => m
  | Some a =>
      match truthy (ao_id a) with
      | None => m
      | Some id => JsMap.set id (imageOf a) m
      end
  end.

(** [imageByArtistId.get(id) ?? null] *)
Definition imageFor (images : JsMap.t (option string)) (id : string)
  : option string :=
  nullish (JsMap.get id images) None.

(** Lines 143-152: the two back-fill loops. *)
Definition fillImages (images : JsMap.t (option string)) (a : Agg) : Agg :=
  mkAgg (uniqueTrackIds a)
    (map (fun '(artistId, rec) =>
            (artistId, ArtistRec.setImage (imageFor images artistId) rec))
         (artistMap a))
    (map (fun '(trackId, rec) =>
            (trackId,
             match truthy (TrackRec.mainArtistId rec) with
             | Some mainArtistId =>
                 TrackRec.setImage (imageFor images mainArtistId) rec
             | None => rec
             end))
         (trackPlaylistMap a)).

(** Lines 129-153: the enrichment step. *)
Definition enrich (p : Provider) (token : string) (a : Agg) : M Agg :=
  let allArtistIds := JsMap.keys (artistMap a) in
  if 0 <? length allArtistIds then
    await artistObjs <- call (CallFetchArtistsByIds token allArtistIds)
                             (fetchArtistsByIds p token allArtistIds);
    ret (fillImages (fold_left noteImage artistObjs JsMap.empty) a)
  else ret a.

(** Lines 155-164: the artist list, sorted for the deck. *)
Definition artistsOfMap (m : JsMap.t ArtistRec.t) : list ArtistAgg.t :=
  map (fun '(artistId, v) =>
         ArtistAgg.mk artistId (ArtistRec.name v) (ArtistRec.songCount v)
                      (ArtistRec.playlistCount v) (ArtistRec.imageUrl v))
      (JsMap.entries m).

Definition sortedArtists (a : Agg) : list ArtistAgg.t :=
  Array_sort bySongs (artistsOfMap (artistMap a)).

Definition tracksOfMap (m : JsMap.t TrackRec.t) : list TrackPlaylistAgg.t :=
  map (fun '(trackId, v) =>
         TrackPlaylistAgg.mk trackId (TrackRec.name v)
           (TrackRec.mainArtistId v) (TrackRec.mainArtistName v)
           (TrackRec.mainArtistImageUrl v) (TrackRec.playlistCount v))
      (JsMap.entries m).

Definition topBySongs (totalUniqueTracks : nat) (a : ArtistAgg.t)
  : TopArtist.t :=
  TopArtist.mk (ArtistAgg.artistId a) (ArtistAgg.artistName a)
    (ArtistAgg.imageUrl a) (ArtistAgg.songCount a)
    (pct (ArtistAgg.songCount a) totalUniqueTracks).

Definition topByPlaylists (totalPlaylists : nat) (a : ArtistAgg.t)
  : TopArtist.t :=
  TopArtist.mk (ArtistAgg.artistId a) (ArtistAgg.artistName a)
    (ArtistAgg.imageUrl a) (ArtistAgg.playlistCount a)
    (pct (ArtistAgg.playlistCount a) totalPlaylists).

Definition topTrack (totalPlaylists : nat) (t : TrackPlaylistAgg.t)
  : TopTrack.t :=
  TopTrack.mk (TrackPlaylistAgg.trackId t) (TrackPlaylistAgg.trackName t)
    (TrackPlaylistAgg.mainArtistId t) (TrackPlaylistAgg.mainArtistName t)
    (TrackPlaylistAgg.mainArtistImageUrl t)
    (TrackPlaylistAgg.playlistCount t)
    (pct (TrackPlaylistAgg.playlistCount t) totalPlaylists).

Definition tableRow (totalPlaylists totalUniqueTracks : nat)
    (a : ArtistAgg.t) : ArtistRow.t :=
  ArtistRow.mk (ArtistAgg.artistId a) (ArtistAgg.artistName a)
    (ArtistAgg.imageUrl a)
    (ArtistAgg.songCount a) (pct (ArtistAgg.songCount a) totalUniqueTracks)
    (ArtistAgg.playlistCount a)
    (pct (ArtistAgg.playlistCount a) totalPlaylists).

Definition deckItem (a : ArtistAgg.t) : ArtistDeckItem.t :=
  ArtistDeckItem.mk (ArtistAgg.artistId a) (ArtistAgg.artistName a)
    (ArtistAgg.imageUrl a) (ArtistAgg.songCount a).

(** Lines 155-231: the ranking and percentage builder. *)
Definition buildSnapshot (totalPlaylists totalUniqueTracks : nat) (a : Agg)
  : Snapshot :=
  let artists := sortedArtists a in
  mkSnapshot
    (mkTotals totalPlaylists (length artists) totalUniqueTracks)
    (map (topBySongs totalUniqueTracks)
         (slice5 (Array_sort bySongs artists)))
    (map (topByPlaylists totalPlaylists)
         (slice5 (Array_sort byPlaylists artists)))
    (map (topTrack totalPlaylists)
         (slice5 (Array_sort byPresence
                             (tracksOfMap (trackPlaylistMap a)))))
    (map (tableRow totalPlaylists totalUniqueTracks) artists)
    (map deckItem artists).

(** [NextResponse.json(body, { status })] *)
Definition NextResponse_json (b : Body) (status : nat) : Response :=
  mkResponse status b.

(** [export async function GET()] *)
Definition GET (p : Provider) : M Response :=
  await token <- call CallGetAccessToken (inr (getAccessToken p));
  match truthy token with
  | None => ret (NextResponse_json (ErrorBody "not_authenticated") 401)
  | Some token =>
      await playlists <- call (CallFetchAllPlaylists token)
                              (fetchAllPlaylists p token);
      let totalPlaylists := length playlists in
      await a <- scan p token playlists emptyAgg;
      let totalUniqueTracks := JsSet.size (uniqueTrackIds a) in
      await a' <- enrich p token a;
      ret (NextResponse_json (SnapshotBody
                   (buildSnapshot totalPlaylists totalUniqueTracks a')) 200)
  end.

End Route.

(** ** JSON values

    What [JSON.parse] returns and [JSON.stringify] takes. A number is kept in
    lowest terms, so that equal numbers are equal values. An object keeps its
    fields in insertion order. *)

Inductive json :=
| JNull
| JBool (b : bool)
| JNum (x : Q)
| JStr (s : string)
| JArr (items : list json)
| JObj (fields : list (string * json)).

Definition jnum (x : Q) : json := JNum (Qred x).
Definition jnat (n : nat) : json := JNum (ofNat n).
Definition jopt (s : option string) : json :=
  match s with Some s => JStr s | None => JNull end.

(** [!!v] *)
Definition truthyJ (v : json) : bool :=
  match v with
  | JNull => false
  | JBool b => b
  | JNum x => negb (Qeq_bool x 0)
  | JStr s => negb (String.eqb s EmptyString)
  | JArr _ | JObj _ => true
  end.

(** [v.name]: [undefined] (here [None]) unless [v] is an object that has the
    field. *)
Definition prop (name : string) (v : json) : option json :=
  match v with
  | JObj fields => JsMap.get name fields
  | _ => None
  end.

(** *** The response body as JSON (route.ts, lines 212-231) *)

Definition TopArtist_toJSON (e : TopArtist.t) : json :=
  JObj [("artistId", JStr (TopArtist.artistId e));
        ("artistName", JStr (TopArtist.artistName e));
        ("imageUrl", jopt (TopArtist.imageUrl e));
        ("value", jnat (TopArtist.value e));
        ("percent", jnum (TopArtist.percent e))].

Definition TopTrack_toJSON (t : TopTrack.t) : json :=
  JObj [("trackId", JStr (TopTrack.trackId t));
        ("trackName", JStr (TopTrack.trackName t));
        ("mainArtistId", jopt (TopTrack.mainArtistId t));
        ("mainArtistName", JStr (TopTrack.mainArtistName t));
        ("mainArtistImageUrl", jopt (TopTrack.mainArtistImageUrl t));
        ("playlistCount", jnat (TopTrack.playlistCount t));
        ("percent", jnum (TopTrack.percent t))].

Definition ArtistRow_toJSON (r : ArtistRow.t) : json :=
  JObj [("artistId", JStr (ArtistRow.artistId r));
        ("artistName", JStr (ArtistRow.artistName r));
        ("imageUrl", jopt (ArtistRow.imageUrl r));
        ("songCount", jnat (ArtistRow.songCount r));
        ("songPercent", jnum (ArtistRow.songPercent r));
        ("playlistCount", jnat (ArtistRow.playlistCount r));
        ("playlistPercent", jnum (ArtistRow.playlistPercent r))].

Definition ArtistDeckItem_toJSON (a : ArtistDeckItem.t) : json :=
  JObj [("artistId", JStr (ArtistDeckItem.artistId a));
        ("artistName", JStr (ArtistDeckItem.artistName a));
        ("imageUrl", jopt (ArtistDeckItem.imageUrl a));
        ("trackCount", jnat (ArtistDeckItem.trackCount a))].

Definition Totals_toJSON (t : Totals) : json :=
  JObj [("totalPlaylists", jnat (totalPlaylists t));
        ("totalArtists", jnat (totalArtists t));
        ("totalUniqueTracks", jnat (totalUniqueTracks t))].

Definition Snapshot_toJSON (s : Snapshot) : json :=
  JObj [("totals", Totals_toJSON (totals s));
        ("topArtistsBySongs",
         JArr (map TopArtist_toJSON (topArtistsBySongs s)));
        ("topArtistsByPlaylists",
         JArr (map TopArtist_toJSON (topArtistsByPlaylists s)));
        ("topTracksByPlaylists",
         JArr (map TopTrack_toJSON (topTracksByPlaylists s)));
        ("artistTable", JArr (map ArtistRow_toJSON (artistTable s)));
        ("artists", JArr (map ArtistDeckItem_toJSON (artists s)))].

(** ** The page: state *)

Inductive Mode := ModeStart | ModeInsights | ModeDeck.

Module Page.
Record t := mk {
  data : option json;
  error : option string;
  mode : Mode;
  insightPage : Q;
  decisions : json;
  deckIndex : Q;
  localStorage : JsMap.t string;
  fileInput : option string;
  downloads : list (string * string)
}.

Definition setData (v : option json) (s : t) : t :=
  mk v (error s) (mode s) (insightPage s) (decisions s) (deckIndex s)
     (localStorage s) (fileInput s) (downloads s).
Definition setError (v : option string) (s : t) : t :=
  mk (data s) v (mode s) (insightPage s) (decisions s) (deckIndex s)
     (localStorage s) (fileInput s) (downloads s).
Definition setMode (v : Mode) (s : t) : t :=
  mk (data s) (error s) v (insightPage s) (decisions s) (deckIndex s)
     (localStorage s) (fileInput s) (downloads s).
Definition setInsightPage (v : Q) (s : t) : t :=
  mk (data s) (error s) (mode s) v (decisions s) (deckIndex s)
     (localStorage s) (fileInput s) (downloads s).
Definition setDecisions (v : json) (s : t) : t :=
  mk (data s) (error s) (mode s) (insightPage s) v (deckIndex s)
     (localStorage s) (fileInput s) (downloads s).
Definition setDeckIndex (v : Q) (s : t) : t :=
  mk (data s) (error s) (mode s) (insightPage s) (decisions s) v
     (localStorage s) (fileInput s) (downloads s).
Definition setItem (key value : string) (s : t) : t :=
  mk (data s) (error s) (mode s) (insightPage s) (decisions s) (deckIndex s)
     (JsMap.set key value (localStorage s)) (fileInput s) (downloads s).
(** [if (fileInputRef.current)]: the value of the file input is reset to
    the empty string. *)
Definition resetFileInput (s : t) : t :=
  mk (data s) (error s) (mode s) (insightPage s) (decisions s) (deckIndex s)
     (localStorage s) (fileInput s ≫= λ _, Some EmptyString) (downloads s).
End Page.

Definition STORAGE_DECISIONS_KEY := "whiplash_decisions_v1".
Definition STORAGE_DECK_INDEX_KEY := "whiplash_deck_index_v1".
Definition STORAGE_SNAPSHOT_KEY := "whiplash_snapshot_v1".

(** ** The page: helpers and handlers *)

(** [function isProgressFileV1(x)], as the boolean [!isProgressFileV1(x)]
    negates. *)
Definition isProgressFileV1 (x : json) : bool :=
  truthyJ x
  && match prop "version" x with
     | Some (JNum v) => Qeq_bool v 1
     | _ => false
     end
  && match prop "exportedAt" x with Some (JStr _) => true | _ => false end
  && match prop "data" x with
     | Some d =>
         truthyJ d
         && match prop "totals" d with Some t => truthyJ t | None => false end
         && match prop "artists" d with Some (JArr _) => true | _ => false end
     | None => false
     end
  && match prop "deckIndex" x with Some _ => true | None => false end
  && match prop "decisions" x with
     | Some (JObj f) => true
     | Some (JArr l) => true
     | _ => false
     end.

Section PageHandlers.

(** The runtime: [JSON.stringify(value, null, indent)], [JSON.parse(text)],
    which returns or throws an error with a message, and [Number(v)] for a
    string, an array or an object [v] ([None] when it is not finite). *)
Variable JSON_stringify : json → nat → string.
Variable JSON_parse : string → string + json.
Variable Number_coerce : json → option Q.

(** [Number(n)], [None] when the result is [NaN]. *)
Definition Number_ (n : option json) : option Q :=
  match n with
  | None => None
  | Some JNull => Some 0%Q
  | Some (JBool b) => Some (if b then 1%Q else 0%Q)
  | Some (JNum x) => Some x
  | Some v => Number_coerce v
  end.

(** [function safeNumber(n, fallback = 0)] *)
Definition safeNumber (n : option json) (fallback : Q) : Q :=
  match Number_ n with
  | Some x => x
  | None => fallback
  end.

(** [function saveJSON(key, value)]; [JSON.stringify(undefined)] is
    [undefined], which [setItem] stores as the string "undefined". *)
Definition saveJSON (key : string) (value : option json) (s : Page.t)
  : Page.t :=
  Page.setItem key
    (match value with
     | Some v => JSON_stringify v 0
     | None => "undefined"
     end) s.




(** The [catch] block of [onResumeFileSelected]. *)
Definition importFailed (message : string) (s : Page.t) : Page.t :=
  Page.setMode ModeStart
    (Page.setError
       (Some (if String.eqb message EmptyString
              then "Failed to import progress file." else message)) s).

(** The [try] block after a successful validation. *)
Definition restore (restored : json) (s : Page.t) : Page.t :=
  let s := Page.setData (prop "data" restored) s in
  let s := saveJSON STORAGE_SNAPSHOT_KEY (prop "data" restored) s in
  let decisions :=
    match prop "decisions" restored with
    | None | Some JNull => JObj []
    | Some d => d
    end in
  let s := Page.setDecisions decisions s in
  let s := saveJSON STORAGE_DECISIONS_KEY (Some decisions) s in
  let idx := safeNumber (prop "deckIndex" restored) 0 in
  let s := Page.setDeckIndex idx s in
  let s := saveJSON STORAGE_DECK_INDEX_KEY (Some (JNum idx)) s in
  let s := Page.setInsightPage
             (safeNumber (prop "insightPage" restored) 0) s in
  Page.setMode
    (match prop "mode" restored with
     | Some (JStr m) => if String.eqb m "deck" then ModeDeck else ModeInsights
     | _ => ModeInsights
     end) s.

(** [async function onResumeFileSelected(file)]; a file is its text. *)
Definition onResumeFileSelected (file : option string) (s : Page.t)
  : Page.t :=
  match file with
  | None => s
  | Some text =>
      let s := Page.setError None s in
      Page.resetFileInput
        match JSON_parse text with
        | inl message => importFailed message s
        | inr parsed =>
            if negb (isProgressFileV1 parsed)
            then importFailed "Invalid progress file." s
            else restore parsed s
        end
  end.

End PageHandlers.

(** ** A reference runtime

    A collation, and a printer and a parser for JSON texts, to run the
    handlers with. Strings are sequences of 8-bit code units; a number is
    printed with its exact decimal expansion when that has at most twenty
    fractional digits. *)

(** The comparison of two strings by their code units. *)
Definition codeUnitCompare (a b : string) : Z :=
  match String.compare a b with
  | Lt => (-1)%Z
  | Eq => 0%Z
  | Gt => 1%Z
  end.

Module Ref.
Local Open Scope string_scope.

(** *** The collation

    Names are compared with their letters in lower case first (the
    comparison at sensitivity "base"); names that differ in case only are
    then ordered lower case first. *)

Definition lower (c : ascii) : ascii :=
  let n := N_of_ascii c in
  if ((65 <=? n) && (n <=? 90))%N then ascii_of_N (n + 32) else c.

Fixpoint fold (s : string) : string :=
  match s with
  | EmptyString => EmptyString
  | String c rest => String (lower c) (fold rest)
  end.

(** [a.localeCompare(b, undefined, { sensitivity: "base" })] *)
Definition baseCompare (a b : string) : Z :=
  codeUnitCompare (fold a) (fold b).

(** [a.localeCompare(b)] *)
Definition localeCompare (a b : string) : Z :=
  orElse (baseCompare a b) (codeUnitCompare b a).

(** *** The printer *)

Definition chr (n : N) : string := String (ascii_of_N n) EmptyString.
Definition quote : string := chr 34.
Definition newline : string := chr 10.

Definition hexDigit (n : N) : string :=
  chr (if (n <? 10)%N then 48 + n else 87 + n).

(** [QuoteJSONString] *)
Fixpoint escape (s : string) : string :=
  match s with
  | EmptyString => EmptyString
  | String c rest =>
      let n := N_of_ascii c in
      (if (n =? 34)%N then "\" ++ quote
       else if (n =? 92)%N then "\\"
       else if (n =? 8)%N then "\b"
       else if (n =? 12)%N then "\f"
       else if (n =? 10)%N then "\n"
       else if (n =? 13)%N then "\r"
       else if (n =? 9)%N then "\t"
       else if (n <? 32)%N
            then "\u00" ++ hexDigit (n / 16) ++ hexDigit (n mod 16)
            else String c EmptyString)
      ++ escape rest
  end.

Definition quoted (s : string) : string := quote ++ escape s ++ quote.

Definition digits (n : N) : string :=
  NilZero.string_of_uint (N.to_uint n).

(** The fractional digits of [r / den], at most [fuel] of them. *)
Fixpoint fraction (fuel : nat) (r den : N) : string :=
  match fuel with
  | 0 => EmptyString
  | S fuel =>
      if (r =? 0)%N then EmptyString
      else digits (r * 10 / den) ++ fraction fuel (r * 10 mod den) den
  end.

(** [Number::toString] *)
Definition numberToString (x : Q) : string :=
  let x := Qred x in
  let n := Z.abs_N (Qnum x) in
  let d := Npos (Qden x) in
  (if (Qnum x <? 0)%Z then "-" else EmptyString)
  ++ digits (n / d)
  ++ (if (n mod d =? 0)%N then EmptyString else "." ++ fraction 20 (n mod d) d).

Fixpoint join (sep : string) (l : list string) : string :=
  match l with
  | [] => EmptyString
  | [x] => x
  | x :: rest => x ++ sep ++ join sep rest
  end.

(** [SerializeJSONArray] and [SerializeJSONObject] share the layout. *)
Definition wrap (gap indent opening closing : string) (parts : list string)
  : string :=
  match parts with
  | [] => opening ++ closing
  | _ =>
      if String.eqb gap EmptyString then opening ++ join "," parts ++ closing
      else opening ++ newline ++ indent ++ gap
           ++ join ("," ++ newline ++ indent ++ gap) parts
           ++ newline ++ indent ++ closing
  end.

Fixpoint print (gap indent : string) (v : json) : string :=
  match v with
  | JNull => "null"
  | JBool true => "true"
  | JBool false => "false"
  | JNum x => numberToString x
  | JStr s => quoted s
  | JArr items =>
      wrap gap indent "[" "]" (map (print gap (indent ++ gap)) items)
  | JObj fields =>
      wrap gap indent "{" "}"
        (map (fun kv : string * json =>
                quoted (fst kv)
                ++ (if String.eqb gap EmptyString then ":" else ": ")
                ++ print gap (indent ++ gap) (snd kv)) fields)
  end.

Fixpoint spaces (n : nat) : string :=
  match n with 0 => EmptyString | S n => " " ++ spaces n end.

(** [JSON.stringify(value, null, indent)] *)
Definition JSON_stringify (v : json) (indent : nat) : string :=
  print (spaces (Nat.min indent 10)) EmptyString v.

(** *** The parser *)

Definition isWs (c : ascii) : bool :=
  let n := N_of_ascii c in
  ((n =? 32) || (n =? 9) || (n =? 10) || (n =? 13))%N.

Fixpoint skipWs (s : string) : string :=
  match s with
  | String c rest => if isWs c then skipWs rest else s
  | EmptyString => s
  end.

Definition digitOf (c : ascii) : option N :=
  let n := N_of_ascii c in
  if ((48 <=? n) && (n <=? 57))%N then Some (n - 48)%N else None.

Definition hexOf (c : ascii) : option N :=
  let n := N_of_ascii c in
  if ((48 <=? n) && (n <=? 57))%N then Some (n - 48)%N
  else if ((97 <=? n) && (n <=? 102))%N then Some (n - 87)%N
  else if ((65 <=? n) && (n <=? 70))%N then Some (n - 55)%N
  else None.

(** The characters of a string literal after its opening quote. *)
Fixpoint parseChars (s : string) : option (string * string) :=
  match s with
  | EmptyString => None
  | String c rest =>
      let n := N_of_ascii c in
      if (n =? 34)%N then Some (EmptyString, rest)
      else if (n <? 32)%N then None
      else if (n =? 92)%N then
        match rest with
        | String e rest' =>
            let k := N_of_ascii e in
            let plain (code : N) :=
              match parseChars rest' with
              | Some (t, r) => Some (String (ascii_of_N code) t, r)
              | None => None
              end in
            if (k =? 34)%N then plain 34%N
            else if (k =? 92)%N then plain 92%N
            else if (k =? 47)%N then plain 47%N
            else if (k =? 98)%N then plain 8%N
            else if (k =? 102)%N then plain 12%N
            else if (k =? 110)%N then plain 10%N
            else if (k =? 114)%N then plain 13%N
            else if (k =? 116)%N then plain 9%N
            else if (k =? 117)%N then
              match rest' with
              | String h1 (String h2 (String h3 (String h4 rest''))) =>
                  match hexOf h1, hexOf h2, hexOf h3, hexOf h4 with
                  | Some 0%N, Some 0%N, Some a, Some b =>
                      match parseChars rest'' with
                      | Some (t, r) =>
                          Some (String (ascii_of_N (16 * a + b)) t, r)
                      | None => None
                      end
                  | _, _, _, _ => None
                  end
              | _ => None
              end
            else None
        | EmptyString => None
        end
      else
        match parseChars rest with
        | Some (t, r) => Some (String c t, r)
        | None => None
        end
  end.

(** A string literal. *)
Definition parseString (s : string) : option (string * string) :=
  match s with
  | String c rest => if (N_of_ascii c =? 34)%N then parseChars rest else None
  | EmptyString => None
  end.

(** A run of decimal digits: its value and its length. *)
Fixpoint parseDigits (s : string) (acc : N) (len : nat) : N * nat * string :=
  match s with
  | String c rest =>
      match digitOf c with
      | Some d => parseDigits rest (10 * acc + d)%N (S len)
      | None => (acc, len, s)
      end
  | EmptyString => (acc, len, s)
  end.

Definition startsWith (c : N) (s : string) : option string :=
  match s with
  | String c' rest => if (N_of_ascii c' =? c)%N then Some rest else None
  | EmptyString => None
  end.

(** A number literal: [-? int frac? exp?]. *)
Definition parseNumber (s : string) : option (Q * string) :=
  let '(negative, s) :=
    match startsWith 45 s with Some r => (true, r) | None => (false, s) end in
  let '(int, ilen, s1) := parseDigits s 0%N 0 in
  if (ilen =? 0)%nat then None
  else if (1 <? ilen)%nat
          && (match startsWith 48 s with Some _ => true | None => false end)
  then None
  else
    let fracPart :=
      match startsWith 46 s1 with
      | Some r =>
          let '(f, flen, s2) := parseDigits r 0%N 0 in
          if (flen =? 0)%nat then None else Some (f, flen, s2)
      | None => Some (0%N, 0, s1)
      end in
    match fracPart with
    | None => None
    | Some (f, flen, s2) =>
        let expPart :=
          match s2 with
          | String c r =>
              if ((N_of_ascii c =? 101) || (N_of_ascii c =? 69))%N then
                let '(eneg, r) :=
                  match startsWith 45 r with
                  | Some r' => (true, r')
                  | None =>
                      match startsWith 43 r with
                      | Some r' => (false, r')
                      | None => (false, r)
                      end
                  end in
                let '(e, elen, s3) := parseDigits r 0%N 0 in
                if (elen =? 0)%nat then None
                else Some (if eneg then (- Z.of_N e)%Z else Z.of_N e, s3)
              else Some (0%Z, s2)
          | EmptyString => Some (0%Z, s2)
          end in
        match expPart with
        | None => None
        | Some (e, s3) =>
            let mantissa :=
              (inject_Z (Z.of_N int)
               + inject_Z (Z.of_N f) / inject_Z (10 ^ Z.of_nat flen))%Q in
            let scaled :=
              if (0 <=? e)%Z then (mantissa * inject_Z (10 ^ e))%Q
              else (mantissa / inject_Z (10 ^ (- e)))%Q in
            Some (Qred (if negative then - scaled else scaled)%Q, s3)
        end
    end.

Fixpoint expect (word s : string) : option string :=
  match word, s with
  | EmptyString, _ => Some s
  | String a word', String b s' =>
      if Ascii.eqb a b then expect word' s' else None
  | String _ _, EmptyString => None
  end.

(** The elements of an array after the first, up to the bracket. *)
Fixpoint parseItems (fuel : nat) (value : string → option (json * string))
    (s : string) (acc : list json) : option (json * string) :=
  match fuel with
  | 0 => None
  | S fuel =>
      match value s with
      | None => None
      | Some (v, s) =>
          let s := skipWs s in
          match startsWith 44 s, startsWith 93 s with
          | Some r, _ => parseItems fuel value r (v :: acc)
          | None, Some r => Some (JArr (rev (v :: acc)), r)
          | None, None => None
          end
      end
  end.

(** The members of an object; a repeated key keeps its place and takes the
    later value. *)
Fixpoint parseMembers (fuel : nat) (value : string → option (json * string))
    (s : string) (acc : list (string * json)) : option (json * string) :=
  match fuel with
  | 0 => None
  | S fuel =>
      match parseString (skipWs s) with
      | None => None
      | Some (key, s) =>
          match startsWith 58 (skipWs s) with
          | None => None
          | Some s =>
              match value s with
              | None => None
              | Some (v, s) =>
                  let s := skipWs s in
                  let acc := JsMap.set key v acc in
                  match startsWith 44 s, startsWith 125 s with
                  | Some r, _ => parseMembers fuel value r acc
                  | None, Some r => Some (JObj acc, r)
                  | None, None => None
                  end
              end
          end
      end
  end.

Fixpoint parseValue (fuel : nat) (s : string) : option (json * string) :=
  match fuel with
  | 0 => None
  | S fuel =>
      let s := skipWs s in
      match s with
      | EmptyString => None
      | String c rest =>
          let n := N_of_ascii c in
          if (n =? 110)%N then
            match expect "null" s with
            | Some r => Some (JNull, r) | None => None end
          else if (n =? 116)%N then
            match expect "true" s with
            | Some r => Some (JBool true, r) | None => None end
          else if (n =? 102)%N then
            match expect "false" s with
            | Some r => Some (JBool false, r) | None => None end
          else if (n =? 34)%N then
            match parseString s with
            | Some (t, r) => Some (JStr t, r) | None => None end
          else if (n =? 91)%N then
            match startsWith 93 (skipWs rest) with
            | Some r => Some (JArr [], r)
            | None => parseItems fuel (parseValue fuel) rest []
            end
          else if (n =? 123)%N then
            match startsWith 125 (skipWs rest) with
            | Some r => Some (JObj [], r)
            | None => parseMembers fuel (parseValue fuel) rest []
            end
          else
            match parseNumber s with
            | Some (x, r) => Some (JNum x, r) | None => None end
      end
  end.

(** [JSON.parse(text)] *)
Definition JSON_parse (text : string) : string + json :=
  match parseValue (S (String.length text)) text with
  | Some (v, rest) =>
      match skipWs rest with
      | EmptyString => inr v
      | String _ _ => inl "Unexpected non-whitespace character after JSON"
      end
  | None => inl "Unexpected token in JSON"
  end.

(** [Number(v)] for a string, an array or an object: numeric strings are
    read, and everything else is not a number. *)
Definition Number_coerce (v : json) : option Q :=
  match v with
  | JStr s =>
      match skipWs s with
      | EmptyString => Some 0%Q
      | t =>
          match parseNumber t with
          | Some (x, rest) =>
              match skipWs rest with
              | EmptyString => Some x
              | String _ _ => None
              end
          | None => None
          end
      end
  | _ => None
  end.
End Ref.

(** ** More JavaScript primitives *)

(** [`${n}`] for a number that holds a natural. *)
Definition showNat (n : nat) : string :=
  NilZero.string_of_uint (Nat.to_uint n).

(** [l.slice(i, j)] *)
Definition slice {A} (i j : nat) (l : list A) : list A :=
  take (j - i) (drop i l).

(** ** The service client ([src/app/lib/spotify.ts])

    [fetch] is the oracle here. A call resolves to a response that is [ok]
    or not, or rejects; the body of an [ok] response is read at the type its
    caller casts it to. A loop that follows the links of the service runs
    for as long as the service sends links: the loops take the number of
    iterations they may make, and [Running] is a loop that has not come to
    its end within it. *)
Module Spotify.

Inductive Reply (A : Type) :=
| Rejected (message : Err)
| NotOk (status : nat) (txt : string)
| Ok (body : A).
Arguments Rejected {A}.
Arguments NotOk {A}.
Arguments Ok {A}.

Record Request := mkRequest { url : string; authorization : string }.

Inductive Outcome (A : Type) :=
| Returned (a : A)
| Thrown (e : Err)
| Running.
Arguments Returned {A}.
Arguments Thrown {A}.
Arguments Running {A}.

(** [type Paging<T> = { items: T[]; next: string | null }] *)
Record Paging (T : Type) := mkPaging { items : list T; next : option string }.
Arguments mkPaging {T}.
Arguments items {T}.
Arguments next {T}.

(** [headers: { Authorization: `Bearer ${token}` }] *)
Definition bearer (url token : string) : Request :=
  mkRequest url ("Bearer " ++ token)%string.

Section Pages.
Context {T : Type}.
Variable fetch : Request → Reply (Paging T).

(** [async function spotifyFetch(url, token)] *)
Definition spotifyFetch (url token : string) : Err + Paging T :=
  match fetch (bearer url token) with
  | Rejected e => inl e
  | NotOk status txt =>
      inl ("Spotify API error " ++ showNat status ++ ": " ++ txt)%string
  | Ok page => inr page
  end.

(** [while (url) { const page = await spotifyFetch(url, token);
                   out.push(...page.items); url = page.next; }
     return out;] *)
Fixpoint pages (fuel : nat) (url : option string) (token : string)
    (out : list T) : list Request * Outcome (list T) :=
  match truthy url with
  | None => ([], Returned out)
  | Some url =>
      match fuel with
      | 0 => ([], Running)
      | S fuel =>
          match spotifyFetch url token with
          | inl e => ([bearer url token], Thrown e)
          | inr page =>
              let '(tr, r) :=
                pages fuel (next page) token (out ++ items page) in
              (bearer url token :: tr, r)
          end
      end
  end.

(** [export async function fetchAllPlaylists(token)] *)
Definition fetchAllPlaylists (fuel : nat) (token : string)
  : list Request * Outcome (list T) :=
  pages fuel (Some "https://api.spotify.com/v1/me/playlists?limit=50")
        token [].

(** [export async function fetchAllPlaylistTracks(token, playlistId)] *)
Definition fetchAllPlaylistTracks (fuel : nat) (token playlistId : string)
  : list Request * Outcome (list T) :=
  pages fuel
    (Some ("https://api.spotify.com/v1/playlists/" ++ playlistId
           ++ "/tracks?limit=100")%string) token [].
End Pages.

Section Artists.
(** [encodeURIComponent] is the runtime's; the body of an [ok] response is
    read as its field [artists]. *)
Variable encodeURIComponent : string → string.
Variable fetch : Request → Reply (option (list (option RawArtistObj))).

Definition batchRequest (token : string) (chunk : list string) : Request :=
  bearer ("https://api.spotify.com/v1/artists?ids="
          ++ encodeURIComponent (String.concat "," chunk))%string token.

(** [for (let i = 0; i < ids.length; i += 50) { ... }] *)
Fixpoint batches (fuel i : nat) (token : string) (ids : list string)
    (out : list (option RawArtistObj))
  : list Request * Outcome (list (option RawArtistObj)) :=
  if i <? length ids then
    match fuel with
    | 0 => ([], Running)
    | S fuel =>
        let chunk := slice i (i + 50) ids in
        let req := batchRequest token chunk in
        match fetch req with
        | Rejected e => ([req], Thrown e)
        | NotOk status txt =>
            ([req], Thrown ("Spotify artists batch error " ++ showNat status
                            ++ ": " ++ txt)%string)
        | Ok artists =>
            let '(tr, r) :=
              batches fuel (i + 50) token ids (out ++ nullish artists []) in
            (req :: tr, r)
        end
    end
  else ([], Returned out).

(** [export async function fetchArtistsByIds(token, ids)]; the loop makes
    at most one iteration per identifier. *)
Definition fetchArtistsByIds (token : string) (ids : list string)
  : list Request * Outcome (list (option RawArtistObj)) :=
  batches (length ids) 0 token ids [].
End Artists.

(** [export async function getAccessToken()], of the cookies of the
    request: [c.get("sp_access_token")?.value ?? null]. *)
Definition getAccessToken (cookies : JsMap.t string) : option string :=
  JsMap.get "sp_access_token" cookies.

End Spotify.

(** [Boolean(s)] for a string that may be absent. *)
Definition Boolean (s : option string) : bool :=
  match truthy s with Some _ => true | None => false end.

(** [`${s}`] for a string that may be [null] or [undefined]. *)
Definition orText (absent : string) (s : option string) : string :=
  nullish s absent.

(** [s.padStart(n, pad)] *)
Fixpoint padding (k : nat) (pad rest : string) : string :=
  match k with
  | 0 => EmptyString
  | S k =>
      match rest with
      | String c rest => String c (padding k pad rest)
      | EmptyString =>
          match pad with
          | String c rest => String c (padding k pad rest)
          | EmptyString => EmptyString
          end
      end
  end.

Definition padStart (n : nat) (pad s : string) : string :=
  (padding (n - String.length s) pad pad ++ s)%string.

(** [b.toString(16)] *)
Definition toString16 (b : N) : string :=
  HexadecimalString.NilZero.string_of_uint (N.to_hex_uint b).

(** ** The session status route ([src/unnamed/part_002]) *)
Module Status.
Record Body := mkBody { hasAccessToken : bool; hasRefreshToken : bool }.

(** [export async function GET()], of the cookies of the request. *)
Definition GET (cookies : JsMap.t string) : Body :=
  let access := JsMap.get "sp_access_token" cookies in
  let refresh := JsMap.get "sp_refresh_token" cookies in
  mkBody (Boolean access) (Boolean refresh).
End Status.

(** ** Cookies and redirects of the sign-in routes *)

Record CookieOptions := mkCookieOptions {
  httpOnly : bool;
  sameSite : string;
  secure : bool;
  path : string;
  maxAge : Z
}.

Inductive CookieOp :=
| SetCookie (name value : string) (options : CookieOptions)
| DeleteCookie (name : string).

(** [`${proto}://${host}`], of the headers [host] and
    [x-forwarded-proto]. *)
Definition originOf (host proto : option string) : string :=
  (nullish proto "http" ++ "://" ++ orText "null" host)%string.

(** ** The sign-in route ([src/app/api/auth/login/route.ts]) *)
Module Login.

(** [function randomString(len = 32)]; [random i] is the byte that
    [crypto.getRandomValues] puts at index [i]. *)
Definition randomString (random : nat → Byte.byte) (len : nat) : string :=
  let bytes := map random (seq 0 len) in
  String.concat EmptyString
                (map (λ b, padStart 2 "0" (toString16 (Byte.to_N b))) bytes).

(** A URL with its search parameters. *)
Record URL := mkURL { href : string; searchParams : JsMap.t string }.

Record Response := mkResponse { location : URL; cookies : list CookieOp }.

(** [export async function GET(req)]; [clientId] is
    [process.env.SPOTIFY_CLIENT_ID]. *)
Definition GET (random : nat → Byte.byte) (clientId : option string)
    (host proto : option string) : Response :=
  let origin := originOf host proto in
  let redirectUri := (origin ++ "/api/auth/callback")%string in
  let state := randomString random 16 in
  let scope :=
    String.concat " " ["playlist-read-private"; "playlist-read-collaborative"]
  in
  let params := JsMap.set "response_type" "code" [] in
  let params := JsMap.set "client_id" (orText "undefined" clientId) params in
  let params := JsMap.set "scope" scope params in
  let params := JsMap.set "redirect_uri" redirectUri params in
  let params := JsMap.set "state" state params in
  mkResponse (mkURL "https://accounts.spotify.com/authorize" params)
    [SetCookie "spotify_auth_state" state
       (mkCookieOptions true "lax" false "/" (10 * 60))].
End Login.

(** ** The callback route ([src/unnamed/part_001]) *)
Module Callback.

Record Tokens := mkTokens {
  access_token : string;
  expires_in : Z;
  refresh_token : option string
}.

(** The request to the token endpoint. *)
Record TokenRequest := mkTokenRequest {
  endpoint : string;
  authorization : string;
  form : JsMap.t string
}.

Inductive Response :=
| Redirect (location : string) (cookies : list CookieOp)
| Json (error : string) (status : nat).

Section Exchange.
(** [process.env.SPOTIFY_CLIENT_ID] and [SPOTIFY_CLIENT_SECRET], the
    base-64 encoding of [Buffer], and the token endpoint. *)
Variables (clientId clientSecret : option string).
Variable base64 : string → string.
Variable fetch : TokenRequest → Spotify.Reply Tokens.

Definition tokenRequest (code redirectUri : string) : TokenRequest :=
  let body := JsMap.set "grant_type" "authorization_code" [] in
  let body := JsMap.set "code" code body in
  let body := JsMap.set "redirect_uri" redirectUri body in
  let basic :=
    base64 (orText "undefined" clientId ++ ":"
            ++ orText "undefined" clientSecret)%string in
  mkTokenRequest "https://accounts.spotify.com/api/token"
                 ("Basic " ++ basic)%string body.

(** [async function exchangeCodeForTokens(code, redirectUri)]; what is
    thrown is given as [String(e)] gives it. *)
Definition exchangeCodeForTokens (code redirectUri : string)
  : list TokenRequest * (string + Tokens) :=
  let req := tokenRequest code redirectUri in
  ([req],
   match fetch req with
   | Spotify.Rejected e => inl e
   | Spotify.NotOk status txt =>
       inl ("Error: Token exchange failed: " ++ showNat status ++ " "
            ++ txt)%string
   | Spotify.Ok tokens => inr tokens
   end).

(** [export async function GET(req)], of the search parameters [code] and
    [state], the cookie [spotify_auth_state] and the two headers. *)
Definition GET (code state storedState host proto : option string)
  : list TokenRequest * Response :=
  let origin := originOf host proto in
  let redirectUri := (origin ++ "/api/auth/callback")%string in
  match truthy code, truthy state, truthy storedState with
  | Some code, Some state, Some storedState =>
      if negb (String.eqb state storedState)
      then ([], Redirect (origin ++ "/?error=auth_state")%string [])
      else
        match exchangeCodeForTokens code redirectUri with
        | (tr, inr tokens) =>
            (tr,
             Redirect (origin ++ "/")%string
               ([SetCookie "sp_access_token" (access_token tokens)
                   (mkCookieOptions true "lax" false "/"
                      (Z.max 60 (expires_in tokens - 30)))]
                ++ match truthy (refresh_token tokens) with
                   | Some refresh =>
                       [SetCookie "sp_refresh_token" refresh
                          (mkCookieOptions true "lax" false "/"
                             (30 * 24 * 60 * 60))]
                   | None => []
                   end
                ++ [DeleteCookie "spotify_auth_state"]))
        | (tr, inl e) => (tr, Json e 500)
        end
  | _, _, _ => ([], Redirect (origin ++ "/?error=auth_state")%string [])
  end.
End Exchange.
End Callback.

(** [Math.min] and [Math.max] of two numbers. *)
Definition Math_min (x y : Q) : Q := if Qle_bool x y then x else y.
Definition Math_max (x y : Q) : Q := if Qle_bool x y then y else x.

(** [l[i]] for a number [i]: [undefined] unless [i] is a natural below the
    length. *)
Definition at_ {A} (l : list A) (i : Q) : option A :=
  if Qeq_bool i (inject_Z (Qfloor i)) && (0 <=? Qfloor i)%Z
  then l !! Z.to_nat (Qfloor i)
  else None.

(** [{ ...v }]: the own enumerable properties of [v]. *)
Definition spread (v : json) : JsMap.t json :=
  match v with
  | JObj fields => fields
  | JArr items => imap (λ i x, (showNat i, x)) items
  | JStr s =>
      imap (λ i c, (showNat i, JStr (String c EmptyString)))
           (list_ascii_of_string s)
  | _ => []
  end.

(** [localStorage.removeItem(key)] *)
Definition removeItem (key : string) (s : Page.t) : Page.t :=
  Page.mk (Page.data s) (Page.error s) (Page.mode s) (Page.insightPage s)
          (Page.decisions s) (Page.deckIndex s)
          (filter (λ e, e.1 ≠ key)
                  (Page.localStorage s : list (string * string)))
          (Page.fileInput s) (Page.downloads s).

(** ** The page: the deck and the insight pages ([src/unnamed/part_000]) *)

(** [data?.artists ?? []], for data of the declared type
    [ApiResponse | null]. *)
Definition artistsOfData (data : option Snapshot) : list ArtistDeckItem.t :=
  match data with Some d => artists d | None => [] end.

(** [decisions[artistId] === value], for decisions of the declared type
    [Record<string, boolean>], given by the fields of the object. *)
Definition decided (decisions : JsMap.t json) (value : bool)
    (a : ArtistDeckItem.t) : bool :=
  match JsMap.get (ArtistDeckItem.artistId a) decisions with
  | Some (JBool b) => Bool.eqb b value
  | _ => false
  end.

Record DeckStats := mkDeckStats {
  total : nat;
  seen : nat;
  notSeen : nat;
  remaining : Z;
  seenPct : Q;
  notSeenPct : Q
}.

Section Deck.
(** [a.localeCompare(b, undefined, { sensitivity: "base" })] *)
Variable baseCompare : string → string → Z.

(** [const deckArtistsSorted = useMemo(...)] (lines 221-227) *)
Definition deckArtistsSorted (data : option Snapshot)
  : list ArtistDeckItem.t :=
  Array_sort (λ a b, baseCompare (ArtistDeckItem.artistName a)
                                 (ArtistDeckItem.artistName b))
             (artistsOfData data).
End Deck.

(** [const seenArtists = useMemo(...)] and [notSeenArtists] (lines
    520-536) *)
Definition seenArtists (deck : list ArtistDeckItem.t)
    (decisions : JsMap.t json) : list (string * nat) :=
  map (λ a, (ArtistDeckItem.artistName a, ArtistDeckItem.trackCount a))
      (List.filter (decided decisions true) deck).

Definition notSeenArtists (deck : list ArtistDeckItem.t)
    (decisions : JsMap.t json) : list (string * nat) :=
  map (λ a, (ArtistDeckItem.artistName a, ArtistDeckItem.trackCount a))
      (List.filter (decided decisions false) deck).

(** [const deckDone = deckIndex >= deckArtistsSorted.length] *)
Definition deckDone (deck : list ArtistDeckItem.t) (deckIndex : Q) : bool :=
  Qle_bool (ofNat (length deck)) deckIndex.

(** The loop of [deckStats]: [seen] and [notSeen]. *)
Definition tally (decisions : JsMap.t json) (counts : nat * nat)
    (a : ArtistDeckItem.t) : nat * nat :=
  if decided decisions true a then (S counts.1, counts.2)
  else if decided decisions false a then (counts.1, S counts.2)
  else counts.

(** [const deckStats = useMemo(...)] (lines 540-556) *)
Definition deckStats (deck : list ArtistDeckItem.t)
    (decisions : JsMap.t json) : DeckStats :=
  let total := length deck in
  let '(seen, notSeen) := fold_left (tally decisions) deck (0, 0) in
  let decided := seen + notSeen in
  let remaining := (Z.of_nat total - Z.of_nat decided)%Z in
  let pct (x : nat) : Q :=
    if 0 <? total
    then (inject_Z (Math_round (ofNat x / ofNat total * 1000)) / 10)%Q
    else 0%Q in
  mkDeckStats total seen notSeen remaining (pct seen) (pct notSeen).

Section DeckHandlers.
Variable JSON_stringify : json → nat → string.
Variable JSON_parse : string → string + json.

(** [function loadJSON(key, fallback)] *)
Definition loadJSON (key : string) (fallback : json) (s : Page.t) : json :=
  match truthy (JsMap.get key (Page.localStorage s)) with
  | Some raw =>
      match JSON_parse raw with
      | inr v => v
      | inl _ => fallback
      end
  | None => fallback
  end.

(** [function nextInsight()] and [function prevInsight()];
    [insightTotalPages] is 5. *)
Definition nextInsight (s : Page.t) : Page.t :=
  Page.setInsightPage (Math_min (5 - 1) (Page.insightPage s + 1))%Q s.

Definition prevInsight (s : Page.t) : Page.t :=
  Page.setInsightPage (Math_max 0 (Page.insightPage s - 1))%Q s.

(** [function saveDecision(artistId, value)] *)
Definition saveDecision (artistId : string) (value : bool) (s : Page.t)
  : Page.t :=
  let next :=
    JObj (JsMap.set artistId (JBool value) (spread (Page.decisions s))) in
  Page.setDecisions next
    (saveJSON JSON_stringify STORAGE_DECISIONS_KEY (Some next) s).

(** [function advanceDeck()] *)
Definition advanceDeck (s : Page.t) : Page.t :=
  let next := (Page.deckIndex s + 1)%Q in
  Page.setDeckIndex next
    (saveJSON JSON_stringify STORAGE_DECK_INDEX_KEY (Some (jnum next)) s).

(** [function markCurrent(value)]; [deck] is [deckArtistsSorted]. *)
Definition markCurrent (deck : list ArtistDeckItem.t) (value : bool)
    (s : Page.t) : Page.t :=
  match at_ deck (Page.deckIndex s) with
  | None => s
  | Some cur => advanceDeck (saveDecision (ArtistDeckItem.artistId cur) value s)
  end.

(** [function undoDeck()] *)
Definition undoDeck (s : Page.t) : Page.t :=
  let next := (Math_max 0 (Page.deckIndex s - 1))%Q in
  Page.setDeckIndex next
    (saveJSON JSON_stringify STORAGE_DECK_INDEX_KEY (Some (jnum next)) s).

(** [function resetDeck()] *)
Definition resetDeck (s : Page.t) : Page.t :=
  Page.setDeckIndex 0%Q
    (Page.setDecisions (JObj [])
       (removeItem STORAGE_DECK_INDEX_KEY
          (removeItem STORAGE_DECISIONS_KEY s))).

(** The updater that keeps the deck index within the deck (lines 194-198
    and 231-236). *)
Definition clampDeckIndex (max : nat) (s : Page.t) : Page.t :=
  let clamped := Math_min (Page.deckIndex s) (ofNat max) in
  Page.setDeckIndex clamped
    (saveJSON JSON_stringify STORAGE_DECK_INDEX_KEY (Some (jnum clamped)) s).
End DeckHandlers.

(** ** The page: scanning, the table and the keyboard *)

Inductive SortKey :=
| KeyArtistName | KeySongCount | KeySongPercent
| KeyPlaylistCount | KeyPlaylistPercent.

Inductive SortDir := Asc | Desc.

(** The state of the component: what the progress file and the storage
    hold, and the state of the scan and of the table. *)
Module Home.
Record t := mk {
  page : Page.t;
  loadingScan : bool;
  sortKey : SortKey;
  sortDir : SortDir
}.
Definition onPage (f : Page.t → Page.t) (h : t) : t :=
  mk (f (page h)) (loadingScan h) (sortKey h) (sortDir h).
Definition setLoadingScan (v : bool) (h : t) : t :=
  mk (page h) v (sortKey h) (sortDir h).
Definition setSortKey (v : SortKey) (h : t) : t :=
  mk (page h) (loadingScan h) v (sortDir h).
Definition setSortDir (v : SortDir) (h : t) : t :=
  mk (page h) (loadingScan h) (sortKey h) v.
End Home.

#[global] Instance SortKey_eq_dec : EqDecision SortKey.
Proof. solve_decision. Defined.

(** What [fetch("/api/spotify/artists")] comes to: a rejection (of [fetch],
    or of [r.json()] on an [ok] response), a response that is not [ok] with
    the [error] field of its body if it has one, or an [ok] response with
    its body at the declared type [ApiResponse]. *)
Inductive ScanReply :=
| ScanRejected (message : string)
| ScanNotOk (status : nat) (error : option string)
| ScanOk (j : Snapshot).

(** The sign of a number, as a comparator's result is read. *)
Definition signOf (x : Q) : Z := Z.sgn (Qnum x).

(** [Number(row[sortKey])] for the numeric columns. *)
Definition column (k : SortKey) (row : ArtistRow.t) : Q :=
  match k with
  | KeyArtistName => 0
  | KeySongCount => ofNat (ArtistRow.songCount row)
  | KeySongPercent => ArtistRow.songPercent row
  | KeyPlaylistCount => ofNat (ArtistRow.playlistCount row)
  | KeyPlaylistPercent => ArtistRow.playlistPercent row
  end.

Section HomeHandlers.
Variable JSON_stringify : json → nat → string.
Variable localeCompare : string → string → Z.

(** [function toggleSort(k)] *)
Definition toggleSort (k : SortKey) (h : Home.t) : Home.t :=
  if bool_decide (k = Home.sortKey h)
  then Home.setSortDir
         (match Home.sortDir h with Asc => Desc | Desc => Asc end) h
  else Home.setSortDir Desc (Home.setSortKey k h).

(** The comparator of [sortedTable]. *)
Definition byColumn (k : SortKey) (d : SortDir) (a b : ArtistRow.t) : Z :=
  let dir := match d with Asc => 1 | Desc => -1 end%Z in
  match k with
  | KeyArtistName =>
      (dir * localeCompare (ArtistRow.artistName a) (ArtistRow.artistName b))%Z
  | _ => (dir * signOf (column k a - column k b))%Z
  end.

(** [const sortedTable = useMemo(...)] (lines 497-507) *)
Definition sortedTable (table : list ArtistRow.t) (h : Home.t)
  : list ArtistRow.t :=
  Array_sort (byColumn (Home.sortKey h) (Home.sortDir h)) table.

(** [async function scanSpotify()], before the request is answered. *)
Definition scanStarted (h : Home.t) : Home.t :=
  Home.onPage (Page.setError None) (Home.setLoadingScan true h).

(** The [catch] block of [scanSpotify]. *)
Definition scanFailed (message : string) (s : Page.t) : Page.t :=
  Page.setMode ModeStart
    (Page.setError
       (Some (if String.eqb message EmptyString then "Scan failed"
              else message)) s).

(** [scanSpotify], once the request is answered. *)
Definition scanSettled (reply : ScanReply) (h : Home.t) : Home.t :=
  Home.setLoadingScan false
    (Home.onPage
       (λ s,
          match reply with
          | ScanRejected message => scanFailed message s
          | ScanNotOk status error =>
              scanFailed
                (match truthy error with
                 | Some e => e
                 | None => ("HTTP " ++ showNat status)%string
                 end) s
          | ScanOk j =>
              let s := Page.setData (Some (Snapshot_toJSON j)) s in
              let s := saveJSON JSON_stringify STORAGE_SNAPSHOT_KEY
                                (Some (Snapshot_toJSON j)) s in
              let s := clampDeckIndex JSON_stringify (length (artists j)) s in
              let s := Page.setMode ModeInsights s in
              Page.setInsightPage 0 s
          end) h).

Definition scanSpotify (reply : ScanReply) (h : Home.t) : Home.t :=
  scanSettled reply (scanStarted h).

(** [function onKeyDown(e)]; [deck] is [deckArtistsSorted]. *)
Definition onKeyDown (deck : list ArtistDeckItem.t) (key : string)
    (h : Home.t) : Home.t :=
  match Page.mode (Home.page h) with
  | ModeDeck =>
      if Home.loadingScan h
         || negb (from_option truthyJ false (Page.data (Home.page h)))
      then h
      else
        let h :=
          if String.eqb key "ArrowLeft"
          then Home.onPage (markCurrent JSON_stringify deck false) h else h in
        let h :=
          if String.eqb key "ArrowRight"
          then Home.onPage (markCurrent JSON_stringify deck true) h else h in
        if String.eqb key "Backspace"
        then Home.onPage (undoDeck JSON_stringify) h else h
  | _ => h
  end.
End HomeHandlers.

(** ** Vocabulary of the properties *)

(** The artist identifier of a credit the loops do not skip. *)
Definition creditId (a : option RawArtist) : option string := fst <$> credit a.

(** The artist identifiers a track credits, one per credit. *)
Definition creditsOf (track : RawTrack) : list string :=
  omap creditId (artistsOf track).

(** The track identifiers of the items the normalizer keeps. *)
Definition trackIdsOf (items : list (option RawItem)) : list string :=
  omap (fun it => fst <$> normalize it) items.

(** The artist identifiers credited on those items. *)
Definition artistIdsOf (items : list (option RawItem)) : list string :=
  flat_map (fun it => match normalize it with
                      | Some (_, track) => creditsOf track
                      | None => []
                      end) items.

(** The counters of an identifier, zero while it has no accumulator. *)
Definition songsOf (m : JsMap.t ArtistRec.t) (id : string) : nat :=
  from_option ArtistRec.songCount 0 (JsMap.get id m).

Definition presenceOf (m : JsMap.t ArtistRec.t) (id : string) : nat :=
  from_option ArtistRec.playlistCount 0 (JsMap.get id m).

Definition trackPresenceOf (m : JsMap.t TrackRec.t) (id : string) : nat :=
  from_option TrackRec.playlistCount 0 (JsMap.get id m).

(** The identifiers of the playlists whose items are fetched. *)
Definition playlistIds (playlists : list (option RawPlaylist)) : list string :=
  omap (fun pl => truthy (pl ≫= pl_id)) playlists.

(** The item lists the provider returns for them. *)
Definition fetchedItems (p : Provider) (token : string)
    (playlists : list (option RawPlaylist)) : list (list (option RawItem)) :=
  omap (fun playlistId =>
          match fetchAllPlaylistTracks p token playlistId with
          | inr items => Some items
          | inl _ => None
          end) (playlistIds playlists).

(** A response that carries a snapshot. *)
Definition snapshotOf (r : Response) : option Snapshot :=
  match body r with
  | SnapshotBody s => Some s
  | ErrorBody _ => None
  end.


(** The accumulators after the playlists of a session's library. *)
Definition scanned (p : Provider) (token : string)
    (playlists : list (option RawPlaylist)) : Agg :=
  fold_left processPlaylist (fetchedItems p token playlists) emptyAgg.

(** The snapshot a request answers with, if it does. *)
Definition snapshotFor (localeCompare : string → string → Z) (p : Provider)
  : option Snapshot :=
  match GET localeCompare p with
  | (_, inr r) => snapshotOf r
  | (_, inl _) => None
  end.

(** The playlists the provider lists for the session's token. *)
Definition playlistsOf (p : Provider) : list (option RawPlaylist) :=
  match truthy (getAccessToken p) with
  | Some token =>
      match fetchAllPlaylists p token with
      | inr playlists => playlists
      | inl _ => []
      end
  | None => []
  end.

(** The items it returns for those of them that have an identifier. *)
Definition libraryOf (p : Provider) : list (list (option RawItem)) :=
  match truthy (getAccessToken p) with
  | Some token => fetchedItems p token (playlistsOf p)
  | None => []
  end.

(** The accumulators after the last playlist. *)
Definition scannedOf (p : Provider) : Agg :=
  fold_left processPlaylist (libraryOf p) emptyAgg.

(** The number of playlists in which an identifier occurs, [ids] listing the
    identifiers of a playlist's items. *)
Definition playlistsWith (ids : list (option RawItem) → list string)
    (x : string) (itemss : list (list (option RawItem))) : nat :=
  length (filter (λ items, x ∈ ids items) itemss).

(** The sum of the song counts of a table. *)
Definition totalSongs (m : JsMap.t ArtistRec.t) : nat :=
  sum_list_with (λ e, ArtistRec.songCount e.2) m.

(** The shape every reachable accumulator state has. *)
Record WfAgg (a : Agg) : Prop := {
  wf_unique : NoDup (uniqueTrackIds a);
  wf_artists : NoDup (JsMap.keys (artistMap a));
  wf_tracks : NoDup (JsMap.keys (trackPlaylistMap a));
  wf_nonempty : artistMap a ≠ [] → uniqueTrackIds a ≠ []
}.

(** No artist has more songs than there are unique tracks. *)
Definition SongsBounded (a : Agg) : Prop :=
  ∀ x, songsOf (artistMap a) x ≤ JsSet.size (uniqueTrackIds a).

(** All artists together have no more songs than there are unique tracks. *)
Definition TotalBounded (a : Agg) : Prop :=
  totalSongs (artistMap a) ≤ JsSet.size (uniqueTrackIds a).

(** No track of the playlist credits the same artist twice. *)
Definition creditsDistinct (items : list (option RawItem)) : Prop :=
  Forall (λ it, match normalize it with
                | Some (_, track) => NoDup (creditsOf track)
                | None => True
                end) items.

(** Every track of the playlist credits at most one artist. *)
Definition creditsSingle (items : list (option RawItem)) : Prop :=
  Forall (λ it, match normalize it with
                | Some (_, track) => length (creditsOf track) ≤ 1
                | None => True
                end) items.

#[global] Instance creditsDistinct_dec items : Decision (creditsDistinct items).
Proof.
  apply Forall_dec. intros it. destruct (normalize it) as [[? ?]|]; apply _.
Defined.

#[global] Instance creditsSingle_dec items : Decision (creditsSingle items).
Proof.
  apply Forall_dec. intros it. destruct (normalize it) as [[? ?]|]; apply _.
Defined.

(** What the enrichment leaves alone: everything but the image. *)
Definition counters (x : ArtistAgg.t) : string * string * nat * nat :=
  (ArtistAgg.artistId x, ArtistAgg.artistName x,
   ArtistAgg.songCount x, ArtistAgg.playlistCount x).

Definition trackCounters (t : TrackPlaylistAgg.t) : string * nat :=
  (TrackPlaylistAgg.trackId t, TrackPlaylistAgg.playlistCount t).

(** [x] may stand in front of [y] in an array sorted with [cmp]. *)
Definition notAfter {A} (cmp : A → A → Z) (x y : A) : Prop :=
  (cmp x y <= 0)%Z.

(** The order of the ranking by songs, on the rows of the artist table. *)
Definition rankedBySongs (localeCompare : string → string → Z)
    (r1 r2 : ArtistRow.t) : Prop :=
  ArtistRow.songCount r2 < ArtistRow.songCount r1
  ∨ (ArtistRow.songCount r1 = ArtistRow.songCount r2
     ∧ (localeCompare (ArtistRow.artistName r1) (ArtistRow.artistName r2)
        <= 0)%Z).



(** The playlist identifiers whose items a trace fetches. *)
Definition trackFetches (tr : list Call) : list string :=
  omap (λ c, match c with
             | CallFetchAllPlaylistTracks _ playlistId => Some playlistId
             | _ => None
             end) tr.

(** A playlist object the loop does not skip. *)
Definition hasId (pl : option RawPlaylist) : Prop :=
  is_Some (truthy (pl ≫= pl_id)).

#[global] Instance hasId_dec pl : Decision (hasId pl) :=
  decide (is_Some (truthy (pl ≫= pl_id))).

(** The same provider, listing other playlists. *)
Definition withPlaylists (p : Provider)
    (playlists : list (option RawPlaylist)) : Provider :=
  {| getAccessToken := getAccessToken p;
     fetchAllPlaylists := λ _, inr playlists;
     fetchAllPlaylistTracks := fetchAllPlaylistTracks p;
     fetchArtistsByIds := fetchArtistsByIds p |}.

(** The fields [isProgressFileV1] looks for. *)
Definition requiredFields : list string :=
  ["version"; "exportedAt"; "data"; "deckIndex"; "decisions"].

(** *** The scan, item by item *)

(** The provider answers a call with an error. *)
Definition failsWith (p : Provider) (c : Call) (e : Err) : Prop :=
  match c with
  | CallGetAccessToken => False
  | CallFetchAllPlaylists token => fetchAllPlaylists p token = inl e
  | CallFetchAllPlaylistTracks token playlistId =>
      fetchAllPlaylistTracks p token playlistId = inl e
  | CallFetchArtistsByIds token ids => fetchArtistsByIds p token ids = inl e
  end.

(** A call that returns. *)
Definition returned {A} (r : Err + A) : Prop :=
  match r with inr _ => True | inl _ => False end.

(** The provider answers a call with a value. *)
Definition answers (p : Provider) (c : Call) : Prop :=
  match c with
  | CallGetAccessToken => True
  | CallFetchAllPlaylists token => returned (fetchAllPlaylists p token)
  | CallFetchAllPlaylistTracks token playlistId =>
      returned (fetchAllPlaylistTracks p token playlistId)
  | CallFetchArtistsByIds token ids => returned (fetchArtistsByIds p token ids)
  end.

(** The first occurrence of every track identifier among the items the
    normalizer keeps, in the order of the scan. *)
Definition noteFirst (acc : JsMap.t RawTrack) (it : option RawItem)
  : JsMap.t RawTrack :=
  match normalize it with
  | Some (trackId, track) =>
      if JsMap.has trackId acc then acc else acc ++ [(trackId, track)]
  | None => acc
  end.

Definition firstTracks (items : list (option RawItem)) : JsMap.t RawTrack :=
  fold_left noteFirst items [].

(** The credits of those first occurrences, one artist identifier each. *)
Definition songCredits (items : list (option RawItem)) : list string :=
  flat_map (λ t, creditsOf t.2) (firstTracks items).

(** The credits of the kept items, identifier and name, in the order of the
    scan. *)
Definition creditPairsOf (items : list (option RawItem))
  : list (string * string) :=
  flat_map (λ it, match normalize it with
                  | Some (_, track) => omap credit (artistsOf track)
                  | None => []
                  end) items.

(** The name of the first credit of an identifier. *)
Definition firstNameOf (id : string) (credits : list (string * string))
  : option string :=
  snd <$> head (filter (λ c, c.1 = id) credits).

(** What a track accumulator keeps of the track it was made from. *)
Definition trackMeta (r : TrackRec.t) : string * option string * string :=
  (TrackRec.name r, TrackRec.mainArtistId r, TrackRec.mainArtistName r).

(** The name the artist table keeps for an identifier, and the name a
    credit gives it. *)
Definition nameOf (m : JsMap.t ArtistRec.t) (id : string) : option string :=
  ArtistRec.name <$> JsMap.get id m.

Definition nameIf (a : option RawArtist) (x : string) : option string :=
  credit a ≫= λ c, if bool_decide (c.1 = x) then Some c.2 else None.

(** What the scan has made of the items it has processed. *)
Record ScanInv (a : Agg) (processed : list (option RawItem)) : Prop := {
  inv_unique : uniqueTrackIds a = JsMap.keys (firstTracks processed);
  inv_tracks :
    map (λ e, (e.1, trackMeta e.2)) (trackPlaylistMap a)
    = map (λ e, (e.1, trackMeta (newTrackRec e.2))) (firstTracks processed);
  inv_songs : ∀ x,
    songsOf (artistMap a) x = count_occ string_dec (songCredits processed) x;
  inv_names : ∀ x,
    nameOf (artistMap a) x = firstNameOf x (creditPairsOf processed)
}.

(** The order of the ranking by playlists, on the rows of the artist table. *)
Definition rankedByPlaylists (localeCompare : string → string → Z)
    (r1 r2 : ArtistRow.t) : Prop :=
  ArtistRow.playlistCount r2 < ArtistRow.playlistCount r1
  ∨ (ArtistRow.playlistCount r1 = ArtistRow.playlistCount r2
     ∧ (localeCompare (ArtistRow.artistName r1) (ArtistRow.artistName r2)
        <= 0)%Z).

(** The top-artist entry of a row, by playlists. *)
Definition topOfRowByPlaylists (totalPlaylists : nat) (row : ArtistRow.t)
  : TopArtist.t :=
  TopArtist.mk (ArtistRow.artistId row) (ArtistRow.artistName row)
    (ArtistRow.imageUrl row) (ArtistRow.playlistCount row)
    (pct (ArtistRow.playlistCount row) totalPlaylists).

(** The order of the ranking of the tracks. *)
Definition rankedTracks (localeCompare : string → string → Z)
    (t1 t2 : TopTrack.t) : Prop :=
  TopTrack.playlistCount t2 < TopTrack.playlistCount t1
  ∨ (TopTrack.playlistCount t1 = TopTrack.playlistCount t2
     ∧ (localeCompare (TopTrack.trackName t1) (TopTrack.trackName t2)
        <= 0)%Z).

(** A provider object that carries an identifier. *)
Definition carriesId (id : string) (a : option RawArtistObj) : Prop :=
  a ≫= (λ a, truthy (ao_id a)) = Some id.

#[global] Instance carriesId_dec id a : Decision (carriesId id a).
Proof. unfold carriesId. apply _. Defined.

(** The image of the last object that carries the identifier. *)
Definition imageFrom (objs : list (option RawArtistObj)) (id : string)
  : option string :=
  match last (filter (carriesId id) objs) with
  | Some (Some a) => imageOf a
  | _ => None
  end.

(** The objects the artist provider returns for the artists of the scan; it
    is not asked when there is none. *)
Definition artistObjsOf (p : Provider) : list (option RawArtistObj) :=
  match truthy (getAccessToken p) with
  | Some token =>
      let allArtistIds := JsMap.keys (artistMap (scannedOf p)) in
      if 0 <? length allArtistIds then
        match fetchArtistsByIds p token allArtistIds with
        | inr objs => objs
        | inl _ => []
        end
      else []
  | None => []
  end.

(** *** The service client, the sign-in routes and the page *)

(** The links of a paged collection, from a first link to the page that has
    none: each link with the page the service answers it with. *)
Inductive Linked {T}
    (fetch : Spotify.Request → Spotify.Reply (Spotify.Paging T))
    (token : string)
  : option string → list (string * Spotify.Paging T) → Prop :=
| Linked_end url : truthy url = None → Linked fetch token url []
| Linked_page url u page rest :
    truthy url = Some u →
    fetch (Spotify.bearer u token) = Spotify.Ok page →
    Linked fetch token (Spotify.next page) rest →
    Linked fetch token url ((u, page) :: rest).


(** A request the service answered with an [ok] response. *)
Definition answeredOk {A} (fetch : Spotify.Request → Spotify.Reply A)
    (req : Spotify.Request) : Prop :=
  match fetch req with Spotify.Ok _ => True | _ => False end.



(** The cookies a response of the callback route sets or deletes. *)
Definition cookiesOf (r : Callback.Response) : list CookieOp :=
  match r with
  | Callback.Redirect _ cookies => cookies
  | Callback.Json _ _ => []
  end.

(** The hexadecimal digits [toString(16)] writes. *)
Definition isHexDigit (c : ascii) : bool :=
  let n := N_of_ascii c in
  ((48 <=? n) && (n <=? 57) || (97 <=? n) && (n <=? 102))%N.

(** The two digits [randomString] writes for a byte, and their reading. *)
Definition hex2 (b : Byte.byte) : string :=
  padStart 2 "0" (toString16 (Byte.to_N b)).

Definition unhex2 (s : string) : option (Byte.byte * string) :=
  match s with
  | String c1 (String c2 rest) =>
      match Ref.hexOf c1, Ref.hexOf c2 with
      | Some h1, Some h2 =>
          match Byte.of_N (16 * h1 + h2) with
          | Some b => Some (b, rest)
          | None => None
          end
      | _, _ => None
      end
  | _ => None
  end.

(** [r.ok] *)
Definition ok (r : Response) : bool :=
  (200 <=? status r) && (status r <=? 299).

(** What a response of the scan route comes to on the page. An error body
    under an [ok] status is not of the type the page reads it at; the
    route sends none. *)
Definition replyOf (r : Response) : option ScanReply :=
  match body r with
  | SnapshotBody snap =>
      Some (if ok r then ScanOk snap else ScanNotOk (status r) None)
  | ErrorBody e =>
      if ok r then None else Some (ScanNotOk (status r) (Some e))
  end.

(** A value the storage gives back as it was saved. *)
Definition Storable (JSON_stringify : json → nat → string)
    (JSON_parse : string → string + json) (v : json) : Prop :=
  JSON_parse (JSON_stringify v 0) = inr v
  ∧ JSON_stringify v 0 ≠ EmptyString.

(** The order of a numeric column of the table in a direction. *)
Definition orderedBy (k : SortKey) (d : SortDir) (a b : ArtistRow.t) : Prop :=
  match d with
  | Asc => (column k a <= column k b)%Q
  | Desc => (column k b <= column k a)%Q
  end.

(** Two names the comparison that ignores case holds equal. *)
Definition sameName (baseCompare : string → string → Z) (n : string)
    (a : ArtistDeckItem.t) : bool :=
  ((baseCompare (ArtistDeckItem.artistName a) n <=? 0)
   && (baseCompare n (ArtistDeckItem.artistName a) <=? 0))%Z.

(** ** Example libraries *)

Definition artistOf (id name : string) : option RawArtist :=
  Some {| ra_id := Some id; ra_name := Some name |}.

Definition trackOf (id name : string) (artists : list (option RawArtist))
  : option RawItem :=
  Some {| it_track := Some {| rt_type := Some "track"; rt_id := Some id;
                              rt_name := Some name;
                              rt_artists := Some artists |} |}.

(** A locally added file: a track without an identifier. *)
Definition localFile (name : string) : option RawItem :=
  Some {| it_track := Some {| rt_type := Some "track"; rt_id := None;
                              rt_name := Some name;
                              rt_artists := Some [] |} |}.

Definition episodeOf (id name : string) : option RawItem :=
  Some {| it_track := Some {| rt_type := Some "episode"; rt_id := Some id;
                              rt_name := Some name; rt_artists := None |} |}.

Fixpoint itemsOfPlaylist
    (library : list (option string * list (option RawItem)))
    (playlistId : string) : Err + list (option RawItem) :=
  match library with
  | [] => inl "Spotify API error 404: "
  | (Some id, items) :: rest =>
      if String.eqb playlistId id then inr items
      else itemsOfPlaylist rest playlistId
  | (None, _) :: rest => itemsOfPlaylist rest playlistId
  end.

(** A provider that serves a fixed library, with or without a session. *)
Definition libraryProvider (token : option string)
    (library : list (option string * list (option RawItem))) : Provider :=
  {| getAccessToken := token;
     fetchAllPlaylists := λ _,
       inr (map (λ pl, Some {| pl_id := fst pl |}) library);
     fetchAllPlaylistTracks := λ _ playlistId,
       itemsOfPlaylist library playlistId;
     fetchArtistsByIds := λ _ ids,
       inr (map (λ id, Some {| ao_id := Some id; ao_images := None |}) ids) |}.

Definition Ann := artistOf "A1" "Ann".
Definition Bob := artistOf "A2" "Bob".

(** One playlist: T1 by Ann, T2 by Ann and Bob. *)
Definition duetLibrary : Provider :=
  libraryProvider (Some "token")
    [(Some "P1", [trackOf "T1" "One" [Ann]; trackOf "T2" "Two" [Ann; Bob]])].

(** One playlist: T1 and T3 by Ann, T2 by Ann and Bob. *)
Definition trioLibrary : Provider :=
  libraryProvider (Some "token")
    [(Some "P1", [trackOf "T1" "One" [Ann]; trackOf "T2" "Two" [Ann; Bob];
                  trackOf "T3" "Three" [Ann]])].

(** One playlist with one track that credits Ann twice. *)
Definition doubleCreditLibrary : Provider :=
  libraryProvider (Some "token")
    [(Some "P1", [trackOf "T1" "One" [Ann; Ann]])].

(** Two playlists with an identifier and one without; T1 occurs three times,
    next to a local file and an episode. *)
Definition mixedLibrary : Provider :=
  libraryProvider (Some "token")
    [(Some "P1", [trackOf "T1" "One" [Ann]; localFile "Tape";
                  trackOf "T1" "One" [Ann]; episodeOf "E1" "Talk"]);
     (None, [trackOf "T9" "Nine" [Bob]]);
     (Some "P2", [trackOf "T1" "One" [Ann]; trackOf "T2" "Two" [Bob]])].

(** T1 by Ann in two playlists. *)
Definition sharedTrackLibrary : Provider :=
  libraryProvider (Some "token")
    [(Some "P1", [trackOf "T1" "One" [Ann]]);
     (Some "P2", [trackOf "T1" "One" [Ann]])].

(** Bob's track comes before ann's; each has one song. *)
Definition tieLibrary : Provider :=
  libraryProvider (Some "token")
    [(Some "P1", [trackOf "T1" "One" [Bob];
                  trackOf "T2" "Two" [artistOf "A3" "ann"]])].

Definition emptyLibrary : Provider := libraryProvider (Some "token") [].
Definition signedOut : Provider := libraryProvider None [].

(** ** Example pages *)

Definition emptySnapshot : Snapshot :=
  mkSnapshot (mkTotals 0 0 0) [] [] [] [] [].

(** The snapshot of the first library. *)
Definition duetSnapshot : Snapshot :=
  match snapshotFor Ref.localeCompare duetLibrary with
  | Some snap => snap
  | None => emptySnapshot
  end.

(** A page in the deck view, on its second card, with one decision made. *)
Definition reviewingPage : Page.t :=
  Page.mk (Some (Snapshot_toJSON duetSnapshot)) None ModeDeck 2
          (JObj [("A1", JBool true)]) 1 [] (Some "whiplash-progress.json") [].

(** A page that has not scanned yet. *)
Definition freshPage : Page.t :=
  Page.mk None None ModeStart 0 (JObj []) 0 [] (Some EmptyString) [].

(** A progress file of a later format: its version tag is 2. *)
Definition wrongVersionFile : string :=
  Ref.JSON_stringify
    (JObj [("version", JNum 2);
           ("exportedAt", JStr "2024-05-01T10:00:00.000Z");
           ("data", Snapshot_toJSON emptySnapshot);
           ("deckIndex", JNum 0);
           ("decisions", JObj [])]) 2.

(** ** Example services and sessions *)

(** The provider lists a playlist, P9, whose items it cannot fetch. *)
Definition brokenLibrary : Provider :=
  withPlaylists
    (libraryProvider (Some "token") [(Some "P1", [trackOf "T1" "One" [Ann]])])
    [Some {| pl_id := Some "P1" |}; Some {| pl_id := Some "P9" |};
     Some {| pl_id := Some "P1" |}].

(** T1 occurs twice, the second time under another name and by Bob; A1 is
    credited as Ann and then as Annie. *)
Definition renamedLibrary : Provider :=
  libraryProvider (Some "token")
    [(Some "P1", [trackOf "T1" "One" [Ann]; trackOf "T1" "Uno" [Bob];
                  trackOf "T2" "Two" [artistOf "A1" "Annie"]])].

(** The library of the duet, with an artist provider that knows two
    pictures of Ann and none of Bob. *)
Definition picturedLibrary : Provider :=
  {| getAccessToken := Some "token";
     fetchAllPlaylists := fetchAllPlaylists duetLibrary;
     fetchAllPlaylistTracks := fetchAllPlaylistTracks duetLibrary;
     fetchArtistsByIds := λ _ _,
       inr [Some {| ao_id := Some "A1";
                    ao_images := Some [Some {| img_url := Some "old.jpg" |}] |};
            None;
            Some {| ao_id := Some "A1";
                    ao_images :=
                      Some [Some {| img_url := Some "ann.jpg" |};
                            Some {| img_url := Some "small.jpg" |}] |};
            Some {| ao_id := None; ao_images := None |}] |}.

(** A service with three playlists on two pages. *)
Definition playlistPages (req : Spotify.Request)
  : Spotify.Reply (Spotify.Paging (option RawPlaylist)) :=
  if String.eqb (Spotify.url req)
                "https://api.spotify.com/v1/me/playlists?limit=50"
  then Spotify.Ok (Spotify.mkPaging
                     [Some {| pl_id := Some "P1" |};
                      Some {| pl_id := Some "P2" |}]
                     (Some "https://api.spotify.com/v1/me/playlists?offset=50"))
  else if String.eqb (Spotify.url req)
                     "https://api.spotify.com/v1/me/playlists?offset=50"
  then Spotify.Ok (Spotify.mkPaging [Some {| pl_id := Some "P3" |}] None)
  else Spotify.NotOk 404 "Not found".

(** A service that answers the first page of a playlist and refuses the
    second. *)
Definition trackPages (req : Spotify.Request)
  : Spotify.Reply (Spotify.Paging (option RawItem)) :=
  if String.eqb (Spotify.url req)
                "https://api.spotify.com/v1/playlists/P1/tracks?limit=100"
  then Spotify.Ok (Spotify.mkPaging [trackOf "T1" "One" [Ann]]
                                    (Some "https://api.spotify.com/more"))
  else Spotify.NotOk 429 "Too many requests".



(** A token endpoint that accepts one code. *)
Definition tokenEndpoint (req : Callback.TokenRequest)
  : Spotify.Reply Callback.Tokens :=
  match JsMap.get "code" (Callback.form req) with
  | Some code =>
      if String.eqb code "good"
      then Spotify.Ok (Callback.mkTokens "AT" 3600 (Some "RT"))
      else Spotify.NotOk 400 "invalid_grant"
  | None => Spotify.NotOk 400 "invalid_request"
  end.

(** The deck of the first library, and the component reviewing it. *)
Definition duetDeck : list ArtistDeckItem.t :=
  deckArtistsSorted Ref.baseCompare (Some duetSnapshot).

Definition reviewingHome : Home.t :=
  Home.mk reviewingPage false KeySongCount Desc.


(** * Properties *)

(** ** The containers *)

Lemma eqb_decide (a b : string) : String.eqb a b = bool_decide (a = b).
Proof.
  destruct (String.eqb_spec a b); symmetry;
    [by apply bool_decide_eq_true_2 | by apply bool_decide_eq_false_2].
Qed.

Section JsSetFacts.
Implicit Types (k x : string) (s : JsSet.t).

Lemma JsSet_elem_of_add x k s : x ∈ JsSet.add k s ↔ x = k ∨ x ∈ s.
Proof.
  unfold JsSet.add, JsSet.has. case_bool_decide; [set_solver|].
  rewrite elem_of_app, list_elem_of_singleton. tauto.
Qed.

Lemma JsSet_NoDup_add k s : NoDup s → NoDup (JsSet.add k s).
Proof.
  unfold JsSet.add, JsSet.has. case_bool_decide; [done|].
  intros Hs. apply NoDup_app. split_and!; [done| |apply NoDup_singleton].
  intros y Hy Hy'. apply list_elem_of_singleton in Hy'. by subst.
Qed.

End JsSetFacts.

Section JsMapFacts.
Context {V : Type}.
Implicit Types (k : string) (v : V) (m : JsMap.t V).

Lemma JsMap_get_set k' k v m :
  JsMap.get k' (JsMap.set k v m) =
  if bool_decide (k' = k) then Some v else JsMap.get k' m.
Proof.
  induction m as [|[k0 v0] m IH]; simpl; rewrite ?eqb_decide.
  - by case_bool_decide.
  - repeat case_bool_decide; simpl; rewrite ?eqb_decide;
      repeat case_bool_decide; subst; try done.
Qed.

Lemma JsMap_get_None k m : JsMap.get k m = None ↔ k ∉ JsMap.keys m.
Proof.
  induction m as [|[k0 v0] m IH]; simpl.
  - split; [set_solver|done].
  - rewrite eqb_decide. case_bool_decide; subst.
    + split; [done|]. intros []. left.
    + rewrite IH. unfold JsMap.keys. simpl. rewrite not_elem_of_cons. tauto.
Qed.

Lemma JsMap_In_get k v m :
  NoDup (JsMap.keys m) → (k, v) ∈ m → JsMap.get k m = Some v.
Proof.
  induction m as [|[k0 v0] m IH]; simpl; [by intros _ ?%elem_of_nil|].
  unfold JsMap.keys. simpl. intros [Hk0 Hm]%NoDup_cons.
  rewrite eqb_decide. intros [[= -> ->]|Hin]%elem_of_cons.
  - by rewrite bool_decide_eq_true_2.
  - case_bool_decide; subst; [|by apply IH].
    destruct Hk0. apply list_elem_of_fmap. by exists (k0, v).
Qed.

Lemma JsMap_keys_set k v m :
  JsMap.keys (JsMap.set k v m) =
  if JsMap.has k m then JsMap.keys m else JsMap.keys m ++ [k].
Proof.
  unfold JsMap.has, JsMap.keys.
  induction m as [|[k0 v0] m IH]; simpl; [done|].
  rewrite eqb_decide. case_bool_decide; subst; simpl; [done|].
  rewrite IH. by destruct (JsMap.get k m).
Qed.

Lemma JsMap_has_keys k m : JsMap.has k m = bool_decide (k ∈ JsMap.keys m).
Proof.
  unfold JsMap.has. destruct (JsMap.get k m) eqn:E.
  - symmetry. apply bool_decide_eq_true_2.
    destruct (decide (k ∈ JsMap.keys m)); [done|].
    apply JsMap_get_None in n. congruence.
  - symmetry. apply bool_decide_eq_false_2. by apply JsMap_get_None.
Qed.

Lemma JsMap_NoDup_set k v m :
  NoDup (JsMap.keys m) → NoDup (JsMap.keys (JsMap.set k v m)).
Proof.
  rewrite JsMap_keys_set, JsMap_has_keys. case_bool_decide; [done|].
  intros Hm. apply NoDup_app. split_and!; [done| |apply NoDup_singleton].
  intros y Hy Hy'. apply list_elem_of_singleton in Hy'. by subst.
Qed.

Lemma JsMap_elem_of_keys_set x k v m :
  x ∈ JsMap.keys (JsMap.set k v m) ↔ x = k ∨ x ∈ JsMap.keys m.
Proof.
  rewrite JsMap_keys_set, JsMap_has_keys. case_bool_decide.
  - split; [auto|]. by intros [->|?].
  - rewrite elem_of_app, list_elem_of_singleton. tauto.
Qed.

Lemma JsMap_get_update k' k (f : V → V) m :
  JsMap.get k' (JsMap.update k f m) =
  if bool_decide (k' = k) then f <$> JsMap.get k m else JsMap.get k' m.
Proof.
  unfold JsMap.update. destruct (JsMap.get k m) eqn:E.
  - rewrite JsMap_get_set. by case_bool_decide.
  - case_bool_decide; subst; by rewrite ?E.
Qed.

Lemma JsMap_keys_update k (f : V → V) m :
  JsMap.keys (JsMap.update k f m) = JsMap.keys m.
Proof.
  unfold JsMap.update. destruct (JsMap.get k m) eqn:E; [|done].
  rewrite JsMap_keys_set. unfold JsMap.has. by rewrite E.
Qed.
End JsMapFacts.

(** ** The loops of the aggregator *)

(** *** Generic facts *)

Lemma fold_left_preserves {A B} (f : A → B → A) (P : A → Prop) (l : list B) :
  (∀ a b, b ∈ l → P a → P (f a b)) → ∀ a, P a → P (fold_left f l a).
Proof.
  induction l as [|b l IH]; simpl; [done|].
  intros Hf a Ha. apply IH.
  - intros a' b' Hb'. apply Hf. by right.
  - apply Hf; [left|done].
Qed.

Lemma count_occ_omap_cons {A} (f : A → option string) a l x :
  count_occ string_dec (omap f (a :: l)) x =
  (if bool_decide (f a = Some x) then 1 else 0)
  + count_occ string_dec (omap f l) x.
Proof.
  simpl. destruct (f a) as [y|]; simpl; [|done].
  destruct (string_dec y x) as [->|Hne].
  - by rewrite bool_decide_eq_true_2.
  - by rewrite bool_decide_eq_false_2 by congruence.
Qed.

(** *** The song loop (lines 92-100) *)

Lemma get_countSong m a x :
  JsMap.get x (countSong m a) =
  if bool_decide (creditId a = Some x) then
    Some (match JsMap.get x m with
          | Some prev => ArtistRec.incSong prev
          | None => ArtistRec.mk (nullish (snd <$> credit a) EmptyString) 1 0 None
          end)
  else JsMap.get x m.
Proof.
  unfold countSong, creditId. destruct (credit a) as [[id nm]|]; simpl.
  - destruct (JsMap.get id m) eqn:E; rewrite JsMap_get_set;
      repeat case_bool_decide; simplify_eq; by rewrite ?E.
  - done.
Qed.

Lemma songsOf_countSong m a x :
  songsOf (countSong m a) x =
  songsOf m x + (if bool_decide (creditId a = Some x) then 1 else 0).
Proof.
  unfold songsOf. rewrite get_countSong. case_bool_decide; [|simpl; lia].
  destruct (JsMap.get x m); simpl; lia.
Qed.

Lemma presenceOf_countSong m a x :
  presenceOf (countSong m a) x = presenceOf m x.
Proof.
  unfold presenceOf. rewrite get_countSong. case_bool_decide; [|done].
  by destruct (JsMap.get x m).
Qed.

Lemma keys_countSong m a x :
  x ∈ JsMap.keys (countSong m a) ↔ creditId a = Some x ∨ x ∈ JsMap.keys m.
Proof.
  unfold countSong, creditId. destruct (credit a) as [[id nm]|]; simpl.
  - destruct (JsMap.get id m); rewrite JsMap_elem_of_keys_set; naive_solver.
  - naive_solver.
Qed.

Lemma NoDup_countSong m a :
  NoDup (JsMap.keys m) → NoDup (JsMap.keys (countSong m a)).
Proof.
  unfold countSong. destruct (credit a) as [[id nm]|]; [|done].
  destruct (JsMap.get id m); apply JsMap_NoDup_set.
Qed.

Lemma songsOf_countSongs l m x :
  songsOf (fold_left countSong l m) x =
  songsOf m x + count_occ string_dec (omap creditId l) x.
Proof.
  revert m. induction l as [|a l IH]; intros m; [simpl; lia|].
  rewrite count_occ_omap_cons. simpl fold_left.
  rewrite IH, songsOf_countSong. lia.
Qed.

Lemma presenceOf_countSongs l m x :
  presenceOf (fold_left countSong l m) x = presenceOf m x.
Proof.
  revert m. induction l as [|a l IH]; intros m; [done|].
  simpl. by rewrite IH, presenceOf_countSong.
Qed.

Lemma keys_countSongs l m x :
  x ∈ JsMap.keys (fold_left countSong l m) ↔
  x ∈ omap creditId l ∨ x ∈ JsMap.keys m.
Proof.
  revert m. induction l as [|a l IH]; intros m.
  - simpl. set_solver.
  - simpl fold_left. rewrite IH, keys_countSong.
    simpl. destruct (creditId a) as [y|]; set_solver.
Qed.

Lemma NoDup_countSongs l m :
  NoDup (JsMap.keys m) → NoDup (JsMap.keys (fold_left countSong l m)).
Proof.
  apply (fold_left_preserves _ (λ m, NoDup (JsMap.keys m))).
  intros. by apply NoDup_countSong.
Qed.

(** *** The presence loop (lines 104-113) *)

Lemma notePresence_fst s m a :
  (notePresence (s, m) a).1 =
  match creditId a with Some id => JsSet.add id s | None => s end.
Proof. unfold notePresence, creditId. by destruct (credit a) as [[??]|]. Qed.

Lemma get_notePresence s m a x :
  JsMap.get x (notePresence (s, m) a).2 =
  match JsMap.get x m with
  | Some r => Some r
  | None =>
      if bool_decide (creditId a = Some x)
      then Some (ArtistRec.mk (nullish (snd <$> credit a) EmptyString) 0 0 None)
      else None
  end.
Proof.
  unfold notePresence, creditId. destruct (credit a) as [[id nm]|]; simpl.
  - unfold JsMap.has. destruct (JsMap.get id m) eqn:E.
    + destruct (JsMap.get x m) eqn:E'; [done|].
      rewrite bool_decide_eq_false_2; [done|]. intros [= <-]. congruence.
    + rewrite JsMap_get_set. repeat case_bool_decide; simplify_eq.
      * by rewrite E.
      * by destruct (JsMap.get x m).
  - by destruct (JsMap.get x m).
Qed.

Lemma keys_notePresence s m a x :
  x ∈ JsMap.keys (notePresence (s, m) a).2 ↔
  creditId a = Some x ∨ x ∈ JsMap.keys m.
Proof.
  unfold notePresence, creditId. destruct (credit a) as [[id nm]|]; simpl.
  - rewrite JsMap_has_keys. case_bool_decide.
    + naive_solver.
    + rewrite JsMap_elem_of_keys_set. naive_solver.
  - naive_solver.
Qed.

Lemma NoDup_notePresence s m a :
  NoDup (JsMap.keys m) → NoDup (JsMap.keys (notePresence (s, m) a).2).
Proof.
  unfold notePresence. destruct (credit a) as [[id nm]|]; simpl; [|done].
  destruct (JsMap.has id m); [done|]. apply JsMap_NoDup_set.
Qed.

Lemma songsOf_notePresence s m a x :
  songsOf (notePresence (s, m) a).2 x = songsOf m x.
Proof.
  unfold songsOf. rewrite get_notePresence.
  destruct (JsMap.get x m); [done|]. by case_bool_decide.
Qed.

Lemma presenceOf_notePresence s m a x :
  presenceOf (notePresence (s, m) a).2 x = presenceOf m x.
Proof.
  unfold presenceOf. rewrite get_notePresence.
  destruct (JsMap.get x m); [done|]. by case_bool_decide.
Qed.

Lemma elem_of_omap_cons {A} (f : A → option string) a l x :
  x ∈ omap f (a :: l) ↔ f a = Some x ∨ x ∈ omap f l.
Proof. simpl. destruct (f a); set_solver. Qed.

Lemma notePresences_spec l : ∀ s m,
  let r := fold_left notePresence l (s, m) in
  (∀ x, x ∈ r.1 ↔ x ∈ omap creditId l ∨ x ∈ s)
  ∧ (NoDup s → NoDup r.1)
  ∧ (∀ x, x ∈ JsMap.keys r.2 ↔ x ∈ omap creditId l ∨ x ∈ JsMap.keys m)
  ∧ (NoDup (JsMap.keys m) → NoDup (JsMap.keys r.2))
  ∧ (∀ x, songsOf r.2 x = songsOf m x)
  ∧ (∀ x, presenceOf r.2 x = presenceOf m x).
Proof.
  induction l as [|a l' IH]; intros s m; cbv zeta.
  - simpl. split_and!; try done; set_solver.
  - cbn [fold_left].
    pose proof (notePresence_fst s m a) as Hs.
    destruct (notePresence (s, m) a) as [s1 m1] eqn:E. simpl in Hs.
    specialize (IH s1 m1). cbv zeta in IH.
    destruct IH as (I1 & I2 & I3 & I4 & I5 & I6).
    assert (m1 = (notePresence (s, m) a).2) as Hm1 by by rewrite E.
    split_and!.
    + intros x. rewrite I1, Hs, elem_of_omap_cons.
      destruct (creditId a) as [y|]; rewrite ?JsSet_elem_of_add; naive_solver.
    + intros Hnd. apply I2. rewrite Hs. destruct (creditId a); [|done].
      by apply JsSet_NoDup_add.
    + intros x. rewrite I3, Hm1, keys_notePresence, elem_of_omap_cons.
      tauto.
    + intros Hnd. apply I4. rewrite Hm1. by apply NoDup_notePresence.
    + intros x. by rewrite I5, Hm1, songsOf_notePresence.
    + intros x. by rewrite I6, Hm1, presenceOf_notePresence.
Qed.

(** *** One item (lines 64-114) *)

Lemma totalSongs_set k v m :
  totalSongs (JsMap.set k v m) + songsOf m k
  = totalSongs m + ArtistRec.songCount v.
Proof.
  unfold totalSongs, songsOf.
  induction m as [|[k0 v0] m IH]; simpl; [lia|].
  rewrite eqb_decide. case_bool_decide; simpl; lia.
Qed.

Lemma totalSongs_countSong m a :
  totalSongs (countSong m a) = totalSongs m + length (option_list (creditId a)).
Proof.
  unfold countSong, creditId. destruct (credit a) as [[id nm]|]; simpl; [|lia].
  destruct (JsMap.get id m) as [prev|] eqn:E.
  - pose proof (totalSongs_set id (ArtistRec.incSong prev) m) as H.
    unfold songsOf in H. rewrite E in H. simpl in H. lia.
  - pose proof (totalSongs_set id (ArtistRec.mk nm 1 0 None) m) as H.
    unfold songsOf in H. rewrite E in H. simpl in H. lia.
Qed.

Lemma length_omap_cons {A B} (f : A → option B) a l :
  length (omap f (a :: l)) = length (option_list (f a)) + length (omap f l).
Proof. simpl. by destruct (f a). Qed.

Lemma totalSongs_countSongs l m :
  totalSongs (fold_left countSong l m) = totalSongs m + length (omap creditId l).
Proof.
  revert m. induction l as [|a l IH]; intros m; [simpl; lia|].
  rewrite length_omap_cons. cbn [fold_left].
  rewrite IH, totalSongs_countSong. lia.
Qed.

Lemma totalSongs_notePresence s m a :
  totalSongs (notePresence (s, m) a).2 = totalSongs m.
Proof.
  unfold notePresence. destruct (credit a) as [[id nm]|]; simpl; [|done].
  unfold JsMap.has. destruct (JsMap.get id m) eqn:E; [done|].
  pose proof (totalSongs_set id (ArtistRec.mk nm 0 0 None) m) as H.
  unfold songsOf in H. rewrite E in H. simpl in H. lia.
Qed.

Lemma totalSongs_notePresences l s m :
  totalSongs (fold_left notePresence l (s, m)).2 = totalSongs m.
Proof.
  revert s m. induction l as [|a l IH]; intros s m; [done|].
  cbn [fold_left]. destruct (notePresence (s, m) a) as [s1 m1] eqn:E.
  rewrite IH. replace m1 with (notePresence (s, m) a).2 by by rewrite E.
  apply totalSongs_notePresence.
Qed.

Lemma JsSet_add_has k s : JsSet.has k s = true → JsSet.add k s = s.
Proof. unfold JsSet.add. by intros ->. Qed.

Lemma processItem_skip st it : normalize it = None → processItem st it = st.
Proof. unfold processItem. by intros ->. Qed.

Lemma processItem_keep st it trackId track :
  normalize it = Some (trackId, track) →
  processItem st it =
  let a := agg st in
  let artists1 :=
    if JsSet.has trackId (uniqueTrackIds a) then artistMap a
    else fold_left countSong (artistsOf track) (artistMap a) in
  let r := fold_left notePresence (artistsOf track)
                     (artistIdsInPlaylist st, artists1) in
  mkLoop
    (mkAgg (JsSet.add trackId (uniqueTrackIds a)) r.2
       (if JsMap.has trackId (trackPlaylistMap a) then trackPlaylistMap a
        else JsMap.set trackId (newTrackRec track) (trackPlaylistMap a)))
    r.1 (JsSet.add trackId (trackIdsInPlaylist st)).
Proof.
  intros Hn. unfold processItem. rewrite Hn. cbv zeta.
  destruct (JsSet.has trackId (uniqueTrackIds (agg st))) eqn:Hhas; simpl.
  - rewrite (JsSet_add_has _ _ Hhas).
    by destruct (fold_left notePresence _ _).
  - by destruct (fold_left notePresence _ _).
Qed.

Lemma WfAgg_empty : WfAgg emptyAgg.
Proof. split; simpl; try apply NoDup_nil_2; done. Qed.

Lemma JsSet_add_nonempty k s : JsSet.add k s ≠ [].
Proof.
  unfold JsSet.add, JsSet.has. case_bool_decide as H.
  - intros ->. by apply elem_of_nil in H.
  - by destruct s.
Qed.

Lemma trackKeys_ensure trackId (r : TrackRec.t) m x :
  x ∈ JsMap.keys (if JsMap.has trackId m then m else JsMap.set trackId r m)
  ↔ x = trackId ∨ x ∈ JsMap.keys m.
Proof.
  rewrite JsMap_has_keys. case_bool_decide.
  - naive_solver.
  - by rewrite JsMap_elem_of_keys_set.
Qed.

Lemma trackPresence_ensure trackId (r : TrackRec.t) m x :
  TrackRec.playlistCount r = 0 →
  trackPresenceOf (if JsMap.has trackId m then m else JsMap.set trackId r m) x
  = trackPresenceOf m x.
Proof.
  intros Hr. unfold trackPresenceOf, JsMap.has.
  destruct (JsMap.get trackId m) eqn:E; [done|].
  rewrite JsMap_get_set. case_bool_decide; subst; [|done]. by rewrite E.
Qed.

Section Item.
Variables (st : Loop) (it : option RawItem).
Variables (trackId : string) (track : RawTrack).
Hypothesis Hkeep : normalize it = Some (trackId, track).
Let st' := processItem st it.

Lemma processItem_unique :
  uniqueTrackIds (agg st') = JsSet.add trackId (uniqueTrackIds (agg st)).
Proof. unfold st'. by rewrite (processItem_keep _ _ _ _ Hkeep). Qed.

Lemma processItem_trackIds :
  trackIdsInPlaylist st' = JsSet.add trackId (trackIdsInPlaylist st).
Proof. unfold st'. by rewrite (processItem_keep _ _ _ _ Hkeep). Qed.

Lemma processItem_artistIds x :
  x ∈ artistIdsInPlaylist st' ↔
  x ∈ creditsOf track ∨ x ∈ artistIdsInPlaylist st.
Proof.
  unfold st'. rewrite (processItem_keep _ _ _ _ Hkeep). cbv zeta. simpl.
  apply notePresences_spec.
Qed.

Lemma processItem_artistIds_NoDup :
  NoDup (artistIdsInPlaylist st) → NoDup (artistIdsInPlaylist st').
Proof.
  unfold st'. rewrite (processItem_keep _ _ _ _ Hkeep). cbv zeta. simpl.
  apply notePresences_spec.
Qed.

Lemma processItem_artistKeys x :
  x ∈ JsMap.keys (artistMap (agg st')) ↔
  x ∈ creditsOf track ∨ x ∈ JsMap.keys (artistMap (agg st)).
Proof.
  unfold st'. rewrite (processItem_keep _ _ _ _ Hkeep). cbv zeta. simpl.
  destruct (notePresences_spec (artistsOf track) (artistIdsInPlaylist st)
    (if JsSet.has trackId (uniqueTrackIds (agg st)) then artistMap (agg st)
     else fold_left countSong (artistsOf track) (artistMap (agg st))))
    as (_ & _ & -> & _).
  destruct (JsSet.has _ _); [done|].
  rewrite keys_countSongs. unfold creditsOf. tauto.
Qed.

Lemma processItem_songsOf x :
  songsOf (artistMap (agg st')) x =
  songsOf (artistMap (agg st)) x
  + (if JsSet.has trackId (uniqueTrackIds (agg st)) then 0
     else count_occ string_dec (creditsOf track) x).
Proof.
  unfold st'. rewrite (processItem_keep _ _ _ _ Hkeep). cbv zeta. simpl.
  destruct (notePresences_spec (artistsOf track) (artistIdsInPlaylist st)
    (if JsSet.has trackId (uniqueTrackIds (agg st)) then artistMap (agg st)
     else fold_left countSong (artistsOf track) (artistMap (agg st))))
    as (_ & _ & _ & _ & -> & _).
  destruct (JsSet.has _ _); [lia|].
  by rewrite songsOf_countSongs.
Qed.

Lemma processItem_totalSongs :
  totalSongs (artistMap (agg st')) =
  totalSongs (artistMap (agg st))
  + (if JsSet.has trackId (uniqueTrackIds (agg st)) then 0
     else length (creditsOf track)).
Proof.
  unfold st'. rewrite (processItem_keep _ _ _ _ Hkeep). cbv zeta. simpl.
  rewrite totalSongs_notePresences.
  destruct (JsSet.has _ _); [lia|].
  by rewrite totalSongs_countSongs.
Qed.

Lemma processItem_presenceOf x :
  presenceOf (artistMap (agg st')) x = presenceOf (artistMap (agg st)) x.
Proof.
  unfold st'. rewrite (processItem_keep _ _ _ _ Hkeep). cbv zeta. simpl.
  destruct (notePresences_spec (artistsOf track) (artistIdsInPlaylist st)
    (if JsSet.has trackId (uniqueTrackIds (agg st)) then artistMap (agg st)
     else fold_left countSong (artistsOf track) (artistMap (agg st))))
    as (_ & _ & _ & _ & _ & ->).
  destruct (JsSet.has _ _); [done|].
  by rewrite presenceOf_countSongs.
Qed.

Lemma processItem_trackKeys x :
  x ∈ JsMap.keys (trackPlaylistMap (agg st')) ↔
  x = trackId ∨ x ∈ JsMap.keys (trackPlaylistMap (agg st)).
Proof.
  unfold st'. rewrite (processItem_keep _ _ _ _ Hkeep). cbv zeta. simpl.
  apply trackKeys_ensure.
Qed.

Lemma processItem_trackPresenceOf x :
  trackPresenceOf (trackPlaylistMap (agg st')) x
  = trackPresenceOf (trackPlaylistMap (agg st)) x.
Proof.
  unfold st'. rewrite (processItem_keep _ _ _ _ Hkeep). cbv zeta. simpl.
  by apply trackPresence_ensure.
Qed.

Lemma processItem_wf : WfAgg (agg st) → WfAgg (agg st').
Proof.
  intros [H1 H2 H3 H4].
  unfold st'. rewrite (processItem_keep _ _ _ _ Hkeep). cbv zeta.
  split; simpl.
  - by apply JsSet_NoDup_add.
  - apply notePresences_spec. destruct (JsSet.has _ _); [done|].
    by apply NoDup_countSongs.
  - destruct (JsMap.has _ _); [done|]. by apply JsMap_NoDup_set.
  - intros _. apply JsSet_add_nonempty.
Qed.
End Item.

(** *** The items of one playlist (lines 64-114) *)

Lemma trackIdsOf_cons it items :
  trackIdsOf (it :: items) =
  match normalize it with
  | Some (trackId, _) => trackId :: trackIdsOf items
  | None => trackIdsOf items
  end.
Proof. unfold trackIdsOf. simpl. by destruct (normalize it) as [[??]|]. Qed.

Lemma artistIdsOf_cons it items :
  artistIdsOf (it :: items) =
  match normalize it with
  | Some (_, track) => creditsOf track ++ artistIdsOf items
  | None => artistIdsOf items
  end.
Proof. unfold artistIdsOf. simpl. by destruct (normalize it) as [[??]|]. Qed.

Lemma processItems_spec items : ∀ st,
  let st' := fold_left processItem items st in
  (∀ x, x ∈ uniqueTrackIds (agg st') ↔
        x ∈ trackIdsOf items ∨ x ∈ uniqueTrackIds (agg st))
  ∧ (∀ x, x ∈ trackIdsInPlaylist st' ↔
          x ∈ trackIdsOf items ∨ x ∈ trackIdsInPlaylist st)
  ∧ (∀ x, x ∈ artistIdsInPlaylist st' ↔
          x ∈ artistIdsOf items ∨ x ∈ artistIdsInPlaylist st)
  ∧ (∀ x, x ∈ JsMap.keys (artistMap (agg st')) ↔
          x ∈ artistIdsOf items ∨ x ∈ JsMap.keys (artistMap (agg st)))
  ∧ (∀ x, x ∈ JsMap.keys (trackPlaylistMap (agg st')) ↔
          x ∈ trackIdsOf items ∨ x ∈ JsMap.keys (trackPlaylistMap (agg st)))
  ∧ (∀ x, presenceOf (artistMap (agg st')) x
          = presenceOf (artistMap (agg st)) x)
  ∧ (∀ x, trackPresenceOf (trackPlaylistMap (agg st')) x
          = trackPresenceOf (trackPlaylistMap (agg st)) x)
  ∧ (NoDup (trackIdsInPlaylist st) → NoDup (trackIdsInPlaylist st'))
  ∧ (NoDup (artistIdsInPlaylist st) → NoDup (artistIdsInPlaylist st'))
  ∧ (WfAgg (agg st) → WfAgg (agg st')).
Proof.
  induction items as [|it items IH]; intros st; cbv zeta.
  - simpl. split_and!; try done; set_solver.
  - cbn [fold_left]. specialize (IH (processItem st it)). cbv zeta in IH.
    destruct IH as (I1 & I2 & I3 & I4 & I5 & I6 & I7 & I8 & I9 & I10).
    rewrite trackIdsOf_cons, artistIdsOf_cons.
    destruct (normalize it) as [[trackId track]|] eqn:Hn.
    + split_and!.
      * intros x. rewrite I1, (processItem_unique _ _ _ _ Hn),
          JsSet_elem_of_add. set_solver.
      * intros x. rewrite I2, (processItem_trackIds _ _ _ _ Hn),
          JsSet_elem_of_add. set_solver.
      * intros x. rewrite I3, (processItem_artistIds _ _ _ _ Hn). set_solver.
      * intros x. rewrite I4, (processItem_artistKeys _ _ _ _ Hn). set_solver.
      * intros x. rewrite I5, (processItem_trackKeys _ _ _ _ Hn). set_solver.
      * intros x. by rewrite I6, (processItem_presenceOf _ _ _ _ Hn).
      * intros x. by rewrite I7, (processItem_trackPresenceOf _ _ _ _ Hn).
      * intros H. apply I8. rewrite (processItem_trackIds _ _ _ _ Hn).
        by apply JsSet_NoDup_add.
      * intros H. apply I9. by apply (processItem_artistIds_NoDup _ _ _ _ Hn).
      * intros H. apply I10. by apply (processItem_wf _ _ _ _ Hn).
    + rewrite (processItem_skip _ _ Hn) in *. by split_and!.
Qed.

Lemma JsSet_length_add k s :
  length (JsSet.add k s) = length s + (if JsSet.has k s then 0 else 1).
Proof.
  unfold JsSet.add. destruct (JsSet.has k s); [lia|].
  rewrite length_app. simpl. lia.
Qed.

Lemma processItems_songsBounded items : ∀ st,
  creditsDistinct items →
  SongsBounded (agg st) → SongsBounded (agg (fold_left processItem items st)).
Proof.
  induction items as [|it items IH]; intros st Hd Hb; [done|].
  apply Forall_cons in Hd as [Hit Hd].
  cbn [fold_left]. apply IH; [done|].
  destruct (normalize it) as [[trackId track]|] eqn:Hn;
    [|by rewrite (processItem_skip _ _ Hn)].
  intros x. rewrite (processItem_songsOf _ _ _ _ Hn),
    (processItem_unique _ _ _ _ Hn). unfold JsSet.size.
  rewrite JsSet_length_add. specialize (Hb x). unfold JsSet.size in Hb.
  destruct (JsSet.has _ _); [lia|].
  assert (count_occ string_dec (creditsOf track) x ≤ 1); [|lia].
  by apply NoDup_count_occ, NoDup_ListNoDup.
Qed.

Lemma processItems_totalSongs items : ∀ st,
  creditsSingle items →
  totalSongs (artistMap (agg st)) ≤ JsSet.size (uniqueTrackIds (agg st)) →
  let st' := fold_left processItem items st in
  totalSongs (artistMap (agg st')) ≤ JsSet.size (uniqueTrackIds (agg st')).
Proof.
  induction items as [|it items IH]; intros st Hd Hb; [done|].
  apply Forall_cons in Hd as [Hit Hd].
  cbv zeta. cbn [fold_left]. apply IH; [done|].
  destruct (normalize it) as [[trackId track]|] eqn:Hn;
    [|by rewrite (processItem_skip _ _ Hn)].
  rewrite (processItem_totalSongs _ _ _ _ Hn),
    (processItem_unique _ _ _ _ Hn). unfold JsSet.size in *.
  rewrite JsSet_length_add.
  destruct (JsSet.has _ _); lia.
Qed.

(** *** The end-of-playlist increments (lines 116-124) *)

Lemma presenceOf_bumpArtist m k x :
  k ∈ JsMap.keys m →
  presenceOf (bumpArtist m k) x
  = presenceOf m x + (if bool_decide (x = k) then 1 else 0).
Proof.
  intros Hk. unfold presenceOf, bumpArtist. rewrite JsMap_get_update.
  case_bool_decide; subst; [|lia].
  destruct (JsMap.get k m) eqn:E; simpl; [lia|].
  by apply JsMap_get_None in E.
Qed.

Lemma songsOf_bumpArtist m k x : songsOf (bumpArtist m k) x = songsOf m x.
Proof.
  unfold songsOf, bumpArtist. rewrite JsMap_get_update.
  case_bool_decide; subst; [|done]. by destruct (JsMap.get k m).
Qed.

Lemma totalSongs_bumpArtist m k : totalSongs (bumpArtist m k) = totalSongs m.
Proof.
  unfold bumpArtist, JsMap.update. destruct (JsMap.get k m) as [v|] eqn:E; [|done].
  pose proof (totalSongs_set k (ArtistRec.incPlaylist v) m) as H.
  unfold songsOf in H. rewrite E in H. simpl in H. lia.
Qed.

Lemma trackPresenceOf_bumpTrack m k x :
  k ∈ JsMap.keys m →
  trackPresenceOf (bumpTrack m k) x
  = trackPresenceOf m x + (if bool_decide (x = k) then 1 else 0).
Proof.
  intros Hk. unfold trackPresenceOf, bumpTrack. rewrite JsMap_get_update.
  case_bool_decide; subst; [|lia].
  destruct (JsMap.get k m) eqn:E; simpl; [lia|].
  by apply JsMap_get_None in E.
Qed.

Lemma bumpArtists_spec ids : ∀ m,
  NoDup ids → (∀ k, k ∈ ids → k ∈ JsMap.keys m) →
  let m' := fold_left bumpArtist ids m in
  JsMap.keys m' = JsMap.keys m
  ∧ (∀ x, presenceOf m' x
          = presenceOf m x + (if bool_decide (x ∈ ids) then 1 else 0))
  ∧ (∀ x, songsOf m' x = songsOf m x)
  ∧ totalSongs m' = totalSongs m.
Proof.
  induction ids as [|k ids IH]; intros m Hnd Hin; cbv zeta.
  - simpl. split_and!; try done.
    all: intros x; rewrite bool_decide_eq_false_2; [lia|apply not_elem_of_nil].
  - cbn [fold_left]. apply NoDup_cons in Hnd as [Hk Hnd].
    destruct (IH (bumpArtist m k) Hnd) as (I1 & I2 & I3 & I4).
    { intros k' Hk'. unfold bumpArtist. rewrite JsMap_keys_update.
      apply Hin. by right. }
    split_and!.
    + rewrite I1. apply JsMap_keys_update.
    + intros x. rewrite I2, presenceOf_bumpArtist by (apply Hin; left).
      repeat case_bool_decide; set_solver by lia.
    + intros x. by rewrite I3, songsOf_bumpArtist.
    + by rewrite I4, totalSongs_bumpArtist.
Qed.

Lemma bumpTracks_spec ids : ∀ m,
  NoDup ids → (∀ k, k ∈ ids → k ∈ JsMap.keys m) →
  let m' := fold_left bumpTrack ids m in
  JsMap.keys m' = JsMap.keys m
  ∧ (∀ x, trackPresenceOf m' x
          = trackPresenceOf m x + (if bool_decide (x ∈ ids) then 1 else 0)).
Proof.
  induction ids as [|k ids IH]; intros m Hnd Hin; cbv zeta.
  - simpl. split_and!; try done.
    all: intros x; rewrite bool_decide_eq_false_2; [lia|apply not_elem_of_nil].
  - cbn [fold_left]. apply NoDup_cons in Hnd as [Hk Hnd].
    destruct (IH (bumpTrack m k) Hnd) as (I1 & I2).
    { intros k' Hk'. unfold bumpTrack. rewrite JsMap_keys_update.
      apply Hin. by right. }
    split_and!.
    + rewrite I1. apply JsMap_keys_update.
    + intros x. rewrite I2, trackPresenceOf_bumpTrack by (apply Hin; left).
      repeat case_bool_decide; set_solver by lia.
Qed.

(** *** One playlist *)

Section Playlist.
Variables (a : Agg) (items : list (option RawItem)).
Let st := fold_left processItem items (mkLoop a JsSet.empty JsSet.empty).
Let a' := processPlaylist a items.

Local Lemma loop_facts :
  NoDup (artistIdsInPlaylist st) ∧ NoDup (trackIdsInPlaylist st)
  ∧ (∀ k, k ∈ artistIdsInPlaylist st ↔ k ∈ artistIdsOf items)
  ∧ (∀ k, k ∈ trackIdsInPlaylist st ↔ k ∈ trackIdsOf items)
  ∧ (∀ k, k ∈ artistIdsInPlaylist st → k ∈ JsMap.keys (artistMap (agg st)))
  ∧ (∀ k, k ∈ trackIdsInPlaylist st
          → k ∈ JsMap.keys (trackPlaylistMap (agg st))).
Proof.
  destruct (processItems_spec items (mkLoop a JsSet.empty JsSet.empty))
    as (I1 & I2 & I3 & I4 & I5 & I6 & I7 & I8 & I9 & I10).
  fold st in I1, I2, I3, I4, I5, I6, I7, I8, I9, I10. simpl in *.
  split_and!.
  - apply I9, NoDup_nil_2.
  - apply I8, NoDup_nil_2.
  - intros k. rewrite I3. set_solver.
  - intros k. rewrite I2. set_solver.
  - intros k. rewrite I3, I4. set_solver.
  - intros k. rewrite I2, I5. set_solver.
Qed.

Lemma processPlaylist_unique x :
  x ∈ uniqueTrackIds a' ↔ x ∈ trackIdsOf items ∨ x ∈ uniqueTrackIds a.
Proof.
  unfold a', processPlaylist. simpl.
  destruct (processItems_spec items (mkLoop a JsSet.empty JsSet.empty))
    as (H & _). apply H.
Qed.

Lemma if_bool_decide_ext (P Q : Prop) `{Decision P, Decision Q} :
  (P ↔ Q) →
  (if bool_decide P then 1 else 0) = (if bool_decide Q then 1 else 0).
Proof. intros HPQ. by rewrite (bool_decide_ext P Q HPQ). Qed.

Lemma processPlaylist_presenceOf x :
  presenceOf (artistMap a') x =
  presenceOf (artistMap a) x
  + (if bool_decide (x ∈ artistIdsOf items) then 1 else 0).
Proof.
  destruct loop_facts as (N1 & N2 & E1 & E2 & K1 & K2).
  destruct (bumpArtists_spec _ _ N1 K1) as (_ & HP & _).
  destruct (processItems_spec items (mkLoop a JsSet.empty JsSet.empty))
    as (_ & _ & _ & _ & _ & HQ & _). fold st in HQ. simpl in HQ.
  unfold a', processPlaylist. fold st. simpl. rewrite HP, HQ.
  f_equal. apply if_bool_decide_ext, E1.
Qed.

Lemma processPlaylist_trackPresenceOf x :
  trackPresenceOf (trackPlaylistMap a') x =
  trackPresenceOf (trackPlaylistMap a) x
  + (if bool_decide (x ∈ trackIdsOf items) then 1 else 0).
Proof.
  destruct loop_facts as (N1 & N2 & E1 & E2 & K1 & K2).
  destruct (bumpTracks_spec _ _ N2 K2) as (_ & HP).
  destruct (processItems_spec items (mkLoop a JsSet.empty JsSet.empty))
    as (_ & _ & _ & _ & _ & _ & HQ & _). fold st in HQ. simpl in HQ.
  unfold a', processPlaylist. fold st. simpl. rewrite HP, HQ.
  f_equal. apply if_bool_decide_ext, E2.
Qed.

Lemma processPlaylist_wf : WfAgg a → WfAgg a'.
Proof.
  intros Hwf.
  destruct loop_facts as (N1 & N2 & E1 & E2 & K1 & K2).
  destruct (bumpArtists_spec _ _ N1 K1) as (KA & _).
  destruct (bumpTracks_spec _ _ N2 K2) as (KT & _).
  destruct (processItems_spec items (mkLoop a JsSet.empty JsSet.empty))
    as (_ & _ & _ & _ & _ & _ & _ & _ & _ & W).
  destruct (W Hwf) as [W1 W2 W3 W4]. fold st in W1, W2, W3, W4.
  unfold a', processPlaylist. fold st. split; simpl.
  - done.
  - by rewrite KA.
  - by rewrite KT.
  - intros Hne. apply W4. intros Hnil. apply Hne.
    unfold JsMap.keys in KA. rewrite Hnil in KA. simpl in KA.
    rewrite Hnil. by apply map_eq_nil in KA.
Qed.

Lemma processPlaylist_songsBounded :
  creditsDistinct items → SongsBounded a → SongsBounded a'.
Proof.
  intros Hd Hb x.
  destruct loop_facts as (N1 & N2 & E1 & E2 & K1 & K2).
  destruct (bumpArtists_spec _ _ N1 K1) as (_ & _ & S & _).
  unfold a', processPlaylist. fold st. simpl. rewrite S.
  by apply (processItems_songsBounded items _ Hd).
Qed.

Lemma processPlaylist_totalBounded :
  creditsSingle items → TotalBounded a → TotalBounded a'.
Proof.
  intros Hd Hb.
  destruct loop_facts as (N1 & N2 & E1 & E2 & K1 & K2).
  destruct (bumpArtists_spec _ _ N1 K1) as (_ & _ & _ & T).
  unfold TotalBounded, a', processPlaylist. fold st. simpl. rewrite T.
  by apply (processItems_totalSongs items _ Hd).
Qed.
End Playlist.

(** *** All playlists *)

Lemma playlistsWith_cons ids x items itemss :
  playlistsWith ids x (items :: itemss) =
  (if bool_decide (x ∈ ids items) then 1 else 0) + playlistsWith ids x itemss.
Proof.
  unfold playlistsWith. rewrite filter_cons.
  destruct (decide _); [rewrite bool_decide_eq_true_2|rewrite bool_decide_eq_false_2];
    simpl; done.
Qed.

Lemma playlistsWith_le ids x itemss :
  playlistsWith ids x itemss ≤ length itemss.
Proof. apply length_filter. Qed.

Lemma processPlaylists_spec itemss : ∀ a,
  let a' := fold_left processPlaylist itemss a in
  (∀ x, x ∈ uniqueTrackIds a' ↔
        x ∈ trackIdsOf (concat itemss) ∨ x ∈ uniqueTrackIds a)
  ∧ (∀ x, presenceOf (artistMap a') x =
          presenceOf (artistMap a) x + playlistsWith artistIdsOf x itemss)
  ∧ (∀ x, trackPresenceOf (trackPlaylistMap a') x =
          trackPresenceOf (trackPlaylistMap a) x
          + playlistsWith trackIdsOf x itemss)
  ∧ (WfAgg a → WfAgg a')
  ∧ (Forall creditsDistinct itemss → SongsBounded a → SongsBounded a')
  ∧ (Forall creditsSingle itemss → TotalBounded a → TotalBounded a').
Proof.
  induction itemss as [|items itemss IH]; intros a; cbv zeta.
  - simpl. split_and!; try done; [set_solver|..];
      intros x; unfold playlistsWith; simpl; lia.
  - cbn [fold_left].
    destruct (IH (processPlaylist a items)) as (I1 & I2 & I3 & I4 & I5 & I6).
    split_and!.
    + intros x. rewrite I1, processPlaylist_unique. simpl.
      unfold trackIdsOf. rewrite omap_app. set_solver.
    + intros x. rewrite I2, processPlaylist_presenceOf, playlistsWith_cons. lia.
    + intros x. rewrite I3, processPlaylist_trackPresenceOf,
        playlistsWith_cons. lia.
    + intros H. by apply I4, processPlaylist_wf.
    + intros [H1 H2]%Forall_cons H. by apply I5, processPlaylist_songsBounded.
    + intros [H1 H2]%Forall_cons H. by apply I6, processPlaylist_totalBounded.
Qed.

(** *** The scan and the handler, as functions of the provider's answers *)

Lemma scan_inv p token playlists : ∀ a tr a',
  scan p token playlists a = (tr, inr a') →
  tr = map (CallFetchAllPlaylistTracks token) (playlistIds playlists)
  ∧ a' = fold_left processPlaylist (fetchedItems p token playlists) a
  ∧ Forall2 (λ playlistId items,
               fetchAllPlaylistTracks p token playlistId = inr items)
            (playlistIds playlists) (fetchedItems p token playlists).
Proof.
  unfold fetchedItems, playlistIds.
  induction playlists as [|pl rest IH]; intros a tr a'; simpl.
  - intros [= <- <-]. by split_and!.
  - destruct (truthy (pl ≫= pl_id)) as [playlistId|]; [|apply IH].
    unfold bind, call. simpl.
    destruct (fetchAllPlaylistTracks p token playlistId) as [e|items] eqn:Hf;
      [done|].
    destruct (scan p token rest (processPlaylist a items)) as [tr' r] eqn:Hs.
    intros [= <- ->]. destruct (IH _ _ _ Hs) as (-> & -> & HF).
    split_and!; try done. by constructor.
Qed.

(** *** [Array.prototype.sort] *)

Section SortFacts.
Context {A : Type} (cmp : A → A → Z).

Lemma insertSorted_perm x l : Permutation (insertSorted cmp x l) (x :: l).
Proof.
  induction l as [|y l IH]; simpl; [done|].
  destruct (cmp x y <=? 0)%Z; [done|].
  rewrite IH. apply perm_swap.
Qed.

Lemma Array_sort_perm l : Permutation (Array_sort cmp l) l.
Proof.
  induction l as [|x l IH]; simpl; [done|].
  rewrite insertSorted_perm. by constructor.
Qed.

Lemma insertSorted_front x l :
  Forall (notAfter cmp x) l → insertSorted cmp x l = x :: l.
Proof.
  destruct l as [|y l]; simpl; [done|].
  intros [H _]%Forall_cons. unfold notAfter in H.
  by rewrite (proj2 (Z.leb_le _ _) H).
Qed.

Lemma Array_sort_sorted_id l :
  StronglySorted (notAfter cmp) l → Array_sort cmp l = l.
Proof.
  induction 1 as [|x l Hl IH Hx]; simpl; [done|].
  rewrite IH. by apply insertSorted_front.
Qed.

Hypothesis cmp_total : ∀ x y, notAfter cmp x y ∨ notAfter cmp y x.
Hypothesis cmp_trans : ∀ x y z, notAfter cmp x y → notAfter cmp y z → notAfter cmp x z.

Lemma insertSorted_sorted x l :
  StronglySorted (notAfter cmp) l → StronglySorted (notAfter cmp) (insertSorted cmp x l).
Proof.
  induction 1 as [|y l Hl IH Hy]; simpl.
  - repeat constructor.
  - destruct (Z.leb_spec (cmp x y) 0) as [Hxy|Hxy].
    + constructor; [by constructor|].
      constructor; [done|].
      eapply Forall_impl; [exact Hy|]. intros z Hz. by eapply cmp_trans.
    + constructor; [done|].
      rewrite insertSorted_perm. constructor; [|done].
      destruct (cmp_total x y) as [H|H]; [|done].
      unfold notAfter in H. lia.
Qed.

Lemma Array_sort_sorted l : StronglySorted (notAfter cmp) (Array_sort cmp l).
Proof.
  induction l as [|x l IH]; simpl; [constructor|].
  by apply insertSorted_sorted.
Qed.

End SortFacts.

(** The code-unit collation is a total preorder. *)

Lemma codeUnitCompare_total a b :
  (codeUnitCompare a b <= 0 ∨ codeUnitCompare b a <= 0)%Z.
Proof.
  unfold codeUnitCompare. rewrite (String.compare_antisym b a).
  destruct (String.compare a b); simpl; lia.
Qed.

Lemma String_compare_trans a : ∀ b c,
  String.compare a b ≠ Gt → String.compare b c ≠ Gt → String.compare a c ≠ Gt.
Proof.
  induction a as [|x a IH]; intros [|y b] [|z c]; simpl; try done.
  specialize (IH b c). unfold Ascii.compare.
  destruct (N.compare_spec (N_of_ascii x) (N_of_ascii y)) as [Hxy|Hxy|Hxy];
  destruct (N.compare_spec (N_of_ascii y) (N_of_ascii z)) as [Hyz|Hyz|Hyz];
  destruct (N.compare_spec (N_of_ascii x) (N_of_ascii z)) as [Hxz|Hxz|Hxz];
    try done; try lia; auto.
Qed.

Lemma codeUnitCompare_trans a b c :
  (codeUnitCompare a b <= 0 → codeUnitCompare b c <= 0
   → codeUnitCompare a c <= 0)%Z.
Proof.
  unfold codeUnitCompare. intros Hab Hbc.
  pose proof (String_compare_trans a b c) as H.
  destruct (String.compare a b), (String.compare b c),
    (String.compare a c); try lia; exfalso; by apply H.
Qed.

Lemma codeUnitCompare_opp a b :
  codeUnitCompare b a = (- codeUnitCompare a b)%Z.
Proof.
  unfold codeUnitCompare. rewrite (String.compare_antisym b a).
  by destruct (String.compare a b).
Qed.

Lemma codeUnitCompare_antisym a b :
  (codeUnitCompare a b <= 0 → codeUnitCompare b a <= 0 → a = b)%Z.
Proof.
  unfold codeUnitCompare. rewrite (String.compare_antisym b a).
  destruct (String.compare a b) eqn:E; simpl; try lia.
  intros _ _. by apply String.compare_eq_iff.
Qed.

(** The reference collation is a total preorder that refines the comparison
    ignoring case. *)

Lemma Ref_localeCompare_refines a b :
  (Ref.localeCompare a b <= 0 → Ref.baseCompare a b <= 0)%Z.
Proof.
  unfold Ref.localeCompare, orElse.
  destruct (Z.eqb_spec (Ref.baseCompare a b) 0); lia.
Qed.

Lemma Ref_localeCompare_total a b :
  (Ref.localeCompare a b <= 0 ∨ Ref.localeCompare b a <= 0)%Z.
Proof.
  unfold Ref.localeCompare, Ref.baseCompare, orElse.
  pose proof (codeUnitCompare_opp (Ref.fold a) (Ref.fold b)).
  pose proof (codeUnitCompare_opp a b).
  destruct (Z.eqb_spec (codeUnitCompare (Ref.fold a) (Ref.fold b)) 0),
    (Z.eqb_spec (codeUnitCompare (Ref.fold b) (Ref.fold a)) 0); lia.
Qed.

Lemma Ref_localeCompare_trans a b c :
  (Ref.localeCompare a b <= 0 → Ref.localeCompare b c <= 0
   → Ref.localeCompare a c <= 0)%Z.
Proof.
  intros Hab Hbc.
  pose proof (Ref_localeCompare_refines _ _ Hab) as Bab.
  pose proof (Ref_localeCompare_refines _ _ Hbc) as Bbc.
  pose proof (codeUnitCompare_trans _ _ _ Bab Bbc) as Bac.
  unfold Ref.localeCompare, Ref.baseCompare, orElse in *.
  destruct (Z.eqb_spec (codeUnitCompare (Ref.fold a) (Ref.fold c)) 0)
    as [Hac|Hac]; [|lia].
  assert (Ref.fold a = Ref.fold b) as Eab.
  { apply codeUnitCompare_antisym; [done|].
    apply (codeUnitCompare_trans _ (Ref.fold c)); [done|].
    rewrite codeUnitCompare_opp. lia. }
  assert (Ref.fold b = Ref.fold c) as Ebc.
  { apply codeUnitCompare_antisym; [done|].
    apply (codeUnitCompare_trans _ (Ref.fold a)); [|done].
    rewrite codeUnitCompare_opp. lia. }
  rewrite Eab, Ebc in *.
  assert (codeUnitCompare (Ref.fold c) (Ref.fold c) = 0%Z) as Hcc.
  { pose proof (codeUnitCompare_opp (Ref.fold c) (Ref.fold c)). lia. }
  rewrite Hcc in Hab, Hbc. simpl in Hab, Hbc.
  by apply (codeUnitCompare_trans _ b).
Qed.

(** *** The enrichment step *)

Lemma counters_fillImages images a :
  map counters (artistsOfMap (artistMap (fillImages images a)))
  = map counters (artistsOfMap (artistMap a)).
Proof.
  unfold artistsOfMap, JsMap.entries, fillImages. simpl.
  rewrite !map_map. apply map_ext. by intros [id r].
Qed.

Lemma enrich_inv p token a tr a' :
  enrich p token a = (tr, inr a') →
  uniqueTrackIds a' = uniqueTrackIds a
  ∧ map counters (artistsOfMap (artistMap a'))
    = map counters (artistsOfMap (artistMap a))
  ∧ (tr = [] ∨ tr = [CallFetchArtistsByIds token (JsMap.keys (artistMap a))]).
Proof.
  unfold enrich. destruct (0 <? _).
  - unfold bind, call, ret.
    destruct (fetchArtistsByIds p token _) as [e|objs]; [done|].
    intros [= <- <-]. split_and!; [done|apply counters_fillImages|by right].
  - intros [= <- <-]. split_and!; [done|done|by left].
Qed.

(** *** The handler, inverted *)

Section Handler.
Variable localeCompare : string → string → Z.

Lemma GET_unauthenticated p :
  truthy (getAccessToken p) = None →
  GET localeCompare p
  = ([CallGetAccessToken], inr (NextResponse_json (ErrorBody "not_authenticated") 401)).
Proof. unfold GET, bind, call, ret. simpl. by intros ->. Qed.

Lemma GET_snapshot_inv p tr r snap :
  GET localeCompare p = (tr, inr r) → snapshotOf r = Some snap →
  ∃ token playlists tr_e a',
    truthy (getAccessToken p) = Some token
    ∧ fetchAllPlaylists p token = inr playlists
    ∧ enrich p token (scanned p token playlists) = (tr_e, inr a')
    ∧ tr = [CallGetAccessToken; CallFetchAllPlaylists token]
           ++ map (CallFetchAllPlaylistTracks token) (playlistIds playlists)
           ++ tr_e
    ∧ r = NextResponse_json (SnapshotBody snap) 200
    ∧ snap = buildSnapshot localeCompare (length playlists)
               (JsSet.size (uniqueTrackIds (scanned p token playlists))) a'
    ∧ Forall (λ playlistId, ∃ items,
                fetchAllPlaylistTracks p token playlistId = inr items)
             (playlistIds playlists).
Proof.
  unfold GET, bind, call, ret. simpl.
  destruct (truthy (getAccessToken p)) as [token|]; [|by intros [= <- <-]].
  destruct (fetchAllPlaylists p token) as [e|playlists] eqn:Hpl; [done|].
  destruct (scan p token playlists emptyAgg) as [tr_s [e|a]] eqn:Hs; [done|].
  destruct (scan_inv _ _ _ _ _ _ Hs) as (-> & -> & HF).
  fold (scanned p token playlists).
  destruct (enrich p token (scanned p token playlists))
    as [tr_e [e|a']] eqn:He; [done|].
  intros [= <- <-]. simpl. intros [= <-].
  exists token, playlists, tr_e, a'. split_and!; try done.
  - by rewrite app_nil_r.
  - clear -HF. induction HF; constructor; eauto.
Qed.

Lemma GET_complete p token playlists tr_e a' :
  truthy (getAccessToken p) = Some token →
  fetchAllPlaylists p token = inr playlists →
  Forall (λ playlistId, ∃ items,
            fetchAllPlaylistTracks p token playlistId = inr items)
         (playlistIds playlists) →
  enrich p token (scanned p token playlists) = (tr_e, inr a') →
  GET localeCompare p
  = ([CallGetAccessToken; CallFetchAllPlaylists token]
       ++ map (CallFetchAllPlaylistTracks token) (playlistIds playlists)
       ++ tr_e,
     inr (NextResponse_json (SnapshotBody
                  (buildSnapshot localeCompare (length playlists)
                     (JsSet.size
                        (uniqueTrackIds (scanned p token playlists))) a'))
               200)).
Proof.
  intros Htok Hpl Hall He. unfold GET, bind, call, ret. simpl.
  rewrite Htok, Hpl.
  assert (∀ a, scan p token playlists a
               = (map (CallFetchAllPlaylistTracks token)
                      (playlistIds playlists),
                  inr (fold_left processPlaylist
                         (fetchedItems p token playlists) a))) as Hs.
  { clear Hpl He. unfold fetchedItems, playlistIds in *.
    induction playlists as [|pl rest IH]; intros a; simpl in *; [done|].
    destruct (truthy (pl ≫= pl_id)) as [playlistId|]; [|by apply IH].
    apply Forall_cons in Hall as [[items Hi] Hall]. simpl.
    unfold bind, call. rewrite Hi. by rewrite (IH Hall). }
  rewrite Hs. fold (scanned p token playlists). rewrite He.
  by rewrite app_nil_r.
Qed.

(** *** The views *)

Lemma In_sortedArtists a x :
  x ∈ sortedArtists localeCompare a ↔ x ∈ artistsOfMap (artistMap a).
Proof. unfold sortedArtists. by rewrite Array_sort_perm. Qed.


Lemma In_artistTable P T a row :
  row ∈ artistTable (buildSnapshot localeCompare P T a) →
  ∃ x, x ∈ artistsOfMap (artistMap a) ∧ row = tableRow P T x.
Proof.
  simpl. intros (x & -> & Hx)%list_elem_of_fmap. exists x. split; [|done].
  by apply In_sortedArtists.
Qed.
End Handler.

(** ** The snapshot of a request *)

(** An artist of the list is an accumulator of the table. *)
Lemma In_artistsOfMap m x :
  NoDup (JsMap.keys m) → x ∈ artistsOfMap m →
  songsOf m (ArtistAgg.artistId x) = ArtistAgg.songCount x
  ∧ presenceOf m (ArtistAgg.artistId x) = ArtistAgg.playlistCount x.
Proof.
  intros Hnd ([id r] & -> & Hin)%list_elem_of_fmap. simpl.
  unfold songsOf, presenceOf.
  by rewrite (JsMap_In_get _ _ _ Hnd Hin).
Qed.

Lemma counters_transfer (l l' : list ArtistAgg.t) x :
  map counters l' = map counters l → x ∈ l' →
  ∃ y, y ∈ l ∧ counters y = counters x.
Proof.
  intros Heq Hx.
  assert (counters x ∈ map counters l) as Hc.
  { rewrite <- Heq. apply list_elem_of_fmap. by exists x. }
  apply list_elem_of_fmap in Hc as (y & Hy & Hin). by exists y.
Qed.

Lemma length_omap_le {A B} (f : A → option B) l : length (omap f l) ≤ length l.
Proof.
  induction l as [|x l IH]; [done|].
  rewrite length_omap_cons. destruct (f x); simpl; lia.
Qed.

Lemma fetchedItems_length p token playlists :
  length (fetchedItems p token playlists) ≤ length playlists.
Proof.
  unfold fetchedItems, playlistIds.
  etrans; [apply length_omap_le|apply length_omap_le].
Qed.

Lemma scanned_facts p token playlists :
  let a := scanned p token playlists in
  let itemss := fetchedItems p token playlists in
  WfAgg a
  ∧ (∀ x, x ∈ uniqueTrackIds a ↔ x ∈ trackIdsOf (concat itemss))
  ∧ (∀ x, presenceOf (artistMap a) x = playlistsWith artistIdsOf x itemss)
  ∧ (∀ x, trackPresenceOf (trackPlaylistMap a) x
          = playlistsWith trackIdsOf x itemss)
  ∧ (Forall creditsDistinct itemss → SongsBounded a)
  ∧ (Forall creditsSingle itemss → TotalBounded a).
Proof.
  cbv zeta. unfold scanned.
  destruct (processPlaylists_spec (fetchedItems p token playlists) emptyAgg)
    as (I1 & I2 & I3 & I4 & I5 & I6).
  split_and!.
  - apply I4, WfAgg_empty.
  - intros x. rewrite I1. simpl. set_solver.
  - intros x. by rewrite I2.
  - intros x. by rewrite I3.
  - intros H. apply I5; [done|]. intros x. simpl. unfold songsOf. simpl. lia.
  - intros H. apply I6; [done|]. unfold TotalBounded. simpl. done.
Qed.

Section Snapshots.
Variable localeCompare : string → string → Z.
Variables (p : Provider) (token : string).
Variable playlists : list (option RawPlaylist).
Variables (tr : list Call) (r : Response) (snap : Snapshot).
Hypothesis Htoken : truthy (getAccessToken p) = Some token.
Hypothesis Hplaylists : fetchAllPlaylists p token = inr playlists.
Hypothesis Hget : GET localeCompare p = (tr, inr r).
Hypothesis Hsnap : snapshotOf r = Some snap.

Lemma snapshot_shape :
  ∃ tr_e a',
    enrich p token (scanned p token playlists) = (tr_e, inr a')
    ∧ tr = [CallGetAccessToken; CallFetchAllPlaylists token]
           ++ map (CallFetchAllPlaylistTracks token) (playlistIds playlists)
           ++ tr_e
    ∧ r = NextResponse_json (SnapshotBody snap) 200
    ∧ snap = buildSnapshot localeCompare (length playlists)
               (JsSet.size (uniqueTrackIds (scanned p token playlists))) a'.
Proof.
  destruct (GET_snapshot_inv _ _ _ _ _ Hget Hsnap)
    as (token' & playlists' & tr_e & a' & H1 & H2 & H3 & H4 & H5 & H6 & _).
  rewrite Htoken in H1. injection H1 as <-.
  rewrite Hplaylists in H2. injection H2 as <-.
  by exists tr_e, a'.
Qed.

Lemma snapshot_totals :
  totalPlaylists (totals snap) = length playlists
  ∧ totalUniqueTracks (totals snap)
    = JsSet.size (uniqueTrackIds (scanned p token playlists)).
Proof. destruct snapshot_shape as (tr_e & a' & _ & _ & _ & ->). done. Qed.

Lemma artistTable_counts row :
  row ∈ artistTable snap →
  ArtistRow.artistId row ∈ JsMap.keys (artistMap (scanned p token playlists))
  ∧ ArtistRow.songCount row
    = songsOf (artistMap (scanned p token playlists)) (ArtistRow.artistId row)
  ∧ ArtistRow.playlistCount row
    = presenceOf (artistMap (scanned p token playlists))
                 (ArtistRow.artistId row).
Proof.
  destruct snapshot_shape as (tr_e & a' & He & _ & _ & ->).
  intros (x & Hx & ->)%In_artistTable.
  destruct (enrich_inv _ _ _ _ _ He) as (_ & Hc & _).
  destruct (counters_transfer _ _ _ Hc Hx) as (y & Hy & Hxy).
  destruct (scanned_facts p token playlists) as ([_ Hnd _ _] & _).
  destruct (In_artistsOfMap _ _ Hnd Hy) as [Hs Hp].
  unfold counters in Hxy. injection Hxy as Hid Hname Hsc Hpc. simpl.
  rewrite <- Hid, <- Hsc, <- Hpc. split_and!; try done.
  apply list_elem_of_fmap in Hy as ([id v] & -> & Hin). simpl.
  apply list_elem_of_fmap. by exists (id, v).
Qed.
End Snapshots.

Lemma snapshotFor_inv lc p snap :
  snapshotFor lc p = Some snap →
  ∃ token tr r,
    truthy (getAccessToken p) = Some token
    ∧ fetchAllPlaylists p token = inr (playlistsOf p)
    ∧ GET lc p = (tr, inr r) ∧ snapshotOf r = Some snap
    ∧ libraryOf p = fetchedItems p token (playlistsOf p)
    ∧ scannedOf p = scanned p token (playlistsOf p).
Proof.
  unfold snapshotFor. destruct (GET lc p) as [tr [e|r]] eqn:Hget; [done|].
  intros Hsnap.
  destruct (GET_snapshot_inv _ _ _ _ _ Hget Hsnap)
    as (token & playlists & tr_e & a' & H1 & H2 & _).
  exists token, tr, r. unfold scannedOf, libraryOf, playlistsOf, scanned.
  rewrite H1, H2. by split_and!.
Qed.

(** ** The claims about the scan *)

(** C3. Processing one playlist raises the playlist count of an artist by
    one when the playlist credits the artist and by nothing otherwise, and
    likewise the playlist count of a track: whatever the state before, an
    (artist, playlist) pair and a (track, playlist) pair contribute at most
    one increment, and a playlist that lists every item twice counts as the
    playlist that lists it once. A scan is the fold of this step over the
    fetched playlists ([scan_inv]). *)
Theorem playlist_presence_once (a : Agg) (items : list (option RawItem))
    (id : string) :
  let a' := processPlaylist a items in
  let twice := processPlaylist a (items ++ items) in
  (presenceOf (artistMap a') id
   = presenceOf (artistMap a) id
     + (if bool_decide (id ∈ artistIdsOf items) then 1 else 0)
   ∧ presenceOf (artistMap a') id ≤ presenceOf (artistMap a) id + 1
   ∧ presenceOf (artistMap twice) id = presenceOf (artistMap a') id)
  ∧ (trackPresenceOf (trackPlaylistMap a') id
     = trackPresenceOf (trackPlaylistMap a) id
       + (if bool_decide (id ∈ trackIdsOf items) then 1 else 0)
     ∧ trackPresenceOf (trackPlaylistMap a') id
       ≤ trackPresenceOf (trackPlaylistMap a) id + 1
     ∧ trackPresenceOf (trackPlaylistMap twice) id
       = trackPresenceOf (trackPlaylistMap a') id).
Proof.
  cbv zeta.
  rewrite !processPlaylist_presenceOf, !processPlaylist_trackPresenceOf.
  assert (id ∈ artistIdsOf (items ++ items) ↔ id ∈ artistIdsOf items) as Ha.
  { unfold artistIdsOf. rewrite flat_map_app. set_solver. }
  assert (id ∈ trackIdsOf (items ++ items) ↔ id ∈ trackIdsOf items) as Ht.
  { unfold trackIdsOf. rewrite omap_app. set_solver. }
  rewrite (if_bool_decide_ext _ _ Ha), (if_bool_decide_ext _ _ Ht).
  repeat case_bool_decide; lia.
Qed.

(** What the normalizer keeps: an item that carries a track whose type tag
    is "track" and whose identifier is a non-empty string. *)
Lemma normalize_Some it trackId track :
  normalize it = Some (trackId, track) ↔
  (∃ item, it = Some item ∧ it_track item = Some track)
  ∧ rt_type track = Some "track"
  ∧ rt_id track = Some trackId ∧ trackId ≠ EmptyString.
Proof.
  unfold normalize. split.
  - destruct it as [item|]; [|done].
    destruct (it_track item) as [track'|] eqn:Ht; [|done].
    case_bool_decide as Hty; [|done].
    destruct (rt_id track') as [[|c id]|] eqn:Hid; simpl; try done.
    intros [= <- <-]. split_and!; try done. by exists item.
  - intros ((item & -> & ->) & Hty & Hid & Hne).
    rewrite bool_decide_eq_true_2 by done. rewrite Hid.
    by destruct trackId.
Qed.

(** C4. The snapshot's [totalUniqueTracks] is the number of distinct track
    identifiers among the items of the fetched playlists that the normalizer
    keeps; an item without a track, with another type tag or without an
    identifier is not among them. *)
Theorem totalUniqueTracks_distinct lc p snap :
  snapshotFor lc p = Some snap →
  totalUniqueTracks (totals snap)
  = size (list_to_set (trackIdsOf (concat (libraryOf p))) : gset string).
Proof.
  intros (token & tr & r & H1 & H2 & H3 & H4 & -> & _)%snapshotFor_inv.
  destruct (snapshot_totals lc p token _ tr r snap H1 H2 H3 H4) as [_ ->].
  destruct (scanned_facts p token (playlistsOf p)) as ([Hnd _ _ _] & Hu & _).
  unfold JsSet.size. rewrite <- (size_list_to_set (C:=gset string)) by done.
  f_equal. apply set_eq. intros x. rewrite !elem_of_list_to_set. apply Hu.
Qed.

(** C5, as amended. In every snapshot each artist's [playlistCount] is at
    most [totalPlaylists]; each artist's [songCount] is at most
    [totalUniqueTracks] provided no track credits the same artist identifier
    twice (a credit is counted, not an artist). *)
Theorem counts_bounded lc p snap :
  snapshotFor lc p = Some snap →
  (∀ row, row ∈ artistTable snap →
          ArtistRow.playlistCount row ≤ totalPlaylists (totals snap))
  ∧ (Forall creditsDistinct (libraryOf p) →
     ∀ row, row ∈ artistTable snap →
            ArtistRow.songCount row ≤ totalUniqueTracks (totals snap)).
Proof.
  intros (token & tr & r & H1 & H2 & H3 & H4 & -> & _)%snapshotFor_inv.
  destruct (snapshot_totals lc p token _ tr r snap H1 H2 H3 H4) as [-> ->].
  destruct (scanned_facts p token (playlistsOf p))
    as (_ & _ & Hp & _ & Hs & _).
  split.
  - intros row Hrow.
    destruct (artistTable_counts lc p token _ tr r snap H1 H2 H3 H4 row Hrow)
      as (_ & _ & ->).
    rewrite Hp. etrans; [apply playlistsWith_le|apply fetchedItems_length].
  - intros Hd row Hrow.
    destruct (artistTable_counts lc p token _ tr r snap H1 H2 H3 H4 row Hrow)
      as (_ & -> & _).
    by apply Hs.
Qed.

(** C7. With no playlists the request answers with the totals 0, 0, 0 and
    five empty arrays, after the two calls that precede the loop (the artist
    provider is not called). A percentage over a zero denominator is 0, and
    over a positive one it is [x / denom * 100]; every percentage of every
    snapshot the builder makes is [pct] of its count and its total. *)
Theorem empty_library lc p token :
  truthy (getAccessToken p) = Some token →
  fetchAllPlaylists p token = inr [] →
  GET lc p
  = ([CallGetAccessToken; CallFetchAllPlaylists token],
     inr (NextResponse_json
            (SnapshotBody (mkSnapshot (mkTotals 0 0 0) [] [] [] [] [])) 200))
  ∧ (∀ x, pct x 0 = 0%Q)
  ∧ (∀ x denom, 0 < denom → pct x denom = (ofNat x / ofNat denom * 100)%Q)
  ∧ (∀ P T a,
       let snap := buildSnapshot lc P T a in
       Forall (λ e, TopArtist.percent e = pct (TopArtist.value e) T)
              (topArtistsBySongs snap)
       ∧ Forall (λ e, TopArtist.percent e = pct (TopArtist.value e) P)
                (topArtistsByPlaylists snap)
       ∧ Forall (λ t, TopTrack.percent t = pct (TopTrack.playlistCount t) P)
                (topTracksByPlaylists snap)
       ∧ Forall (λ r, ArtistRow.songPercent r = pct (ArtistRow.songCount r) T
                      ∧ ArtistRow.playlistPercent r
                        = pct (ArtistRow.playlistCount r) P)
                (artistTable snap)).
Proof.
  intros Htok Hpl. split_and!.
  - unfold GET, bind, call, ret. simpl. by rewrite Htok, Hpl.
  - done.
  - intros x denom Hd. unfold pct.
    by rewrite (proj2 (Nat.ltb_lt 0 denom) Hd).
  - intros P T a. cbv zeta. simpl.
    split_and!; apply Forall_forall; by intros ? (x & -> & _)%list_elem_of_fmap.
Qed.

(** C8. Without a token (none, or an empty one) the request answers 401
    with the error "not_authenticated"; the one call made is the request for
    the token, so no fetch provider is called and nothing is retried. *)
Theorem not_authenticated lc p :
  truthy (getAccessToken p) = None →
  GET lc p
  = ([CallGetAccessToken], inr (NextResponse_json (ErrorBody "not_authenticated") 401)).
Proof. apply GET_unauthenticated. Qed.

(** *** Percentages *)

Lemma ofNat_pos n : 0 < n → (0 < ofNat n)%Q.
Proof.
  intros H. unfold ofNat. rewrite <- (Zlt_Qlt 0). lia.
Qed.



Lemma pct_le_100 s T : s ≤ T → (pct s T <= 100)%Q.
Proof.
  intros Hs. unfold pct. destruct (Nat.ltb_spec 0 T) as [H|H]; [|done].
  assert (ofNat s / ofNat T <= 1)%Q as Hle.
  { apply Qle_shift_div_r; [by apply ofNat_pos|].
    rewrite Qmult_1_l. unfold ofNat. rewrite <- Zle_Qle. lia. }
  apply (Qmult_le_compat_r _ _ 100) in Hle; [|done].
  by rewrite Qmult_1_l in Hle.
Qed.









Lemma StronglySorted_weaken {A} (R S : A → A → Prop) l :
  (∀ x y, R x y → S x y) → StronglySorted R l → StronglySorted S l.
Proof.
  intros HRS. induction 1 as [|x l Hl IH Hx]; constructor; [done|].
  eapply Forall_impl; [exact Hx|]. intros y. apply HRS.
Qed.

(** The collation is a total preorder, and it refines the comparison of
    names that ignores case: it may tell apart what that comparison holds
    equal, and never reverses what it tells apart. *)
Section Ranking.
Variable localeCompare : string → string → Z.
Variable baseCompare : string → string → Z.
Hypothesis localeCompare_total :
  ∀ a b, (localeCompare a b <= 0 ∨ localeCompare b a <= 0)%Z.
Hypothesis localeCompare_trans :
  ∀ a b c, (localeCompare a b <= 0 → localeCompare b c <= 0
            → localeCompare a c <= 0)%Z.
Hypothesis localeCompare_refines :
  ∀ a b, (localeCompare a b <= 0 → baseCompare a b <= 0)%Z.

Lemma bySongs_notAfter x y :
  notAfter (bySongs localeCompare) x y ↔
  ArtistAgg.songCount y < ArtistAgg.songCount x
  ∨ (ArtistAgg.songCount x = ArtistAgg.songCount y
     ∧ (localeCompare (ArtistAgg.artistName x) (ArtistAgg.artistName y)
        <= 0)%Z).
Proof.
  unfold notAfter, bySongs, orElse.
  destruct (Z.eqb_spec (Z.of_nat (ArtistAgg.songCount y)
                        - Z.of_nat (ArtistAgg.songCount x)) 0); lia.
Qed.

Lemma bySongs_total x y :
  notAfter (bySongs localeCompare) x y ∨ notAfter (bySongs localeCompare) y x.
Proof.
  rewrite !bySongs_notAfter.
  destruct (localeCompare_total (ArtistAgg.artistName x)
                                (ArtistAgg.artistName y)); lia.
Qed.

Lemma bySongs_trans x y z :
  notAfter (bySongs localeCompare) x y → notAfter (bySongs localeCompare) y z
  → notAfter (bySongs localeCompare) x z.
Proof.
  rewrite !bySongs_notAfter.
  intros [H1|[H1 L1]] [H2|[H2 L2]]; try lia.
  right. split; [lia|]. by eapply localeCompare_trans.
Qed.

End Ranking.

Lemma playlistIds_cons pl rest :
  playlistIds (pl :: rest) =
  match truthy (pl ≫= pl_id) with
  | Some id => id :: playlistIds rest
  | None => playlistIds rest
  end.
Proof. done. Qed.

Lemma playlistIds_filter playlists :
  playlistIds (filter hasId playlists) = playlistIds playlists.
Proof.
  induction playlists as [|pl rest IH]; [done|].
  rewrite filter_cons. destruct (decide (hasId pl)) as [H|H].
  - by rewrite !playlistIds_cons, IH.
  - rewrite playlistIds_cons, IH.
    destruct (truthy (pl ≫= pl_id)) eqn:E; [|done].
    destruct H. unfold hasId. by rewrite E.
Qed.

Lemma trackFetches_app tr1 tr2 :
  trackFetches (tr1 ++ tr2) = trackFetches tr1 ++ trackFetches tr2.
Proof. apply omap_app. Qed.

Lemma trackFetches_map token ids :
  trackFetches (map (CallFetchAllPlaylistTracks token) ids) = ids.
Proof. induction ids as [|id ids IH]; simpl; [done|]. by rewrite IH. Qed.

Lemma trackCounters_fillImages images a :
  map trackCounters (tracksOfMap (trackPlaylistMap (fillImages images a)))
  = map trackCounters (tracksOfMap (trackPlaylistMap a)).
Proof.
  unfold tracksOfMap, JsMap.entries, fillImages. simpl.
  rewrite !map_map. apply map_ext. intros [id r]. simpl.
  by destruct (truthy (TrackRec.mainArtistId r)).
Qed.

Lemma enrich_trackCounters p token a tr a' :
  enrich p token a = (tr, inr a') →
  map trackCounters (tracksOfMap (trackPlaylistMap a'))
  = map trackCounters (tracksOfMap (trackPlaylistMap a)).
Proof.
  unfold enrich. destruct (0 <? _).
  - unfold bind, call, ret.
    destruct (fetchArtistsByIds p token _) as [e|objs]; [done|].
    intros [= <- <-]. apply trackCounters_fillImages.
  - by intros [= <- <-].
Qed.

Lemma In_tracksOfMap m t :
  NoDup (JsMap.keys m) → t ∈ tracksOfMap m →
  trackPresenceOf m (TrackPlaylistAgg.trackId t)
  = TrackPlaylistAgg.playlistCount t.
Proof.
  intros Hnd ([id r] & -> & Hin)%list_elem_of_fmap. simpl.
  unfold trackPresenceOf. by rewrite (JsMap_In_get _ _ _ Hnd Hin).
Qed.

(** C10. Every playlist object the provider lists is counted in
    [totalPlaylists], which is the denominator of every playlist percentage.
    The items of a playlist without identifier are not fetched, the playlist
    counts are counts over the fetched playlists, and listing only the
    playlists that have an identifier gives the same calls and the same
    snapshot but for [totalPlaylists] and the percentages over it. *)
Theorem idless_playlists_counted lc p tr r snap :
  GET lc p = (tr, inr r) → snapshotOf r = Some snap →
  totalPlaylists (totals snap) = length (playlistsOf p)
  ∧ trackFetches tr = playlistIds (playlistsOf p)
  ∧ (∀ e, e ∈ topArtistsByPlaylists snap →
          TopArtist.percent e
          = pct (TopArtist.value e) (length (playlistsOf p)))
  ∧ (∀ t, t ∈ topTracksByPlaylists snap →
          TopTrack.percent t
          = pct (TopTrack.playlistCount t) (length (playlistsOf p))
          ∧ TopTrack.playlistCount t
            = playlistsWith trackIdsOf (TopTrack.trackId t) (libraryOf p))
  ∧ (∀ row, row ∈ artistTable snap →
            ArtistRow.playlistPercent row
            = pct (ArtistRow.playlistCount row) (length (playlistsOf p))
            ∧ ArtistRow.playlistCount row
              = playlistsWith artistIdsOf (ArtistRow.artistId row)
                              (libraryOf p))
  ∧ ∃ T a',
      snap = buildSnapshot lc (length (playlistsOf p)) T a'
      ∧ GET lc (withPlaylists p (filter hasId (playlistsOf p)))
        = (tr, inr (NextResponse_json (SnapshotBody
                            (buildSnapshot lc
                               (length (filter hasId (playlistsOf p))) T a'))
                         200)).
Proof.
  intros Hget Hsnap.
  destruct (GET_snapshot_inv _ _ _ _ _ Hget Hsnap)
    as (token & playlists & tr_e & a' & H1 & H2 & He & Htr & Hr & Hs & HF).
  assert (playlistsOf p = playlists) as Hpl.
  { unfold playlistsOf. by rewrite H1, H2. }
  assert (libraryOf p = fetchedItems p token playlists) as Hlib.
  { unfold libraryOf. by rewrite H1, Hpl. }
  rewrite Hpl, Hlib. clear Hpl Hlib.
  destruct (scanned_facts p token playlists)
    as ([_ _ Hnd _] & _ & Hp & Htp & _).
  split_and!.
  - by rewrite Hs.
  - rewrite Htr. simpl. rewrite trackFetches_app, trackFetches_map.
    destruct (enrich_inv _ _ _ _ _ He) as (_ & _ & [->| ->]); simpl;
      by rewrite app_nil_r.
  - rewrite Hs. simpl. by intros e (x & -> & _)%list_elem_of_fmap.
  - rewrite Hs. simpl. intros t (x & -> & Hx)%list_elem_of_fmap.
    split; [done|]. simpl.
    unfold slice5 in Hx. apply (subseteq_take 5) in Hx.
    rewrite Array_sort_perm in Hx.
    assert (trackCounters x
            ∈ map trackCounters
                  (tracksOfMap (trackPlaylistMap (scanned p token playlists))))
      as Hc.
    { rewrite <- (enrich_trackCounters _ _ _ _ _ He).
      apply list_elem_of_fmap. by exists x. }
    apply list_elem_of_fmap in Hc as (y & Hy & Hin).
    unfold trackCounters in Hy. injection Hy as -> ->.
    by rewrite <- (In_tracksOfMap _ _ Hnd Hin), Htp.
  - intros row Hrow. split.
    + rewrite Hs in Hrow. simpl in Hrow.
      by apply list_elem_of_fmap in Hrow as (x & -> & _).
    + destruct (artistTable_counts lc p token _ tr r snap H1 H2 Hget Hsnap
                  row Hrow) as (_ & _ & ->).
      apply Hp.
  - exists (JsSet.size (uniqueTrackIds (scanned p token playlists))), a'.
    split; [done|].
    assert (scanned (withPlaylists p (filter hasId playlists)) token
                    (filter hasId playlists)
            = scanned p token playlists) as Hsc.
    { unfold scanned, fetchedItems. by rewrite playlistIds_filter. }
    rewrite (GET_complete lc (withPlaylists p (filter hasId playlists))
               token (filter hasId playlists) tr_e a'); try done.
    + rewrite Hsc, playlistIds_filter, Htr. done.
    + by rewrite playlistIds_filter.
    + by rewrite Hsc.
Qed.

(** ** The claims about the progress file *)

Lemma missing_field_rejected x name :
  name ∈ requiredFields → prop name x = None → isProgressFileV1 x = false.
Proof.
  unfold requiredFields, isProgressFileV1. intros Hin Hnone.
  repeat (apply elem_of_cons in Hin as [->|Hin]);
    [..|by apply elem_of_nil in Hin]; rewrite Hnone;
    by rewrite ?andb_false_r.
Qed.

Lemma wrong_version_rejected x v :
  prop "version" x = Some (JNum v) → ¬ (v == 1)%Q →
  isProgressFileV1 x = false.
Proof.
  unfold isProgressFileV1. intros -> Hv.
  destruct (Qeq_bool v 1) eqn:E; [by apply Qeq_bool_iff in E|].
  by rewrite andb_false_r.
Qed.

Section Progress.
Variable JSON_stringify : json → nat → string.
Variable JSON_parse : string → string + json.
Variable Number_coerce : json → option Q.

(** C2, as amended. A progress file that parses but fails the structural
    validation is rejected before any state is replaced: the snapshot data,
    the decisions, the deck index, the insight page and the local storage
    are what they were. The view mode is not left alone: the handler's
    [catch] block sets it to the start screen, and records the error. *)
Theorem malformed_import_rejected s text parsed :
  JSON_parse text = inr parsed → isProgressFileV1 parsed = false →
  let s' := onResumeFileSelected JSON_stringify JSON_parse Number_coerce
              (Some text) s in
  Page.data s' = Page.data s
  ∧ Page.decisions s' = Page.decisions s
  ∧ Page.deckIndex s' = Page.deckIndex s
  ∧ Page.insightPage s' = Page.insightPage s
  ∧ Page.localStorage s' = Page.localStorage s
  ∧ Page.mode s' = ModeStart
  ∧ Page.error s' = Some "Invalid progress file.".
Proof.
  intros Hparse Hbad. cbv zeta. unfold onResumeFileSelected.
  rewrite Hparse, Hbad. simpl. by split_and!.
Qed.

End Progress.

(** ** The scenarios of the specification *)

Example scenario_two_items :
  ∃ snap,
    snapshotFor Ref.localeCompare duetLibrary = Some snap
    ∧ totals snap = mkTotals 1 2 2
    ∧ map (λ r, (ArtistRow.artistId r, ArtistRow.songCount r,
                 ArtistRow.playlistCount r)) (artistTable snap)
      = [("A1", 2, 1); ("A2", 1, 1)].
Proof. eexists. split; [reflexivity|]. by split. Qed.

Example scenario_shared_track :
  ∃ snap,
    snapshotFor Ref.localeCompare sharedTrackLibrary = Some snap
    ∧ totalUniqueTracks (totals snap) = 1
    ∧ map (λ t, (TopTrack.trackId t, TopTrack.playlistCount t))
          (topTracksByPlaylists snap) = [("T1", 2)]
    ∧ map (λ r, (ArtistRow.artistId r, ArtistRow.playlistCount r))
          (artistTable snap) = [("A1", 2)].
Proof. eexists. split; [reflexivity|]. by split_and!. Qed.

Example scenario_local_file :
  ∃ snap,
    snapshotFor Ref.localeCompare
      (libraryProvider (Some "token") [(Some "P1", [localFile "Tape"])])
    = Some snap
    ∧ snap = mkSnapshot (mkTotals 1 0 0) [] [] [] [] [].
Proof. eexists. split; reflexivity. Qed.

Example scenario_tie :
  ∃ snap,
    snapshotFor Ref.localeCompare tieLibrary = Some snap
    ∧ map TopArtist.artistName (topArtistsBySongs snap) = ["ann"; "Bob"]
    ∧ map ArtistDeckItem.artistName (artists snap) = ["ann"; "Bob"].
Proof. eexists. split; [reflexivity|]. by split. Qed.

(** ** The claims at concrete inputs *)



Lemma totalUniqueTracks_distinct_witness :
  ∃ snap,
    snapshotFor Ref.localeCompare mixedLibrary = Some snap
    ∧ totalUniqueTracks (totals snap)
      = size (list_to_set (trackIdsOf (concat (libraryOf mixedLibrary)))
              : gset string)
    ∧ totalUniqueTracks (totals snap) = 2.
Proof.
  eexists. split; [reflexivity|]. split; [|reflexivity].
  apply (totalUniqueTracks_distinct Ref.localeCompare mixedLibrary).
  reflexivity.
Defined.

Lemma counts_bounded_counterexample :
  ∃ snap,
    snapshotFor Ref.localeCompare doubleCreditLibrary = Some snap
    ∧ totalUniqueTracks (totals snap) = 1
    ∧ map ArtistRow.songCount (artistTable snap) = [2].
Proof. eexists. split; [reflexivity|]. by split. Qed.

Lemma counts_bounded_witness :
  ∃ snap,
    snapshotFor Ref.localeCompare duetLibrary = Some snap
    ∧ Forall (λ row, ArtistRow.playlistCount row ≤ totalPlaylists (totals snap)
                     ∧ ArtistRow.songCount row
                       ≤ totalUniqueTracks (totals snap))
             (artistTable snap).
Proof.
  eexists. split; [reflexivity|].
  destruct (counts_bounded Ref.localeCompare duetLibrary _ eq_refl)
    as [Hplaylists Hsongs].
  apply Forall_forall. intros row Hrow. split.
  - by apply Hplaylists.
  - apply Hsongs; [compute_done|done].
Defined.


Lemma empty_library_witness :
  GET Ref.localeCompare emptyLibrary
  = ([CallGetAccessToken; CallFetchAllPlaylists "token"],
     inr (NextResponse_json (SnapshotBody emptySnapshot) 200)).
Proof.
  apply (empty_library Ref.localeCompare emptyLibrary "token"); reflexivity.
Defined.

Lemma not_authenticated_witness :
  GET Ref.localeCompare signedOut
  = ([CallGetAccessToken],
     inr (NextResponse_json (ErrorBody "not_authenticated") 401)).
Proof. apply (not_authenticated Ref.localeCompare signedOut). reflexivity. Defined.

Lemma idless_playlists_counted_witness :
  ∃ tr r snap,
    GET Ref.localeCompare mixedLibrary = (tr, inr r)
    ∧ snapshotOf r = Some snap
    ∧ length (playlistsOf mixedLibrary) = 3
    ∧ totalPlaylists (totals snap) = length (playlistsOf mixedLibrary)
    ∧ trackFetches tr = playlistIds (playlistsOf mixedLibrary)
    ∧ trackFetches tr = ["P1"; "P2"].
Proof.
  eexists _, _, _. split; [reflexivity|]. split; [reflexivity|].
  split; [reflexivity|].
  destruct (idless_playlists_counted Ref.localeCompare mixedLibrary _ _ _
              eq_refl eq_refl) as (H1 & H2 & _).
  by split_and!.
Defined.

Lemma malformed_import_counterexample :
  let s := reviewingPage in
  let s' := onResumeFileSelected Ref.JSON_stringify Ref.JSON_parse
              Ref.Number_coerce (Some wrongVersionFile) s in
  (∃ parsed, Ref.JSON_parse wrongVersionFile = inr parsed
             ∧ isProgressFileV1 parsed = false
             ∧ prop "version" parsed = Some (JNum 2))
  ∧ Page.data s' = Page.data s
  ∧ Page.mode s = ModeDeck
  ∧ Page.mode s' = ModeStart.
Proof.
  cbv zeta. split; [|by vm_compute].
  eexists. split; [vm_compute; reflexivity|]. by vm_compute.
Qed.

Lemma malformed_import_rejected_witness :
  let s := reviewingPage in
  let s' := onResumeFileSelected Ref.JSON_stringify Ref.JSON_parse
              Ref.Number_coerce (Some wrongVersionFile) s in
  Page.data s' = Page.data s
  ∧ Page.decisions s' = Page.decisions s
  ∧ Page.deckIndex s' = Page.deckIndex s
  ∧ Page.insightPage s' = Page.insightPage s
  ∧ Page.localStorage s' = Page.localStorage s
  ∧ Page.mode s' = ModeStart
  ∧ Page.error s' = Some "Invalid progress file.".
Proof.
  eapply (malformed_import_rejected Ref.JSON_stringify Ref.JSON_parse
            Ref.Number_coerce reviewingPage wrongVersionFile).
  - vm_compute. reflexivity.
  - vm_compute. reflexivity.
Defined.


(** * Further properties of the code *)

(** ** The scan: failures *)

Lemma scan_trace p token playlists : ∀ a tr r,
  scan p token playlists a = (tr, r) →
  match r with
  | inr _ => Forall (answers p) tr
  | inl e => ∃ pre c, tr = pre ++ [c] ∧ Forall (answers p) pre ∧ failsWith p c e
  end.
Proof.
  induction playlists as [|pl rest IH]; intros a tr r; simpl.
  - intros [= <- <-]. constructor.
  - destruct (truthy (pl ≫= pl_id)) as [playlistId|]; [|apply IH].
    unfold bind, call.
    destruct (fetchAllPlaylistTracks p token playlistId) as [e|items] eqn:Hf.
    + intros [= <- <-].
      exists [], (CallFetchAllPlaylistTracks token playlistId).
      by split_and!.
    + destruct (scan p token rest (processPlaylist a items)) as [tr' r'] eqn:Hs.
      intros [= <- <-]. specialize (IH _ _ _ Hs).
      assert (answers p (CallFetchAllPlaylistTracks token playlistId)) as Hans.
      { simpl. by rewrite Hf. }
      destruct r' as [e|a'].
      * destruct IH as (pre & c & -> & Hpre & Hc).
        exists (CallFetchAllPlaylistTracks token playlistId :: pre), c.
        split_and!; [done|by constructor|done].
      * by constructor.
Qed.

Lemma enrich_trace p token a tr r :
  enrich p token a = (tr, r) →
  match r with
  | inr _ => Forall (answers p) tr
  | inl e => ∃ c, tr = [c] ∧ failsWith p c e
  end.
Proof.
  unfold enrich. destruct (0 <? _).
  - unfold bind, call, ret.
    destruct (fetchArtistsByIds p token _) as [e|objs] eqn:Hf.
    + intros [= <- <-]. by eexists.
    + intros [= <- <-]. repeat constructor. simpl. by rewrite Hf.
  - intros [= <- <-]. constructor.
Qed.

(** X1. A request that throws was made to throw by the last provider call
    it made: that call answered with the error the request throws, every
    call before it had returned, and no call is made after it. No response
    (and so no partial snapshot) is produced. *)
Theorem provider_failure_aborts lc p tr e :
  GET lc p = (tr, inl e) →
  ∃ pre c, tr = pre ++ [c] ∧ Forall (answers p) pre ∧ failsWith p c e.
Proof.
  unfold GET, bind, call, ret. simpl.
  destruct (truthy (getAccessToken p)) as [token|]; [|done].
  destruct (fetchAllPlaylists p token) as [e'|playlists] eqn:Hpl.
  { intros [= <- <-].
    exists [CallGetAccessToken], (CallFetchAllPlaylists token).
    split_and!; [done|by repeat constructor|done]. }
  assert (Forall (answers p) [CallGetAccessToken; CallFetchAllPlaylists token])
    as Hhead.
  { repeat constructor. simpl. by rewrite Hpl. }
  destruct (scan p token playlists emptyAgg) as [tr_s [e'|a]] eqn:Hs.
  { intros [= <- <-]. apply scan_trace in Hs as (pre & c & -> & Hpre & Hc).
    exists ([CallGetAccessToken; CallFetchAllPlaylists token] ++ pre), c.
    split_and!; [done| |done]. by apply Forall_app. }
  pose proof (scan_trace _ _ _ _ _ _ Hs) as Hscan. simpl in Hscan.
  destruct (enrich p token a) as [tr_e [e'|a']] eqn:He; [|done].
  intros [= <- <-]. apply enrich_trace in He as (c & -> & Hc).
  exists ([CallGetAccessToken; CallFetchAllPlaylists token] ++ tr_s), c.
  split_and!; [|by apply Forall_app|done].
  done.
Qed.

(** ** The scan: first occurrences *)

Lemma option_union_assoc {A} (a b c : option A) : a ∪ (b ∪ c) = (a ∪ b) ∪ c.
Proof. by destruct a, b, c. Qed.

Lemma option_union_twice {A} (a b : option A) : (a ∪ b) ∪ b = a ∪ b.
Proof. by destruct a, b. Qed.

Lemma nameOf_countSong m a x :
  nameOf (countSong m a) x = nameOf m x ∪ nameIf a x.
Proof.
  unfold nameOf, nameIf. rewrite get_countSong. unfold creditId.
  destruct (credit a) as [[id nm]|]; simpl.
  - repeat case_bool_decide; simplify_eq; by destruct (JsMap.get x m).
  - by destruct (JsMap.get x m).
Qed.

Lemma nameOf_notePresence s m a x :
  nameOf (notePresence (s, m) a).2 x = nameOf m x ∪ nameIf a x.
Proof.
  unfold nameOf, nameIf. rewrite get_notePresence. unfold creditId.
  destruct (credit a) as [[id nm]|]; simpl.
  - repeat case_bool_decide; simplify_eq; by destruct (JsMap.get x m).
  - by destruct (JsMap.get x m).
Qed.

Lemma firstNameOf_cons x c cs :
  firstNameOf x (c :: cs) =
  (if bool_decide (c.1 = x) then Some c.2 else None) ∪ firstNameOf x cs.
Proof.
  unfold firstNameOf. rewrite filter_cons.
  destruct (decide (c.1 = x)) as [H|H].
  - rewrite bool_decide_eq_true_2 by done. simpl.
    by destruct (head (filter _ cs)).
  - rewrite bool_decide_eq_false_2 by done.
    by destruct (head (filter _ cs)).
Qed.

Lemma firstNameOf_app x cs cs' :
  firstNameOf x (cs ++ cs') = firstNameOf x cs ∪ firstNameOf x cs'.
Proof.
  induction cs as [|c cs IH]; simpl.
  - by destruct (firstNameOf x cs').
  - by rewrite !firstNameOf_cons, IH, option_union_assoc.
Qed.

Lemma firstNameOf_omap_cons x a l :
  firstNameOf x (omap credit (a :: l))
  = nameIf a x ∪ firstNameOf x (omap credit l).
Proof.
  unfold nameIf. simpl. destruct (credit a) as [c|]; simpl.
  - apply firstNameOf_cons.
  - by destruct (firstNameOf x _).
Qed.

Lemma nameOf_countSongs l : ∀ m x,
  nameOf (fold_left countSong l m) x
  = nameOf m x ∪ firstNameOf x (omap credit l).
Proof.
  induction l as [|a l IH]; intros m x.
  - simpl. by destruct (nameOf m x).
  - cbn [fold_left]. rewrite IH, nameOf_countSong, firstNameOf_omap_cons.
    by rewrite option_union_assoc.
Qed.

Lemma nameOf_notePresences l : ∀ s m x,
  nameOf (fold_left notePresence l (s, m)).2 x
  = nameOf m x ∪ firstNameOf x (omap credit l).
Proof.
  induction l as [|a l IH]; intros s m x.
  - simpl. by destruct (nameOf m x).
  - cbn [fold_left]. destruct (notePresence (s, m) a) as [s1 m1] eqn:E.
    rewrite IH. replace m1 with (notePresence (s, m) a).2 by by rewrite E.
    rewrite nameOf_notePresence, firstNameOf_omap_cons.
    by rewrite option_union_assoc.
Qed.

Lemma nameOf_bumpArtist m k x : nameOf (bumpArtist m k) x = nameOf m x.
Proof.
  unfold nameOf, bumpArtist. rewrite JsMap_get_update.
  case_bool_decide; subst; [|done]. by destruct (JsMap.get k m).
Qed.

Lemma nameOf_bumpArtists ids : ∀ m x,
  nameOf (fold_left bumpArtist ids m) x = nameOf m x.
Proof.
  induction ids as [|k ids IH]; intros m x; [done|].
  cbn [fold_left]. by rewrite IH, nameOf_bumpArtist.
Qed.

Lemma songsOf_bumpArtists ids : ∀ m x,
  songsOf (fold_left bumpArtist ids m) x = songsOf m x.
Proof.
  induction ids as [|k ids IH]; intros m x; [done|].
  cbn [fold_left]. by rewrite IH, songsOf_bumpArtist.
Qed.

Lemma JsMap_set_absent {V} k (v : V) m :
  JsMap.get k m = None → JsMap.set k v m = m ++ [(k, v)].
Proof.
  induction m as [|[k0 v0] m IH]; simpl; [done|].
  destruct (String.eqb k k0); [done|]. intros H. by rewrite IH.
Qed.

Lemma JsMap_map_set {V W} (g : string * V → W) k v v0 (m : JsMap.t V) :
  JsMap.get k m = Some v0 → g (k, v) = g (k, v0) →
  map g (JsMap.set k v m) = map g m.
Proof.
  intros Hget Hg. induction m as [|[k0 v1] m IH]; simpl in *; [done|].
  destruct (String.eqb_spec k k0) as [->|Hne]; simpl.
  - injection Hget as ->. by rewrite Hg.
  - by rewrite IH.
Qed.

Lemma trackEntries_bumpTrack m k :
  map (λ e, (e.1, trackMeta e.2)) (bumpTrack m k)
  = map (λ e : string * TrackRec.t, (e.1, trackMeta e.2)) m.
Proof.
  unfold bumpTrack, JsMap.update.
  destruct (JsMap.get k m) as [v|] eqn:E; [|done].
  by apply (JsMap_map_set _ _ _ v).
Qed.

Lemma trackEntries_bumpTracks ids : ∀ m,
  map (λ e, (e.1, trackMeta e.2)) (fold_left bumpTrack ids m)
  = map (λ e : string * TrackRec.t, (e.1, trackMeta e.2)) m.
Proof.
  induction ids as [|k ids IH]; intros m; [done|].
  cbn [fold_left]. by rewrite IH, trackEntries_bumpTrack.
Qed.

Lemma firstTracks_snoc processed it :
  firstTracks (processed ++ [it]) = noteFirst (firstTracks processed) it.
Proof. unfold firstTracks. by rewrite fold_left_app. Qed.

Lemma creditPairsOf_app l l' :
  creditPairsOf (l ++ l') = creditPairsOf l ++ creditPairsOf l'.
Proof. unfold creditPairsOf. by rewrite flat_map_app. Qed.

Lemma ScanInv_empty : ScanInv emptyAgg [].
Proof. by split. Qed.

Lemma keys_of_entries {V W} (f : V → W) (m : JsMap.t V) (m' : JsMap.t W) :
  map (λ e, (e.1, f e.2)) m = m' → JsMap.keys m = JsMap.keys m'.
Proof. intros <-. unfold JsMap.keys. rewrite map_map. done. Qed.

Lemma ScanInv_item st processed it :
  ScanInv (agg st) processed →
  ScanInv (agg (processItem st it)) (processed ++ [it]).
Proof.
  intros [Hu Ht Hs Hn].
  assert (JsMap.keys (trackPlaylistMap (agg st))
          = JsMap.keys (firstTracks processed)) as Hk.
  { unfold JsMap.keys.
    replace (map fst (trackPlaylistMap (agg st)))
      with (map fst (map (λ e : string * TrackRec.t, (e.1, trackMeta e.2))
                         (trackPlaylistMap (agg st)))) by by rewrite map_map.
    rewrite Ht. by rewrite map_map. }
  destruct (normalize it) as [[trackId track]|] eqn:Hkeep.
  2:{ rewrite (processItem_skip _ _ Hkeep).
      split; rewrite ?firstTracks_snoc; unfold songCredits;
        rewrite ?firstTracks_snoc; unfold noteFirst; rewrite ?Hkeep; try done.
      intros x. rewrite creditPairsOf_app, firstNameOf_app, Hn.
      unfold creditPairsOf. simpl. rewrite Hkeep. simpl.
      by destruct (firstNameOf x _). }
  assert (JsMap.has trackId (firstTracks processed)
          = JsSet.has trackId (uniqueTrackIds (agg st))) as Hhas.
  { rewrite JsMap_has_keys, Hu. done. }
  assert (JsMap.has trackId (trackPlaylistMap (agg st))
          = JsMap.has trackId (firstTracks processed)) as Hhas'.
  { by rewrite !JsMap_has_keys, Hk. }
  split.
  - rewrite (processItem_unique _ _ _ _ Hkeep), firstTracks_snoc.
    unfold noteFirst. rewrite Hkeep, Hhas, Hu. unfold JsSet.add.
    rewrite <- Hu. destruct (JsSet.has _ _); [done|].
    unfold JsMap.keys. rewrite map_app. simpl. by rewrite Hu.
  - rewrite (processItem_keep _ _ _ _ Hkeep). cbv zeta. simpl.
    rewrite firstTracks_snoc. unfold noteFirst. rewrite Hkeep, Hhas'.
    unfold JsMap.has.
    destruct (JsMap.get trackId (firstTracks processed)) eqn:E;
      [done|].
    rewrite JsMap_set_absent.
    + rewrite !map_app, Ht. done.
    + apply JsMap_get_None. rewrite Hk. by apply JsMap_get_None.
  - intros x. rewrite (processItem_songsOf _ _ _ _ Hkeep), Hs.
    unfold songCredits. rewrite firstTracks_snoc. unfold noteFirst.
    rewrite Hkeep, Hhas. destruct (JsSet.has _ _); [lia|].
    rewrite flat_map_app, count_occ_app. simpl. rewrite app_nil_r. done.
  - intros x. rewrite (processItem_keep _ _ _ _ Hkeep). cbv zeta. simpl.
    rewrite nameOf_notePresences.
    rewrite creditPairsOf_app, firstNameOf_app, <- Hn.
    unfold creditPairsOf at 1. simpl. rewrite Hkeep, app_nil_r.
    destruct (JsSet.has _ _); [done|].
    by rewrite nameOf_countSongs, option_union_twice.
Qed.

Lemma ScanInv_items items : ∀ st processed,
  ScanInv (agg st) processed →
  ScanInv (agg (fold_left processItem items st)) (processed ++ items).
Proof.
  induction items as [|it items IH]; intros st processed H.
  - by rewrite app_nil_r.
  - cbn [fold_left]. replace (processed ++ it :: items)
      with ((processed ++ [it]) ++ items) by by rewrite <- app_assoc.
    by apply IH, ScanInv_item.
Qed.

Lemma ScanInv_playlist a processed items :
  ScanInv a processed → ScanInv (processPlaylist a items) (processed ++ items).
Proof.
  intros H.
  destruct (ScanInv_items items (mkLoop a JsSet.empty JsSet.empty) processed H)
    as [Hu Ht Hs Hn].
  unfold processPlaylist. split; simpl.
  - done.
  - by rewrite trackEntries_bumpTracks.
  - intros x. by rewrite songsOf_bumpArtists.
  - intros x. by rewrite nameOf_bumpArtists.
Qed.

Lemma ScanInv_playlists itemss : ∀ a processed,
  ScanInv a processed →
  ScanInv (fold_left processPlaylist itemss a) (processed ++ concat itemss).
Proof.
  induction itemss as [|items itemss IH]; intros a processed H.
  - simpl. by rewrite app_nil_r.
  - cbn [fold_left concat]. rewrite app_assoc. by apply IH, ScanInv_playlist.
Qed.

Lemma ScanInv_scanned p token playlists :
  ScanInv (scanned p token playlists) (concat (fetchedItems p token playlists)).
Proof. apply (ScanInv_playlists _ emptyAgg []), ScanInv_empty. Qed.

Lemma In_artistsOfMap_name m x :
  NoDup (JsMap.keys m) → x ∈ artistsOfMap m →
  nameOf m (ArtistAgg.artistId x) = Some (ArtistAgg.artistName x).
Proof.
  intros Hnd ([id r] & -> & Hin)%list_elem_of_fmap. simpl.
  unfold nameOf. by rewrite (JsMap_In_get _ _ _ Hnd Hin).
Qed.

Lemma artistTable_names lc p token playlists tr r snap row :
  truthy (getAccessToken p) = Some token →
  fetchAllPlaylists p token = inr playlists →
  GET lc p = (tr, inr r) → snapshotOf r = Some snap →
  row ∈ artistTable snap →
  nameOf (artistMap (scanned p token playlists)) (ArtistRow.artistId row)
  = Some (ArtistRow.artistName row).
Proof.
  intros H1 H2 H3 H4.
  destruct (snapshot_shape lc p token _ tr r snap H1 H2 H3 H4)
    as (tr_e & a' & He & _ & _ & ->).
  intros (x & Hx & ->)%In_artistTable.
  destruct (enrich_inv _ _ _ _ _ He) as (_ & Hc & _).
  destruct (counters_transfer _ _ _ Hc Hx) as (y & Hy & Hxy).
  destruct (scanned_facts p token playlists) as ([_ Hnd _ _] & _).
  pose proof (In_artistsOfMap_name _ _ Hnd Hy) as Hn.
  unfold counters in Hxy. injection Hxy as Hid Hname _ _. simpl.
  by rewrite <- Hid, <- Hname.
Qed.

(** X4. The display name of an artist is the name of the first credit
    that carries the artist's identifier, in the order of the scan; a
    later credit with another name does not change it. *)
Theorem artist_name_first_credit lc p snap :
  snapshotFor lc p = Some snap →
  ∀ row, row ∈ artistTable snap →
    firstNameOf (ArtistRow.artistId row)
                (creditPairsOf (concat (libraryOf p)))
    = Some (ArtistRow.artistName row).
Proof.
  intros (token & tr & r & H1 & H2 & H3 & H4 & -> & _)%snapshotFor_inv row Hrow.
  rewrite <- (artistTable_names lc p token _ tr r snap row H1 H2 H3 H4 Hrow).
  symmetry. apply ScanInv_scanned.
Qed.


(** X3. A track counts once, where it is first met: [totalUniqueTracks]
    is the number of first occurrences, and an artist's [songCount] is the
    number of credits the artist has on them. A later occurrence of the
    same track identifier adds no song, whatever artists it lists. *)
Theorem songCount_first_occurrences lc p snap :
  snapshotFor lc p = Some snap →
  totalUniqueTracks (totals snap)
  = length (firstTracks (concat (libraryOf p)))
  ∧ ∀ row, row ∈ artistTable snap →
      ArtistRow.songCount row
      = count_occ string_dec (songCredits (concat (libraryOf p)))
                  (ArtistRow.artistId row).
Proof.
  intros (token & tr & r & H1 & H2 & H3 & H4 & -> & _)%snapshotFor_inv.
  destruct (ScanInv_scanned p token (playlistsOf p)) as [Hu _ Hs _].
  split.
  - destruct (snapshot_totals lc p token _ tr r snap H1 H2 H3 H4) as [_ ->].
    unfold JsSet.size. rewrite Hu. unfold JsMap.keys. by rewrite length_map.
  - intros row Hrow.
    destruct (artistTable_counts lc p token _ tr r snap H1 H2 H3 H4 row Hrow)
      as (_ & -> & _).
    apply Hs.
Qed.

Lemma trackEntries_fillImages images a :
  map (λ e, (e.1, trackMeta e.2)) (trackPlaylistMap (fillImages images a))
  = map (λ e : string * TrackRec.t, (e.1, trackMeta e.2)) (trackPlaylistMap a).
Proof.
  unfold fillImages. simpl. rewrite map_map. apply map_ext. intros [id r].
  simpl. by destruct (truthy (TrackRec.mainArtistId r)).
Qed.

Lemma enrich_trackEntries p token a tr a' :
  enrich p token a = (tr, inr a') →
  map (λ e, (e.1, trackMeta e.2)) (trackPlaylistMap a')
  = map (λ e : string * TrackRec.t, (e.1, trackMeta e.2)) (trackPlaylistMap a).
Proof.
  unfold enrich. destruct (0 <? _).
  - unfold bind, call, ret.
    destruct (fetchArtistsByIds p token _) as [e|objs]; [done|].
    intros [= <- <-]. apply trackEntries_fillImages.
  - by intros [= <- <-].
Qed.

Lemma In_topTracksByPlaylists lc P T a t :
  t ∈ topTracksByPlaylists (buildSnapshot lc P T a) →
  ∃ x, x ∈ tracksOfMap (trackPlaylistMap a) ∧ t = topTrack P x.
Proof.
  simpl. intros (x & -> & Hx)%list_elem_of_fmap. exists x. split; [|done].
  unfold slice5 in Hx. apply (subseteq_take 5) in Hx.
  by rewrite Array_sort_perm in Hx.
Qed.


Lemma firstNameOf_is_Some x cs :
  is_Some (firstNameOf x cs) ↔ x ∈ map fst cs.
Proof.
  induction cs as [|c cs IH]; simpl.
  - split; [by intros [? ?]|by intros ?%elem_of_nil].
  - rewrite firstNameOf_cons, elem_of_cons, <- IH.
    case_bool_decide as Hc.
    + split; [by left|]. intros _. by destruct (firstNameOf x cs).
    + split.
      * intros H. right. by destruct (firstNameOf x cs).
      * intros [->|H]; [done|]. by destruct (firstNameOf x cs).
Qed.

Lemma map_fst_omap_credit l : map fst (omap credit l) = omap creditId l.
Proof.
  induction l as [|a l IH]; [done|].
  change (omap credit (a :: l))
    with (match credit a with Some y => y :: omap credit l
                            | None => omap credit l end).
  change (omap creditId (a :: l))
    with (match creditId a with Some y => y :: omap creditId l
                              | None => omap creditId l end).
  unfold creditId at 1. destruct (credit a); simpl; by rewrite IH.
Qed.

Lemma map_fst_creditPairsOf items :
  map fst (creditPairsOf items) = artistIdsOf items.
Proof.
  unfold creditPairsOf, artistIdsOf.
  induction items as [|it items IH]; [done|]. simpl.
  rewrite map_app, IH. f_equal.
  destruct (normalize it) as [[? track]|]; [|done].
  apply map_fst_omap_credit.
Qed.

Lemma artistKeys_scanned p token playlists x :
  x ∈ JsMap.keys (artistMap (scanned p token playlists))
  ↔ x ∈ artistIdsOf (concat (fetchedItems p token playlists)).
Proof.
  destruct (ScanInv_scanned p token playlists) as [_ _ _ Hn].
  rewrite <- map_fst_creditPairsOf, <- firstNameOf_is_Some, <- Hn.
  unfold nameOf. destruct (JsMap.get x _) eqn:E; simpl.
  - split; [by eexists|]. intros _.
    destruct (decide (x ∈ JsMap.keys (artistMap (scanned p token playlists))))
      as [|Hn']; [done|]. apply JsMap_get_None in Hn'. congruence.
  - split; [|by intros [? ?]]. intros H. by apply JsMap_get_None in E.
Qed.

Lemma artistTable_ids lc p token playlists tr r snap :
  truthy (getAccessToken p) = Some token →
  fetchAllPlaylists p token = inr playlists →
  GET lc p = (tr, inr r) → snapshotOf r = Some snap →
  Permutation (map ArtistRow.artistId (artistTable snap))
              (JsMap.keys (artistMap (scanned p token playlists))).
Proof.
  intros H1 H2 H3 H4.
  destruct (snapshot_shape lc p token _ tr r snap H1 H2 H3 H4)
    as (tr_e & a' & He & _ & _ & ->).
  simpl. rewrite map_map. simpl. unfold sortedArtists.
  rewrite Array_sort_perm.
  destruct (enrich_inv _ _ _ _ _ He) as (_ & Hc & _).
  assert (∀ l, map ArtistAgg.artistId l
               = map (λ c, c.1.1.1) (map counters l)) as E.
  { intros l. by rewrite map_map. }
  rewrite E, Hc, <- E. unfold artistsOfMap, JsMap.keys, JsMap.entries.
  rewrite map_map. apply Permutation_refl'. apply map_ext. by intros [??].
Qed.

(** X2. [totalArtists] is the number of distinct artist identifiers
    credited on the items the normalizer keeps. The artist table has one
    row for each of them, and the deck list names the same artists in the
    same order, with their song count as [trackCount]. *)
Theorem totalArtists_distinct lc p snap :
  snapshotFor lc p = Some snap →
  totalArtists (totals snap)
  = size (list_to_set (artistIdsOf (concat (libraryOf p))) : gset string)
  ∧ length (artistTable snap) = totalArtists (totals snap)
  ∧ NoDup (map ArtistRow.artistId (artistTable snap))
  ∧ map (λ a, (ArtistDeckItem.artistId a, ArtistDeckItem.artistName a,
               ArtistDeckItem.imageUrl a, ArtistDeckItem.trackCount a))
        (artists snap)
    = map (λ r, (ArtistRow.artistId r, ArtistRow.artistName r,
                 ArtistRow.imageUrl r, ArtistRow.songCount r))
          (artistTable snap).
Proof.
  intros (token & tr & r & H1 & H2 & H3 & H4 & -> & _)%snapshotFor_inv.
  pose proof (artistTable_ids lc p token _ tr r snap H1 H2 H3 H4) as Hperm.
  destruct (scanned_facts p token (playlistsOf p)) as ([_ Hnd _ _] & _).
  assert (length (artistTable snap) = totalArtists (totals snap)) as Hlen.
  { destruct (snapshot_shape lc p token _ tr r snap H1 H2 H3 H4)
      as (tr_e & a' & He & _ & _ & ->). simpl. by rewrite length_map. }
  split_and!.
  - rewrite <- Hlen, <- (length_map ArtistRow.artistId), Hperm.
    rewrite <- (size_list_to_set (C:=gset string)) by done.
    f_equal. apply set_eq. intros x. rewrite !elem_of_list_to_set.
    apply artistKeys_scanned.
  - done.
  - by rewrite Hperm.
  - destruct (snapshot_shape lc p token _ tr r snap H1 H2 H3 H4)
      as (tr_e & a' & He & _ & _ & ->). simpl. by rewrite !map_map.
Qed.

(** ** The scan: rankings, images and ranges *)

Section Rankings.
Variable localeCompare : string → string → Z.
Hypothesis localeCompare_total :
  ∀ a b, (localeCompare a b <= 0 ∨ localeCompare b a <= 0)%Z.
Hypothesis localeCompare_trans :
  ∀ a b c, (localeCompare a b <= 0 → localeCompare b c <= 0
            → localeCompare a c <= 0)%Z.

Lemma byPlaylists_notAfter x y :
  notAfter (byPlaylists localeCompare) x y ↔
  ArtistAgg.playlistCount y < ArtistAgg.playlistCount x
  ∨ (ArtistAgg.playlistCount x = ArtistAgg.playlistCount y
     ∧ (localeCompare (ArtistAgg.artistName x) (ArtistAgg.artistName y)
        <= 0)%Z).
Proof.
  unfold notAfter, byPlaylists, orElse.
  destruct (Z.eqb_spec (Z.of_nat (ArtistAgg.playlistCount y)
                        - Z.of_nat (ArtistAgg.playlistCount x)) 0); lia.
Qed.

Lemma byPlaylists_total x y :
  notAfter (byPlaylists localeCompare) x y
  ∨ notAfter (byPlaylists localeCompare) y x.
Proof.
  rewrite !byPlaylists_notAfter.
  destruct (localeCompare_total (ArtistAgg.artistName x)
                                (ArtistAgg.artistName y)); lia.
Qed.

Lemma byPlaylists_trans x y z :
  notAfter (byPlaylists localeCompare) x y
  → notAfter (byPlaylists localeCompare) y z
  → notAfter (byPlaylists localeCompare) x z.
Proof.
  rewrite !byPlaylists_notAfter.
  intros [H1|[H1 L1]] [H2|[H2 L2]]; try lia.
  right. split; [lia|]. by eapply localeCompare_trans.
Qed.

Lemma byPresence_notAfter x y :
  notAfter (byPresence localeCompare) x y ↔
  TrackPlaylistAgg.playlistCount y < TrackPlaylistAgg.playlistCount x
  ∨ (TrackPlaylistAgg.playlistCount x = TrackPlaylistAgg.playlistCount y
     ∧ (localeCompare (TrackPlaylistAgg.trackName x)
                      (TrackPlaylistAgg.trackName y) <= 0)%Z).
Proof.
  unfold notAfter, byPresence, orElse.
  destruct (Z.eqb_spec (Z.of_nat (TrackPlaylistAgg.playlistCount y)
                        - Z.of_nat (TrackPlaylistAgg.playlistCount x)) 0); lia.
Qed.

Lemma byPresence_total x y :
  notAfter (byPresence localeCompare) x y
  ∨ notAfter (byPresence localeCompare) y x.
Proof.
  rewrite !byPresence_notAfter.
  destruct (localeCompare_total (TrackPlaylistAgg.trackName x)
                                (TrackPlaylistAgg.trackName y)); lia.
Qed.

Lemma byPresence_trans x y z :
  notAfter (byPresence localeCompare) x y
  → notAfter (byPresence localeCompare) y z
  → notAfter (byPresence localeCompare) x z.
Proof.
  rewrite !byPresence_notAfter.
  intros [H1|[H1 L1]] [H2|[H2 L2]]; try lia.
  right. split; [lia|]. by eapply localeCompare_trans.
Qed.

(** X6. The top-5-by-playlists view is made of the first five artists of
    the artist table re-ordered by playlist count, descending, with ties in
    ascending order of the names; each entry carries the playlist count and
    its percentage of [totalPlaylists]. *)
Theorem top5_by_playlists p snap :
  snapshotFor localeCompare p = Some snap →
  ∃ ranking,
    Permutation ranking (artistTable snap)
    ∧ StronglySorted (rankedByPlaylists localeCompare) ranking
    ∧ topArtistsByPlaylists snap
      = map (topOfRowByPlaylists (totalPlaylists (totals snap)))
            (take 5 ranking).
Proof.
  intros (token & tr & r & H1 & H2 & H3 & H4 & _ & _)%snapshotFor_inv.
  destruct (snapshot_shape _ p token _ tr r snap H1 H2 H3 H4)
    as (tr_e & a' & He & _ & _ & ->).
  set (P := length (playlistsOf p)).
  set (T := JsSet.size (uniqueTrackIds (scanned p token (playlistsOf p)))).
  exists (map (tableRow P T)
              (Array_sort (byPlaylists localeCompare)
                          (sortedArtists localeCompare a'))).
  split_and!.
  - simpl. apply Permutation_map, Array_sort_perm.
  - eapply (StronglySorted_fmap _ (notAfter (byPlaylists localeCompare)));
      [|apply (Array_sort_sorted _ byPlaylists_total byPlaylists_trans)].
    intros x y Hxy. apply byPlaylists_notAfter in Hxy. exact Hxy.
  - simpl. unfold slice5. rewrite firstn_map, map_map. done.
Qed.

(** X7. The top tracks are the first five of a ranking of all the distinct
    tracks of the library by the number of playlists they occur in,
    descending, with ties in ascending order of the track names. *)
Theorem top5_tracks p snap :
  snapshotFor localeCompare p = Some snap →
  ∃ ranking,
    topTracksByPlaylists snap = take 5 ranking
    ∧ StronglySorted (rankedTracks localeCompare) ranking
    ∧ Permutation (map TopTrack.trackId ranking)
                  (JsMap.keys (firstTracks (concat (libraryOf p))))
    ∧ ∀ t, t ∈ ranking →
        TopTrack.playlistCount t
        = playlistsWith trackIdsOf (TopTrack.trackId t) (libraryOf p).
Proof.
  intros (token & tr & r & H1 & H2 & H3 & H4 & -> & _)%snapshotFor_inv.
  destruct (snapshot_shape _ p token _ tr r snap H1 H2 H3 H4)
    as (tr_e & a' & He & _ & _ & ->).
  set (P := length (playlistsOf p)).
  exists (map (topTrack P)
              (Array_sort (byPresence localeCompare)
                          (tracksOfMap (trackPlaylistMap a')))).
  destruct (ScanInv_scanned p token (playlistsOf p)) as [_ Htr _ _].
  rewrite <- (enrich_trackEntries _ _ _ _ _ He) in Htr.
  destruct (scanned_facts p token (playlistsOf p))
    as ([_ _ Hnd _] & _ & _ & Htp & _).
  split_and!.
  - simpl. unfold slice5. by rewrite firstn_map.
  - eapply (StronglySorted_fmap _ (notAfter (byPresence localeCompare)));
      [|apply (Array_sort_sorted _ byPresence_total byPresence_trans)].
    intros x y Hxy. apply byPresence_notAfter in Hxy. exact Hxy.
  - rewrite map_map. simpl. rewrite Array_sort_perm.
    unfold tracksOfMap, JsMap.entries. rewrite map_map.
    apply Permutation_refl'.
    transitivity (map fst (map (λ e : string * TrackRec.t,
                                  (e.1, trackMeta e.2))
                               (trackPlaylistMap a'))).
    + rewrite map_map. apply map_ext. by intros [??].
    + rewrite Htr. unfold JsMap.keys. rewrite map_map. done.
  - intros t (x & -> & Hx)%list_elem_of_fmap. simpl.
    rewrite Array_sort_perm in Hx.
    assert (trackCounters x
            ∈ map trackCounters
                  (tracksOfMap (trackPlaylistMap
                                  (scanned p token (playlistsOf p)))))
      as Hc.
    { rewrite <- (enrich_trackCounters _ _ _ _ _ He).
      apply list_elem_of_fmap. by exists x. }
    apply list_elem_of_fmap in Hc as (y & Hy & Hin).
    unfold trackCounters in Hy. injection Hy as -> ->.
    by rewrite <- (In_tracksOfMap _ _ Hnd Hin), Htp.
Qed.
End Rankings.

Lemma imageFor_noteImage m a id :
  imageFor (noteImage m a) id
  = if bool_decide (carriesId id a)
    then match a with Some a => imageOf a | None => None end
    else imageFor m id.
Proof.
  unfold imageFor, noteImage. destruct a as [a|]; simpl.
  - case_bool_decide as Hc; unfold carriesId in Hc; simpl in Hc.
    + rewrite Hc, JsMap_get_set. by rewrite bool_decide_eq_true_2.
    + destruct (truthy (ao_id a)) as [id'|]; [|done].
      rewrite JsMap_get_set. rewrite bool_decide_eq_false_2; [done|].
      intros ->. by destruct Hc.
  - done.
Qed.

Lemma imageFor_noteImages objs : ∀ m id,
  imageFor (fold_left noteImage objs m) id
  = match last (filter (carriesId id) objs) with
    | Some (Some a) => imageOf a
    | Some None => None
    | None => imageFor m id
    end.
Proof.
  induction objs as [|a objs IH] using rev_ind; intros m id; [done|].
  rewrite fold_left_app, filter_app. simpl.
  rewrite imageFor_noteImage, filter_cons, filter_nil.
  case_bool_decide as Hc.
  - rewrite decide_True by done. rewrite last_snoc.
    destruct a as [a|]; [done|]. by unfold carriesId in Hc.
  - rewrite decide_False by done. rewrite app_nil_r. apply IH.
Qed.

Lemma imageFor_empty id : imageFor JsMap.empty id = None.
Proof. done. Qed.

Lemma In_artistsOfMap_fillImages images a x :
  x ∈ artistsOfMap (artistMap (fillImages images a)) →
  ArtistAgg.imageUrl x = imageFor images (ArtistAgg.artistId x).
Proof.
  unfold artistsOfMap, JsMap.entries, fillImages. simpl. rewrite map_map.
  by intros ([id r] & -> & _)%list_elem_of_fmap.
Qed.

(** X8. The image of an artist is the first image of the last object of
    the artist provider's answer that carries the artist's identifier, and
    [null] when no object carries it or that object has no image. *)
Theorem artist_images lc p snap :
  snapshotFor lc p = Some snap →
  ∀ row, row ∈ artistTable snap →
    ArtistRow.imageUrl row
    = imageFrom (artistObjsOf p) (ArtistRow.artistId row).
Proof.
  intros (token & tr & r & H1 & H2 & H3 & H4 & _ & Hsc)%snapshotFor_inv.
  destruct (snapshot_shape lc p token _ tr r snap H1 H2 H3 H4)
    as (tr_e & a' & He & _ & _ & ->).
  intros row (x & Hx & ->)%In_artistTable. simpl.
  unfold artistObjsOf. rewrite H1, Hsc. cbv zeta.
  unfold enrich in He. destruct (0 <? _) eqn:Hlen.
  - unfold bind, call, ret in He.
    destruct (fetchArtistsByIds p token _) as [e|objs]; [done|].
    injection He as _ <-.
    rewrite (In_artistsOfMap_fillImages _ _ _ Hx).
    unfold imageFrom. rewrite imageFor_noteImages.
    by destruct (last _) as [[?|]|].
  - injection He as _ <-. apply Nat.ltb_ge in Hlen.
    unfold artistsOfMap, JsMap.entries, JsMap.keys in *.
    rewrite length_map in Hlen.
    destruct (artistMap (scanned p token (playlistsOf p))); simpl in *; [|lia].
    by apply elem_of_nil in Hx.
Qed.

Lemma pct_nonneg x denom : (0 <= pct x denom)%Q.
Proof.
  unfold pct. destruct (Nat.ltb_spec 0 denom) as [H|H]; [|done].
  apply Qmult_le_0_compat; [|done].
  apply Qle_shift_div_l; [by apply ofNat_pos|].
  rewrite Qmult_0_l. unfold ofNat. rewrite <- (Zle_Qle 0). lia.
Qed.

Lemma topTracks_counts lc p token playlists tr r snap t :
  truthy (getAccessToken p) = Some token →
  fetchAllPlaylists p token = inr playlists →
  GET lc p = (tr, inr r) → snapshotOf r = Some snap →
  t ∈ topTracksByPlaylists snap →
  TopTrack.playlistCount t
  = playlistsWith trackIdsOf (TopTrack.trackId t)
                  (fetchedItems p token playlists).
Proof.
  intros H1 H2 H3 H4.
  destruct (snapshot_shape lc p token _ tr r snap H1 H2 H3 H4)
    as (tr_e & a' & He & _ & _ & ->).
  intros (x & Hx & ->)%In_topTracksByPlaylists. simpl.
  destruct (scanned_facts p token playlists)
    as ([_ _ Hnd _] & _ & _ & Htp & _).
  assert (trackCounters x
          ∈ map trackCounters
                (tracksOfMap (trackPlaylistMap (scanned p token playlists))))
    as Hc.
  { rewrite <- (enrich_trackCounters _ _ _ _ _ He).
    apply list_elem_of_fmap. by exists x. }
  apply list_elem_of_fmap in Hc as (y & Hy & Hin).
  unfold trackCounters in Hy. injection Hy as -> ->.
  by rewrite <- (In_tracksOfMap _ _ Hnd Hin), Htp.
Qed.

Lemma In_topArtistsByPlaylists lc P T a e :
  e ∈ topArtistsByPlaylists (buildSnapshot lc P T a) →
  ∃ row, row ∈ artistTable (buildSnapshot lc P T a)
         ∧ TopArtist.value e = ArtistRow.playlistCount row
         ∧ TopArtist.percent e = ArtistRow.playlistPercent row.
Proof.
  simpl. intros (x & -> & Hx)%list_elem_of_fmap.
  exists (tableRow P T x). split; [|done].
  apply list_elem_of_fmap. exists x. split; [done|].
  unfold slice5 in Hx. apply (subseteq_take 5) in Hx.
  by rewrite Array_sort_perm in Hx.
Qed.

(** X9. Every playlist percentage, of an artist or of a track, lies
    between 0 and 100; a song percentage is not negative, and is at most
    100 when no track credits the same artist twice. *)
Theorem percentages_in_range lc p snap :
  snapshotFor lc p = Some snap →
  (∀ row, row ∈ artistTable snap →
     (0 <= ArtistRow.songPercent row)%Q
     ∧ (0 <= ArtistRow.playlistPercent row <= 100)%Q)
  ∧ (∀ e, e ∈ topArtistsByPlaylists snap →
       (0 <= TopArtist.percent e <= 100)%Q)
  ∧ (∀ t, t ∈ topTracksByPlaylists snap →
       (0 <= TopTrack.percent t <= 100)%Q)
  ∧ (Forall creditsDistinct (libraryOf p) →
     ∀ row, row ∈ artistTable snap → (ArtistRow.songPercent row <= 100)%Q).
Proof.
  intros (token & tr & r & H1 & H2 & H3 & H4 & -> & _)%snapshotFor_inv.
  destruct (snapshot_shape lc p token _ tr r snap H1 H2 H3 H4)
    as (tr_e & a' & He & _ & _ & Hs).
  destruct (scanned_facts p token (playlistsOf p))
    as (_ & _ & Hp & _ & Hb & _).
  assert (∀ row, row ∈ artistTable snap →
            (0 <= ArtistRow.songPercent row)%Q
            ∧ (0 <= ArtistRow.playlistPercent row <= 100)%Q) as Hrows.
  { intros row Hrow.
    destruct (artistTable_counts lc p token _ tr r snap H1 H2 H3 H4 row Hrow)
      as (_ & _ & Hpc).
    rewrite Hs in Hrow. apply In_artistTable in Hrow as (x & _ & ->).
    simpl in *. split_and!; try apply pct_nonneg.
    apply pct_le_100. rewrite Hpc, Hp.
    etrans; [apply playlistsWith_le|apply fetchedItems_length]. }
  split_and!.
  - done.
  - intros e He'. rewrite Hs in He'.
    apply In_topArtistsByPlaylists in He' as (row & Hrow & _ & ->).
    rewrite <- Hs in Hrow. by apply Hrows.
  - intros t Ht.
    pose proof (topTracks_counts lc p token _ tr r snap t H1 H2 H3 H4 Ht) as Hc.
    rewrite Hs in Ht. apply In_topTracksByPlaylists in Ht as (x & _ & ->).
    simpl in *. split; [apply pct_nonneg|]. apply pct_le_100. rewrite Hc.
    etrans; [apply playlistsWith_le|apply fetchedItems_length].
  - intros Hd row Hrow.
    destruct (artistTable_counts lc p token _ tr r snap H1 H2 H3 H4 row Hrow)
      as (_ & Hsc & _).
    rewrite Hs in Hrow. apply In_artistTable in Hrow as (x & _ & ->).
    simpl in *. apply pct_le_100. rewrite Hsc. by apply Hb.
Qed.

(** ** The service client *)

Lemma pages_linked {T}
    (fetch : Spotify.Request → Spotify.Reply (Spotify.Paging T))
    token url chain :
  Linked fetch token url chain →
  ∀ fuel out, length chain ≤ fuel →
    Spotify.pages fetch fuel url token out
    = (map (λ l, Spotify.bearer l.1 token) chain,
       Spotify.Returned (out ++ flat_map (λ l, Spotify.items l.2) chain)).
Proof.
  induction 1 as [url Hend|url u page rest Hu Hf Hrest IH];
    intros fuel out Hfuel.
  - destruct fuel; simpl; rewrite Hend; by rewrite app_nil_r.
  - destruct fuel as [|fuel]; simpl in Hfuel; [lia|].
    simpl. rewrite Hu. unfold Spotify.spotifyFetch. rewrite Hf.
    rewrite IH by lia. by rewrite <- app_assoc.
Qed.

(** X10. When the service links the pages of the playlists from the first
    link to a page without a link, [fetchAllPlaylists] requests each link
    once, in order, with the caller's token, and returns the items of the
    pages concatenated in that order, given as many iterations as there are
    pages. *)
Theorem fetchAllPlaylists_collects {T}
    (fetch : Spotify.Request → Spotify.Reply (Spotify.Paging T))
    token chain fuel :
  Linked fetch token
         (Some "https://api.spotify.com/v1/me/playlists?limit=50") chain →
  length chain ≤ fuel →
  Spotify.fetchAllPlaylists fetch fuel token
  = (map (λ l, Spotify.bearer l.1 token) chain,
     Spotify.Returned (flat_map (λ l, Spotify.items l.2) chain)).
Proof.
  intros Hl Hfuel. unfold Spotify.fetchAllPlaylists.
  by rewrite (pages_linked _ _ _ _ Hl).
Qed.

Lemma pages_thrown {T}
    (fetch : Spotify.Request → Spotify.Reply (Spotify.Paging T))
    token fuel : ∀ url out tr e,
  Spotify.pages fetch fuel url token out = (tr, Spotify.Thrown e) →
  ∃ pre req,
    tr = pre ++ [req]
    ∧ Forall (answeredOk fetch) pre
    ∧ (fetch req = Spotify.Rejected e
       ∨ ∃ status txt,
           fetch req = Spotify.NotOk status txt
           ∧ e = ("Spotify API error " ++ showNat status ++ ": "
                  ++ txt)%string).
Proof.
  induction fuel as [|fuel IH]; intros url out tr e; simpl.
  - by destruct (truthy url).
  - destruct (truthy url) as [u|]; [|done].
    unfold Spotify.spotifyFetch.
    destruct (fetch (Spotify.bearer u token)) as [e'|status txt|page] eqn:Hf.
    + intros [= <- <-]. exists [], (Spotify.bearer u token).
      split_and!; [done|constructor|by left].
    + intros [= <- <-]. exists [], (Spotify.bearer u token).
      split_and!; [done|constructor|right; by eexists _, _].
    + destruct (Spotify.pages fetch fuel _ token _) as [tr' r] eqn:Hp.
      intros [= <- ->].
      destruct (IH _ _ _ _ Hp) as (pre & req & -> & Hpre & Hreq).
      exists (Spotify.bearer u token :: pre), req.
      split_and!; [done| |done]. constructor; [|done].
      unfold answeredOk. by rewrite Hf.
Qed.

Lemma pages_authorized {T}
    (fetch : Spotify.Request → Spotify.Reply (Spotify.Paging T))
    token fuel : ∀ url out tr r,
  Spotify.pages fetch fuel url token out = (tr, r) →
  Forall (λ req, Spotify.authorization req = ("Bearer " ++ token)%string) tr.
Proof.
  induction fuel as [|fuel IH]; intros url out tr r; simpl.
  - destruct (truthy url); intros [= <- <-]; constructor.
  - destruct (truthy url) as [u|]; [|intros [= <- <-]; constructor].
    destruct (Spotify.spotifyFetch fetch u token) as [e|page].
    + intros [= <- <-]. by repeat constructor.
    + destruct (Spotify.pages fetch fuel _ token _) as [tr' r'] eqn:Hp.
      intros [= <- <-]. constructor; [done|]. by eapply IH.
Qed.

(** X11. When [fetchAllPlaylistTracks] throws, its last request was
    rejected or answered with a status that is not [ok]; the error message
    carries that status and the text of the response. Every earlier request
    was answered [ok], every request carries the caller's token, and the
    items of the earlier pages are not returned. *)
Theorem fetchAllPlaylistTracks_failure {T}
    (fetch : Spotify.Request → Spotify.Reply (Spotify.Paging T))
    fuel token playlistId tr e :
  Spotify.fetchAllPlaylistTracks fetch fuel token playlistId
  = (tr, Spotify.Thrown e) →
  ∃ pre req,
    tr = pre ++ [req]
    ∧ Forall (answeredOk fetch) pre
    ∧ Forall (λ req, Spotify.authorization req = ("Bearer " ++ token)%string) tr
    ∧ (fetch req = Spotify.Rejected e
       ∨ ∃ status txt,
           fetch req = Spotify.NotOk status txt
           ∧ e = ("Spotify API error " ++ showNat status ++ ": "
                  ++ txt)%string).
Proof.
  unfold Spotify.fetchAllPlaylistTracks. intros H.
  pose proof (pages_authorized _ _ _ _ _ _ _ H) as Hauth.
  destruct (pages_thrown _ _ _ _ _ _ _ H) as (pre & req & -> & Hpre & Hreq).
  by exists pre, req.
Qed.


Section ArtistBatches.
Variable encodeURIComponent : string → string.
Variable fetch :
  Spotify.Request → Spotify.Reply (option (list (option RawArtistObj))).
Variable token : string.


End ArtistBatches.

(** ** The sign-in routes *)

Lemma hex2_shape b :
  ∃ c1 c2, hex2 b = String c1 (String c2 EmptyString)
           ∧ isHexDigit c1 = true ∧ isHexDigit c2 = true.
Proof. destruct b; by eexists _, _. Qed.

Lemma unhex2_hex2 b rest : unhex2 (hex2 b ++ rest)%string = Some (b, rest).
Proof. by destruct b. Qed.

Lemma append_String c s t : (String c s ++ t)%string = String c (s ++ t)%string.
Proof. done. Qed.

Lemma append_Empty t : (EmptyString ++ t)%string = t.
Proof. done. Qed.

Lemma concat_empty_cons x xs :
  String.concat EmptyString (x :: xs)
  = (x ++ String.concat EmptyString xs)%string.
Proof.
  destruct xs as [|y ys]; [|done].
  simpl. clear. induction x as [|c x IH]; [done|].
  change (String c x = String c (x ++ EmptyString)%string). by f_equal.
Qed.

Lemma hexOfBytes_length bs :
  String.length (String.concat EmptyString (map hex2 bs)) = 2 * length bs.
Proof.
  induction bs as [|b bs IH]; [done|].
  cbn [map]. rewrite concat_empty_cons.
  destruct (hex2_shape b) as (c1 & c2 & -> & _).
  rewrite !append_String, append_Empty. simpl. rewrite IH. simpl. lia.
Qed.

Lemma hexOfBytes_digits bs :
  Forall (λ c, isHexDigit c = true)
         (list_ascii_of_string (String.concat EmptyString (map hex2 bs))).
Proof.
  induction bs as [|b bs IH]; [constructor|].
  cbn [map]. rewrite concat_empty_cons.
  destruct (hex2_shape b) as (c1 & c2 & -> & H1 & H2).
  rewrite !append_String, append_Empty. simpl. by repeat constructor.
Qed.

Lemma hexOfBytes_inj bs : ∀ bs',
  length bs = length bs' →
  String.concat EmptyString (map hex2 bs)
  = String.concat EmptyString (map hex2 bs') →
  bs = bs'.
Proof.
  induction bs as [|b bs IH]; intros [|b' bs'] Hlen; simpl in Hlen; try done.
  cbn [map]. rewrite !concat_empty_cons. intros Heq.
  pose proof (unhex2_hex2 b (String.concat EmptyString (map hex2 bs))) as H1.
  rewrite Heq, unhex2_hex2 in H1. injection H1 as <- Hrest.
  f_equal. apply IH; [lia|done].
Qed.

(** X14. [randomString(len)] is made of [2 * len] lower-case hexadecimal
    digits, and it determines the random bytes it was made from: no bit of
    them is lost. *)
Theorem randomString_hex random len :
  String.length (Login.randomString random len) = 2 * len
  ∧ Forall (λ c, isHexDigit c = true)
           (list_ascii_of_string (Login.randomString random len))
  ∧ ∀ random',
      Login.randomString random' len = Login.randomString random len →
      ∀ i, i < len → random' i = random i.
Proof.
  unfold Login.randomString. fold hex2. split_and!.
  - by rewrite hexOfBytes_length, length_map, length_seq.
  - apply hexOfBytes_digits.
  - intros random' Heq i Hi.
    apply hexOfBytes_inj in Heq; [|by rewrite !length_map].
    assert (map random' (seq 0 len) !! i = map random (seq 0 len) !! i) as H
      by by rewrite Heq.
    rewrite !list_lookup_fmap, lookup_seq_lt in H by done. simpl in H.
    by injection H.
Qed.

Section CallbackFacts.
Variables (clientId clientSecret : option string).
Variable base64 : string → string.
Variable fetch : Callback.TokenRequest → Spotify.Reply Callback.Tokens.
Let GET := Callback.GET clientId clientSecret base64 fetch.
Let tokenRequest := Callback.tokenRequest clientId clientSecret base64.

(** X15. The callback route asks the token endpoint for tokens only when
    the request carries a code and a state and the state equals the one
    kept in the cookie, all three non-empty; otherwise it redirects to
    [/?error=auth_state] and sets no cookie. *)
Theorem callback_state_guard code state storedState host proto :
  let redirectUri := (originOf host proto ++ "/api/auth/callback")%string in
  (∀ c s, truthy code = Some c → truthy state = Some s →
          truthy storedState = Some s →
          (GET code state storedState host proto).1
          = [tokenRequest c redirectUri])
  ∧ ((¬ ∃ c s, truthy code = Some c ∧ truthy state = Some s
               ∧ truthy storedState = Some s) →
     GET code state storedState host proto
     = ([], Callback.Redirect
              (originOf host proto ++ "/?error=auth_state")%string [])).
Proof.
  cbv zeta. unfold GET, Callback.GET, Callback.exchangeCodeForTokens. split.
  - intros c s -> -> ->. rewrite String.eqb_refl. simpl.
    by destruct (fetch _).
  - intros Hno.
    destruct (truthy code) as [c|]; [|done].
    destruct (truthy state) as [s|]; [|done].
    destruct (truthy storedState) as [s'|]; [|done].
    destruct (String.eqb_spec s s') as [->|Hne]; [|done].
    destruct Hno. by exists c, s'.
Qed.

(** X16. When the token exchange succeeds, the callback route redirects to
    the origin, stores the access token for at least 60 seconds (for
    [expires_in - 30] seconds once that is more), stores the refresh token
    when there is one and deletes the state cookie. When the exchange
    fails it answers 500 with the error and touches no cookie. *)
Theorem callback_cookies code state storedState host proto tr res :
  GET code state storedState host proto = (tr, res) →
  match tr with
  | [req] =>
      match fetch req with
      | Spotify.Ok tokens =>
          ∃ age,
            res = Callback.Redirect (originOf host proto ++ "/")%string
                    ([SetCookie "sp_access_token" (Callback.access_token tokens)
                        (mkCookieOptions true "lax" false "/" age)]
                     ++ match truthy (Callback.refresh_token tokens) with
                        | Some refresh =>
                            [SetCookie "sp_refresh_token" refresh
                               (mkCookieOptions true "lax" false "/" 2592000)]
                        | None => []
                        end
                     ++ [DeleteCookie "spotify_auth_state"])
            ∧ (60 <= age)%Z
            ∧ (90 <= Callback.expires_in tokens →
               age = Callback.expires_in tokens - 30)%Z
      | Spotify.NotOk status txt =>
          res = Callback.Json
                  ("Error: Token exchange failed: " ++ showNat status ++ " "
                   ++ txt)%string 500
      | Spotify.Rejected e => res = Callback.Json e 500
      end
  | _ => cookiesOf res = []
  end.
Proof.
  unfold GET, Callback.GET, Callback.exchangeCodeForTokens.
  destruct (truthy code) as [c|]; [|by intros [= <- <-]].
  destruct (truthy state) as [s|]; [|by intros [= <- <-]].
  destruct (truthy storedState) as [s'|]; [|by intros [= <- <-]].
  destruct (negb _); [by intros [= <- <-]|].
  destruct (fetch _) as [e|status txt|tokens] eqn:Hf; intros [= <- <-];
    rewrite Hf; try done.
  eexists. split; [done|]. lia.
Qed.
End CallbackFacts.

(** X17. The state that the sign-in route puts in the authorization URL is
    the 32-character value it stores in the state cookie, and a callback
    that brings this state back with a code passes the state check: the
    token request is made, with the redirect URI the sign-in route sent. *)
Theorem login_callback_handshake random loginClientId clientId clientSecret
    base64 fetch host proto code c :
  truthy code = Some c →
  let login := Login.GET random loginClientId host proto in
  let params := Login.searchParams (Login.location login) in
  ∃ state redirectUri,
    JsMap.get "state" params = Some state
    ∧ JsMap.get "redirect_uri" params = Some redirectUri
    ∧ Login.cookies login
      = [SetCookie "spotify_auth_state" state
           (mkCookieOptions true "lax" false "/" 600)]
    ∧ String.length state = 32
    ∧ (Callback.GET clientId clientSecret base64 fetch
         code (Some state) (Some state) host proto).1
      = [Callback.tokenRequest clientId clientSecret base64 c redirectUri].
Proof.
  intros Hc. cbv zeta.
  exists (Login.randomString random 16),
         (originOf host proto ++ "/api/auth/callback")%string.
  assert (String.length (Login.randomString random 16) = 32) as Hlen.
  { unfold Login.randomString. fold hex2.
    by rewrite hexOfBytes_length, length_map, length_seq. }
  split_and!; try done.
  unfold Callback.GET, Callback.exchangeCodeForTokens. rewrite Hc.
  destruct (Login.randomString random 16) as [|ch rest] eqn:E; [done|].
  simpl. rewrite Ascii.eqb_refl, String.eqb_refl. simpl.
  by destruct (fetch _).
Qed.

(** X13. The session status route reports [hasAccessToken: false] exactly
    when the scan route, reading the same cookie, answers 401
    "not_authenticated". *)
Theorem status_agrees_with_scan lc p cookies :
  getAccessToken p = Spotify.getAccessToken cookies →
  Status.hasAccessToken (Status.GET cookies) = false
  ↔ GET lc p
    = ([CallGetAccessToken],
       inr (NextResponse_json (ErrorBody "not_authenticated") 401)).
Proof.
  intros Hp. unfold Status.GET, Boolean. simpl.
  unfold Spotify.getAccessToken in Hp. rewrite <- Hp. split.
  - intros H. apply GET_unauthenticated.
    by destruct (truthy (getAccessToken p)).
  - unfold GET, bind, call, ret. simpl.
    destruct (truthy (getAccessToken p)) as [token|]; [|done].
    destruct (fetchAllPlaylists p token) as [e|playlists]; [done|].
    destruct (scan p token playlists emptyAgg) as [tr_s [e|a]]; [done|].
    destruct (enrich p token a) as [tr_e [e|a']]; done.
Qed.

(** ** The page: storage, scan, deck and table *)

Lemma Math_min_spec x y :
  (Math_min x y <= x ∧ Math_min x y <= y
   ∧ (x <= y → Math_min x y = x) ∧ (y <= x → Math_min x y == y))%Q.
Proof.
  unfold Math_min. destruct (Qle_bool x y) eqn:E.
  - apply Qle_bool_iff in E. split_and!; try done; lra.
  - assert (¬ (x <= y)%Q) as H by (rewrite <- Qle_bool_iff; congruence).
    split_and!; try done; lra.
Qed.

Lemma Math_max_spec x y :
  (x <= Math_max x y ∧ y <= Math_max x y
   ∧ (x <= y → Math_max x y = y) ∧ (y <= x → Math_max x y == x))%Q.
Proof.
  unfold Math_max. destruct (Qle_bool x y) eqn:E.
  - apply Qle_bool_iff in E. split_and!; try done; lra.
  - assert (¬ (x <= y)%Q) as H by (rewrite <- Qle_bool_iff; congruence).
    split_and!; try done; lra.
Qed.

(** X22. [nextInsight] never goes past the last insight page (4) and
    [prevInsight] never below the first (0); within these bounds they move
    by one page, and [prevInsight] undoes [nextInsight]. *)
Theorem insight_pages_bounded s :
  let i := Page.insightPage s in
  let n := Page.insightPage (nextInsight s) in
  let p := Page.insightPage (prevInsight s) in
  (n <= 4 ∧ 0 <= p
   ∧ (0 <= i → 0 <= n) ∧ (i <= 4 → p <= 4)
   ∧ (i <= 3 → n == i + 1) ∧ (1 <= i → p == i - 1)
   ∧ (0 <= i <= 3 →
      Page.insightPage (prevInsight (nextInsight s)) == i))%Q.
Proof.
  cbv zeta. unfold nextInsight, prevInsight. simpl.
  set (i := Page.insightPage s).
  destruct (Math_min_spec (5 - 1) (i + 1)) as (N1 & N2 & N3 & N4).
  destruct (Math_max_spec 0 (i - 1)) as (P1 & P2 & P3 & P4).
  destruct (Math_max_spec 0 (Math_min (5 - 1) (i + 1) - 1))
    as (M1 & M2 & M3 & M4).
  assert (i <= 3 → Math_min (5 - 1) (i + 1) == i + 1)%Q as E
    by (intros; apply N4; lra).
  split_and!.
  - lra.
  - lra.
  - intros Hi. unfold Math_min. destruct (Qle_bool _ _); lra.
  - intros Hi. unfold Math_max. destruct (Qle_bool _ _); lra.
  - done.
  - intros Hi. rewrite P3; lra.
  - intros [H0 H3]. specialize (E H3). rewrite M3; lra.
Qed.

Lemma at_Some {A} (l : list A) i x :
  at_ l i = Some x →
  (0 <= i)%Q ∧ ∃ n, (i == ofNat n)%Q ∧ l !! n = Some x.
Proof.
  unfold at_. destruct (Qeq_bool _ _) eqn:E; [|done].
  destruct (Z.leb_spec 0 (Qfloor i)) as [H0|H0]; [|done]. simpl.
  apply Qeq_bool_iff in E. intros Hl. split.
  - rewrite E. by rewrite <- (Zle_Qle 0).
  - exists (Z.to_nat (Qfloor i)). split; [|done].
    unfold ofNat. rewrite Z2Nat.id by done. done.
Qed.

Lemma at_comp {A} (l : list A) i j : (i == j)%Q → at_ l i = at_ l j.
Proof.
  intros E. unfold at_. rewrite (Qfloor_comp _ _ E).
  assert (Qeq_bool i (inject_Z (Qfloor j)) = Qeq_bool j (inject_Z (Qfloor j)))
    as ->; [|done].
  destruct (Qeq_bool j _) eqn:Ej.
  - apply Qeq_bool_iff. apply Qeq_bool_iff in Ej. by rewrite E.
  - destruct (Qeq_bool i _) eqn:Ei; [|done].
    apply Qeq_bool_iff in Ei. rewrite E in Ei.
    apply Qeq_bool_iff in Ei. congruence.
Qed.

Lemma at_deckDone deck i : deckDone deck i = true → at_ deck i = None.
Proof.
  unfold deckDone. intros H%Qle_bool_iff.
  destruct (at_ deck i) as [x|] eqn:E; [|done].
  apply at_Some in E as (_ & n & Hn & Hl).
  apply lookup_lt_Some in Hl. rewrite Hn in H. unfold ofNat in H.
  rewrite <- Zle_Qle in H. lia.
Qed.

Section DeckFacts.
Variable JSON_stringify : json → nat → string.

(** X24. Marking the current artist records the decision for that artist
    only, moves to the next card, and saves both to the storage; past the
    end of the deck (or at an index that is no card) it does nothing. *)
Theorem markCurrent_decides deck value s :
  let s' := markCurrent JSON_stringify deck value s in
  (at_ deck (Page.deckIndex s) = None → s' = s)
  ∧ (deckDone deck (Page.deckIndex s) = true → s' = s)
  ∧ ∀ cur, at_ deck (Page.deckIndex s) = Some cur →
      ∃ fields,
        Page.decisions s' = JObj fields
        ∧ JsMap.get (ArtistDeckItem.artistId cur) fields = Some (JBool value)
        ∧ (∀ id, id ≠ ArtistDeckItem.artistId cur →
                 JsMap.get id fields
                 = JsMap.get id (spread (Page.decisions s)))
        ∧ Page.deckIndex s' = (Page.deckIndex s + 1)%Q
        ∧ JsMap.get STORAGE_DECISIONS_KEY (Page.localStorage s')
          = Some (JSON_stringify (JObj fields) 0)
        ∧ JsMap.get STORAGE_DECK_INDEX_KEY (Page.localStorage s')
          = Some (JSON_stringify (jnum (Page.deckIndex s + 1)) 0)
        ∧ Page.data s' = Page.data s
        ∧ Page.mode s' = Page.mode s.
Proof.
  cbv zeta. unfold markCurrent. split_and!.
  - by intros ->.
  - intros H. by rewrite (at_deckDone _ _ H).
  - intros cur ->.
    exists (JsMap.set (ArtistDeckItem.artistId cur) (JBool value)
                      (spread (Page.decisions s))).
    unfold advanceDeck, saveDecision, saveJSON. simpl.
    rewrite !JsMap_get_set. split_and!; try done.
    + by rewrite bool_decide_eq_true_2.
    + intros id Hid. rewrite JsMap_get_set.
      by rewrite bool_decide_eq_false_2.
Qed.

(** X25. [undoDeck] never makes the deck index negative. After a mark it
    returns to the card that was marked, and the decision that was recorded
    stays. *)
Theorem undoDeck_restores deck value s :
  (0 <= Page.deckIndex (undoDeck JSON_stringify s))%Q
  ∧ ∀ cur, at_ deck (Page.deckIndex s) = Some cur →
      let marked := markCurrent JSON_stringify deck value s in
      let undone := undoDeck JSON_stringify marked in
      (Page.deckIndex undone == Page.deckIndex s)%Q
      ∧ Page.decisions undone = Page.decisions marked
      ∧ at_ deck (Page.deckIndex undone) = Some cur.
Proof.
  split.
  - unfold undoDeck. simpl. apply Math_max_spec.
  - intros cur Hcur. cbv zeta.
    destruct (at_Some _ _ _ Hcur) as (H0 & n & Hn & Hl).
    unfold markCurrent. rewrite Hcur.
    unfold undoDeck, advanceDeck, saveDecision, saveJSON. simpl.
    destruct (Math_max_spec 0 (Page.deckIndex s + 1 - 1)) as (_ & _ & M & _).
    rewrite M by lra.
    assert (Page.deckIndex s + 1 - 1 == Page.deckIndex s)%Q as E by ring.
    split_and!; [done|done|].
    by rewrite (at_comp _ _ _ E).
Qed.
End DeckFacts.

Lemma decided_exclusive decisions a :
  decided decisions true a = true → decided decisions false a = false.
Proof.
  unfold decided. destruct (JsMap.get _ _) as [[| [|] | | | |]|]; done.
Qed.

Lemma tally_spec decisions deck : ∀ counts,
  fold_left (tally decisions) deck counts
  = (counts.1 + length (List.filter (decided decisions true) deck),
     counts.2 + length (List.filter (decided decisions false) deck)).
Proof.
  induction deck as [|a deck IH]; intros [n m]; simpl.
  - f_equal; lia.
  - rewrite IH. unfold tally. simpl.
    destruct (decided decisions true a) eqn:Et.
    + rewrite (decided_exclusive _ _ Et). simpl. f_equal; lia.
    + destruct (decided decisions false a); simpl; f_equal; lia.
Qed.




Lemma insertSorted_stable {A} (cmp : A → A → Z) (P : A → bool) x l :
  (∀ a b, P a = true → P b = true → (cmp a b <= 0)%Z) →
  List.filter P (insertSorted cmp x l) = List.filter P (x :: l).
Proof.
  intros HP. induction l as [|y l IH]; [done|]. simpl in *.
  destruct (Z.leb_spec (cmp x y) 0) as [Hxy|Hxy]; [done|]. simpl.
  rewrite IH. destruct (P x) eqn:Px; [|done].
  destruct (P y) eqn:Py; [|done].
  specialize (HP x y Px Py). lia.
Qed.

Lemma Array_sort_stable {A} (cmp : A → A → Z) (P : A → bool) l :
  (∀ a b, P a = true → P b = true → (cmp a b <= 0)%Z) →
  List.filter P (Array_sort cmp l) = List.filter P l.
Proof.
  intros HP. induction l as [|x l IH]; [done|]. simpl.
  rewrite (insertSorted_stable _ _ _ _ HP). simpl. by rewrite IH.
Qed.

Section DeckOrder.
Variable baseCompare : string → string → Z.
Hypothesis baseCompare_total :
  ∀ a b, (baseCompare a b <= 0 ∨ baseCompare b a <= 0)%Z.
Hypothesis baseCompare_trans :
  ∀ a b c, (baseCompare a b <= 0 → baseCompare b c <= 0
            → baseCompare a c <= 0)%Z.

(** X23. The deck lists the artists of the snapshot in ascending order of
    their names, compared ignoring case; artists whose names are equal in
    that comparison keep the order of the snapshot. *)
Theorem deckArtistsSorted_alphabetical data :
  let deck := deckArtistsSorted baseCompare data in
  Permutation deck (artistsOfData data)
  ∧ StronglySorted
      (λ a b, (baseCompare (ArtistDeckItem.artistName a)
                           (ArtistDeckItem.artistName b) <= 0)%Z) deck
  ∧ ∀ name,
      List.filter (sameName baseCompare name) deck
      = List.filter (sameName baseCompare name) (artistsOfData data).
Proof.
  cbv zeta. unfold deckArtistsSorted. split_and!.
  - apply Array_sort_perm.
  - apply (Array_sort_sorted
             (λ a b, baseCompare (ArtistDeckItem.artistName a)
                                 (ArtistDeckItem.artistName b))).
    + intros x y. apply baseCompare_total.
    + intros x y z. apply baseCompare_trans.
  - intros name. apply Array_sort_stable. intros a b Ha Hb.
    unfold sameName in *.
    apply andb_true_iff in Ha as [Ha _]. apply andb_true_iff in Hb as [_ Hb].
    apply Z.leb_le in Ha, Hb. by eapply baseCompare_trans.
Qed.
End DeckOrder.

Lemma JsMap_get_filter_ne {V} k key (m : list (string * V)) :
  JsMap.get k (filter (λ e : string * V, e.1 ≠ key) m)
  = if bool_decide (k = key) then None else JsMap.get k m.
Proof.
  induction m as [|[k0 v0] m IH].
  - simpl. by case_bool_decide.
  - rewrite filter_cons. simpl. destruct (decide (k0 ≠ key)) as [Hne|Heq].
    + simpl. rewrite IH, eqb_decide.
      repeat case_bool_decide; simplify_eq; done.
    + apply dec_stable in Heq. subst k0. rewrite IH, eqb_decide.
      repeat case_bool_decide; simplify_eq; done.
Qed.

Section StorageFacts.
Variable JSON_stringify : json → nat → string.
Variable JSON_parse : string → string + json.
Variable Number_coerce : json → option Q.

Lemma truthy_Some s : s ≠ EmptyString → truthy (Some s) = Some s.
Proof. by destruct s. Qed.

Lemma loadJSON_stored key v fallback s :
  Storable JSON_stringify JSON_parse v →
  JsMap.get key (Page.localStorage s) = Some (JSON_stringify v 0) →
  loadJSON JSON_parse key fallback s = v.
Proof.
  intros [Hrt Hne] Hget. unfold loadJSON. rewrite Hget, truthy_Some by done.
  by rewrite Hrt.
Qed.

(** X18. [loadJSON] gives back what [saveJSON] stored under the same key,
    for a value the runtime parses back from its text; saving under another
    key does not change it. A key that is absent or has been removed, and a
    text that does not parse, give the fallback. *)
Theorem loadJSON_saveJSON key v fallback s :
  (Storable JSON_stringify JSON_parse v →
   loadJSON JSON_parse key fallback
            (saveJSON JSON_stringify key (Some v) s) = v)
  ∧ (∀ key', key' ≠ key →
       loadJSON JSON_parse key' fallback
                (saveJSON JSON_stringify key (Some v) s)
       = loadJSON JSON_parse key' fallback s)
  ∧ (JsMap.get key (Page.localStorage s) = None →
     loadJSON JSON_parse key fallback s = fallback)
  ∧ (∀ raw e, JsMap.get key (Page.localStorage s) = Some raw →
       JSON_parse raw = inl e →
       loadJSON JSON_parse key fallback s = fallback)
  ∧ loadJSON JSON_parse key fallback (removeItem key s) = fallback.
Proof.
  split_and!.
  - intros Hst. apply loadJSON_stored; [done|].
    unfold saveJSON. simpl. rewrite JsMap_get_set.
    by rewrite bool_decide_eq_true_2.
  - intros key' Hne. unfold loadJSON, saveJSON. simpl.
    rewrite JsMap_get_set. by rewrite bool_decide_eq_false_2.
  - intros Hget. unfold loadJSON. by rewrite Hget.
  - intros raw e Hget He. unfold loadJSON. rewrite Hget.
    destruct (truthy (Some raw)) as [raw'|] eqn:E; [|done].
    assert (raw' = raw) as -> by (destruct raw; simpl in E; congruence).
    by rewrite He.
  - unfold loadJSON, removeItem. simpl.
    rewrite JsMap_get_filter_ne. by rewrite bool_decide_eq_true_2.
Qed.
End StorageFacts.

Section SessionFacts.
Variable JSON_stringify : json → nat → string.
Variable JSON_parse : string → string + json.
Variable Number_coerce : json → option Q.


(** X26. [resetDeck] empties the decisions and returns to the first card,
    in the state and in the storage; the snapshot is untouched. With no
    decisions every artist of the deck is remaining. *)
Theorem resetDeck_clears s fallback :
  let s' := resetDeck s in
  Page.decisions s' = JObj [] ∧ Page.deckIndex s' = 0%Q
  ∧ loadJSON JSON_parse STORAGE_DECISIONS_KEY fallback s' = fallback
  ∧ loadJSON JSON_parse STORAGE_DECK_INDEX_KEY fallback s' = fallback
  ∧ loadJSON JSON_parse STORAGE_SNAPSHOT_KEY fallback s'
    = loadJSON JSON_parse STORAGE_SNAPSHOT_KEY fallback s
  ∧ Page.data s' = Page.data s
  ∧ ∀ deck,
      let st := deckStats deck [] in
      seen st = 0 ∧ notSeen st = 0
      ∧ remaining st = Z.of_nat (length deck)
      ∧ seenArtists deck [] = [] ∧ notSeenArtists deck [] = [].
Proof.
  cbv zeta. unfold resetDeck, loadJSON, removeItem. simpl.
  rewrite !JsMap_get_filter_ne. split_and!; try done.
  intros deck.
  assert (∀ v, List.filter (decided [] v) deck = []) as Hnone.
  { intros v. induction deck as [|a deck IH]; [done|]. simpl. exact IH. }
  unfold deckStats, seenArtists, notSeenArtists.
  rewrite tally_spec, !Hnone. simpl. split_and!; try done. lia.
Qed.
End SessionFacts.

Lemma GET_response_shape lc p tr r :
  GET lc p = (tr, inr r) →
  (truthy (getAccessToken p) = None
   ∧ r = NextResponse_json (ErrorBody "not_authenticated") 401)
  ∨ ∃ snap, r = NextResponse_json (SnapshotBody snap) 200
            ∧ length (artists snap) = totalArtists (totals snap).
Proof.
  unfold GET, bind, call, ret. simpl.
  destruct (truthy (getAccessToken p)) as [token|].
  - destruct (fetchAllPlaylists p token) as [e|playlists]; [done|].
    destruct (scan p token playlists emptyAgg) as [tr_s [e|a]]; [done|].
    destruct (enrich p token a) as [tr_e [e|a']]; [done|].
    intros [= <- <-]. right. eexists. split; [done|]. simpl.
    by rewrite length_map.
  - intros [= <- <-]. by left.
Qed.

Section ScanFacts.
Variable JSON_stringify : json → nat → string.

(** X20. A scan that fails leaves the snapshot, the decisions, the deck
    index and the storage as they were, goes to the start screen, ends the
    loading state and shows a non-empty message: the [error] of the
    response if it has one, "HTTP" and the status otherwise. *)
Theorem scan_failure_keeps_data reply h :
  (∀ j, reply ≠ ScanOk j) →
  let h' := scanSpotify JSON_stringify reply h in
  let s := Home.page h in
  let s' := Home.page h' in
  Page.data s' = Page.data s
  ∧ Page.decisions s' = Page.decisions s
  ∧ Page.deckIndex s' = Page.deckIndex s
  ∧ Page.insightPage s' = Page.insightPage s
  ∧ Page.localStorage s' = Page.localStorage s
  ∧ Page.mode s' = ModeStart
  ∧ Home.loadingScan h' = false
  ∧ ∃ message,
      Page.error s' = Some message ∧ message ≠ EmptyString
      ∧ match reply with
        | ScanNotOk status error =>
            message = match truthy error with
                      | Some e => e
                      | None => ("HTTP " ++ showNat status)%string
                      end
        | ScanRejected e =>
            message = if String.eqb e EmptyString then "Scan failed" else e
        | ScanOk _ => False
        end.
Proof.
  intros Hfail. cbv zeta. unfold scanSpotify, scanSettled, scanStarted.
  destruct reply as [e|status error|j]; [| |by destruct (Hfail j)]; simpl.
  - split_and!; try done. eexists. split; [done|].
    split; [|done]. by destruct (String.eqb_spec e EmptyString).
  - split_and!; try done.
    assert (match truthy error with
            | Some e => e
            | None => ("HTTP " ++ showNat status)%string
            end ≠ EmptyString) as Hne.
    { destruct error as [[|c e]|]; done. }
    eexists. split; [|split; [exact Hne|done]].
    unfold scanFailed. simpl.
    apply String.eqb_neq in Hne. by rewrite Hne.
Qed.

(** X21. The page's scan, on a response of the scan route. With a
    snapshot, the page shows it on the first insight page, stores it, and
    clamps the deck index to the number of artists; without a token it
    shows "not_authenticated" on the start screen and keeps the data and
    the storage. Either way the decisions are kept. *)
Theorem scan_of_route lc p tr r h :
  GET lc p = (tr, inr r) →
  ∃ reply,
    replyOf r = Some reply
    ∧ let h' := scanSpotify JSON_stringify reply h in
      let s := Home.page h in
      let s' := Home.page h' in
      Home.loadingScan h' = false
      ∧ Page.decisions s' = Page.decisions s
      ∧ match snapshotOf r with
        | Some snap =>
            Page.data s' = Some (Snapshot_toJSON snap)
            ∧ Page.error s' = None
            ∧ Page.mode s' = ModeInsights
            ∧ Page.insightPage s' = 0%Q
            ∧ (Page.deckIndex s' <= Page.deckIndex s)%Q
            ∧ (Page.deckIndex s' <= ofNat (totalArtists (totals snap)))%Q
            ∧ JsMap.get STORAGE_SNAPSHOT_KEY (Page.localStorage s')
              = Some (JSON_stringify (Snapshot_toJSON snap) 0)
            ∧ JsMap.get STORAGE_DECK_INDEX_KEY (Page.localStorage s')
              = Some (JSON_stringify (jnum (Page.deckIndex s')) 0)
        | None =>
            Page.error s' = Some "not_authenticated"
            ∧ Page.mode s' = ModeStart
            ∧ Page.data s' = Page.data s
            ∧ Page.deckIndex s' = Page.deckIndex s
            ∧ Page.localStorage s' = Page.localStorage s
        end.
Proof.
  intros [[_ ->]|(snap & -> & Hlen)]%GET_response_shape.
  - eexists. split; [done|]. by simpl.
  - eexists. split; [done|]. cbv zeta. simpl.
    unfold clampDeckIndex, saveJSON. simpl.
    rewrite !JsMap_get_set. simpl.
    destruct (Math_min_spec (Page.deckIndex (Home.page h))
                            (ofNat (length (artists snap))))
      as (M1 & M2 & _).
    rewrite Hlen in *. by split_and!.
Qed.
End ScanFacts.

Lemma signOf_minus x y : (signOf (x - y) <= 0)%Z ↔ (x <= y)%Q.
Proof.
  unfold signOf, Qle. destruct x as [a b], y as [c d]. simpl.
  split; [intros H|intros H; apply Z.sgn_nonpos]; [apply Z.sgn_nonpos in H|];
    lia.
Qed.

Section TableFacts.
Variable localeCompare : string → string → Z.

Lemma byColumn_orderedBy k d a b :
  k ≠ KeyArtistName →
  notAfter (byColumn localeCompare k d) a b ↔ orderedBy k d a b.
Proof.
  intros Hk. unfold notAfter, orderedBy.
  assert (byColumn localeCompare k d a b
          = (match d with Asc => 1 | Desc => -1 end
             * signOf (column k a - column k b))%Z) as ->
    by by destruct k.
  destruct d.
  - rewrite Z.mul_1_l. apply signOf_minus.
  - rewrite <- signOf_minus.
    assert (signOf (column k b - column k a)
            = (- signOf (column k a - column k b))%Z) as ->; [|lia].
    unfold signOf. rewrite <- Z.sgn_opp. f_equal.
    destruct (column k a), (column k b). simpl. ring.
Qed.

(** X29. The table of the page shows the rows of the snapshot, each once,
    ordered by the chosen numeric column in the chosen direction. Choosing
    the current column again twice gives the order back, and choosing
    another column sorts it descending. *)
Theorem sortedTable_sorted table h :
  Permutation (sortedTable localeCompare table h) table
  ∧ (Home.sortKey h ≠ KeyArtistName →
     StronglySorted (orderedBy (Home.sortKey h) (Home.sortDir h))
                    (sortedTable localeCompare table h))
  ∧ toggleSort (Home.sortKey h) (toggleSort (Home.sortKey h) h) = h
  ∧ ∀ k, k ≠ Home.sortKey h →
      sortedTable localeCompare table (toggleSort k h)
      = Array_sort (byColumn localeCompare k Desc) table.
Proof.
  unfold sortedTable. split_and!.
  - apply Array_sort_perm.
  - intros Hk.
    eapply StronglySorted_weaken;
      [|apply (Array_sort_sorted
                 (byColumn localeCompare (Home.sortKey h) (Home.sortDir h)))].
    + intros x y. by apply byColumn_orderedBy.
    + intros x y. rewrite !byColumn_orderedBy by done.
      unfold orderedBy. destruct (Home.sortDir h);
        destruct (Qlt_le_dec (column (Home.sortKey h) x)
                             (column (Home.sortKey h) y)); lra.
    + intros x y z. rewrite !byColumn_orderedBy by done.
      unfold orderedBy. destruct (Home.sortDir h); lra.
  - destruct h as [pg ld k d]. unfold toggleSort. simpl.
    rewrite !(bool_decide_eq_true_2 (k = k)) by done. simpl.
    rewrite ?(bool_decide_eq_true_2 (k = k)) by done. by destruct d.
  - intros k Hk. unfold toggleSort. by rewrite bool_decide_eq_false_2.
Qed.
End TableFacts.

Section DefaultOrder.
Variable localeCompare : string → string → Z.
Hypothesis localeCompare_total :
  ∀ a b, (localeCompare a b <= 0 ∨ localeCompare b a <= 0)%Z.
Hypothesis localeCompare_trans :
  ∀ a b c, (localeCompare a b <= 0 → localeCompare b c <= 0
            → localeCompare a c <= 0)%Z.

Lemma artistTable_ranked p snap :
  snapshotFor localeCompare p = Some snap →
  StronglySorted (rankedBySongs localeCompare) (artistTable snap).
Proof.
  intros (token & tr & r & H1 & H2 & H3 & H4 & _ & _)%snapshotFor_inv.
  destruct (snapshot_shape _ p token _ tr r snap H1 H2 H3 H4)
    as (tr_e & a' & He & _ & _ & ->).
  simpl. eapply (StronglySorted_fmap _ (notAfter (bySongs localeCompare)));
    [|apply (Array_sort_sorted _
               (bySongs_total _ localeCompare_total)
               (bySongs_trans _ localeCompare_trans))].
  intros x y Hxy. apply bySongs_notAfter in Hxy. exact Hxy.
Qed.

(** X30. With the default sort (by song count, descending) the page shows
    the artist table in the order in which the scan route sent it. *)
Theorem default_table_order collation p snap h :
  snapshotFor localeCompare p = Some snap →
  Home.sortKey h = KeySongCount → Home.sortDir h = Desc →
  sortedTable collation (artistTable snap) h = artistTable snap.
Proof.
  intros Hsnap Hk Hd. unfold sortedTable. rewrite Hk, Hd.
  apply Array_sort_sorted_id.
  eapply StronglySorted_weaken; [|exact (artistTable_ranked p snap Hsnap)].
  intros x y Hxy. apply byColumn_orderedBy; [done|].
  unfold orderedBy, column, ofNat. rewrite <- Zle_Qle.
  destruct Hxy as [H|[H _]]; lia.
Qed.
End DefaultOrder.

Section KeyboardFacts.
Variable JSON_stringify : json → nat → string.

(** What the deck handlers leave alone. *)
Lemma markCurrent_frame deck value s :
  let s' := markCurrent JSON_stringify deck value s in
  Page.data s' = Page.data s ∧ Page.mode s' = Page.mode s
  ∧ Page.insightPage s' = Page.insightPage s
  ∧ Page.error s' = Page.error s
  ∧ Page.downloads s' = Page.downloads s.
Proof.
  cbv zeta. unfold markCurrent. by destruct (at_ deck (Page.deckIndex s)).
Qed.

(** X28. A key changes neither the data, the view mode, the insight page,
    the error nor the state of the scan and of the table. It changes
    nothing at all outside the deck view, during a scan or without data,
    and only the arrow keys and Backspace do anything: they mark the
    current artist or undo. *)
Theorem onKeyDown_scope deck key h :
  let h' := onKeyDown JSON_stringify deck key h in
  (Home.loadingScan h' = Home.loadingScan h
   ∧ Home.sortKey h' = Home.sortKey h
   ∧ Home.sortDir h' = Home.sortDir h
   ∧ Page.data (Home.page h') = Page.data (Home.page h)
   ∧ Page.mode (Home.page h') = Page.mode (Home.page h)
   ∧ Page.insightPage (Home.page h') = Page.insightPage (Home.page h)
   ∧ Page.error (Home.page h') = Page.error (Home.page h))
  ∧ (Page.mode (Home.page h) ≠ ModeDeck ∨ Home.loadingScan h = true
     ∨ Page.data (Home.page h) = None → h' = h)
  ∧ (key ≠ "ArrowLeft" → key ≠ "ArrowRight" → key ≠ "Backspace" → h' = h)
  ∧ (Page.mode (Home.page h) = ModeDeck → Home.loadingScan h = false →
     from_option truthyJ false (Page.data (Home.page h)) = true →
     Home.page (onKeyDown JSON_stringify deck "ArrowRight" h)
     = markCurrent JSON_stringify deck true (Home.page h)
     ∧ Home.page (onKeyDown JSON_stringify deck "ArrowLeft" h)
       = markCurrent JSON_stringify deck false (Home.page h)
     ∧ Home.page (onKeyDown JSON_stringify deck "Backspace" h)
       = undoDeck JSON_stringify (Home.page h)).
Proof.
  cbv zeta. unfold onKeyDown. split; [|split; [|split]].
  - destruct (Page.mode (Home.page h)) eqn:Hm; rewrite ?Hm;
      try by repeat split.
    destruct (Home.loadingScan h
              || negb (from_option truthyJ false (Page.data (Home.page h))));
      [rewrite Hm; by repeat split|].
    destruct (String.eqb key "ArrowLeft"), (String.eqb key "ArrowRight"),
      (String.eqb key "Backspace"); simpl;
      repeat match goal with
        | |- context [markCurrent JSON_stringify deck ?v ?s] =>
            let H := fresh in
            pose proof (markCurrent_frame deck v s) as H; cbv zeta in H;
            destruct H as (-> & -> & -> & -> & _)
        end; rewrite ?Hm; by repeat split.
  - intros [Hm|[Hl|Hd]].
    + by destruct (Page.mode (Home.page h)).
    + rewrite Hl. by destruct (Page.mode (Home.page h)).
    + rewrite Hd. simpl. rewrite orb_true_r.
      by destruct (Page.mode (Home.page h)).
  - intros H1%String.eqb_neq H2%String.eqb_neq H3%String.eqb_neq.
    rewrite H1, H2, H3.
    destruct (Page.mode (Home.page h)); try done.
    by destruct (Home.loadingScan h
                 || negb (from_option truthyJ false
                                      (Page.data (Home.page h)))).
  - intros -> -> ->. by simpl.
Qed.
End KeyboardFacts.

(** ** Scenarios of the further properties *)

Lemma provider_failure_aborts_witness :
  ∃ pre c,
    (GET Ref.localeCompare brokenLibrary).1 = pre ++ [c]
    ∧ Forall (answers brokenLibrary) pre
    ∧ failsWith brokenLibrary c "Spotify API error 404: ".
Proof.
  apply (provider_failure_aborts Ref.localeCompare brokenLibrary). reflexivity.
Defined.

Lemma totalArtists_distinct_witness :
  ∃ snap,
    snapshotFor Ref.localeCompare mixedLibrary = Some snap
    ∧ totalArtists (totals snap) = 2
    ∧ totalArtists (totals snap)
      = size (list_to_set (artistIdsOf (concat (libraryOf mixedLibrary)))
              : gset string)
    ∧ length (artistTable snap) = totalArtists (totals snap).
Proof.
  eexists. split; [reflexivity|]. split; [reflexivity|].
  destruct (totalArtists_distinct Ref.localeCompare mixedLibrary _ eq_refl)
    as (H1 & H2 & _).
  by split.
Defined.

Lemma songCount_first_occurrences_witness :
  ∃ snap,
    snapshotFor Ref.localeCompare renamedLibrary = Some snap
    ∧ map (λ r, (ArtistRow.artistId r, ArtistRow.songCount r))
          (artistTable snap) = [("A1", 2); ("A2", 0)]
    ∧ songCredits (concat (libraryOf renamedLibrary)) = ["A1"; "A1"]
    ∧ Forall (λ row, ArtistRow.songCount row
                     = count_occ string_dec
                         (songCredits (concat (libraryOf renamedLibrary)))
                         (ArtistRow.artistId row))
             (artistTable snap).
Proof.
  eexists. split; [reflexivity|]. split; [reflexivity|].
  split; [reflexivity|]. apply Forall_forall. intros row Hrow.
  by apply (songCount_first_occurrences Ref.localeCompare renamedLibrary
              _ eq_refl).
Defined.

Lemma artist_name_first_credit_witness :
  ∃ snap,
    snapshotFor Ref.localeCompare renamedLibrary = Some snap
    ∧ map ArtistRow.artistName (artistTable snap) = ["Ann"; "Bob"]
    ∧ Forall (λ row, firstNameOf (ArtistRow.artistId row)
                       (creditPairsOf (concat (libraryOf renamedLibrary)))
                     = Some (ArtistRow.artistName row))
             (artistTable snap).
Proof.
  eexists. split; [reflexivity|]. split; [reflexivity|].
  apply Forall_forall. intros row Hrow.
  by apply (artist_name_first_credit Ref.localeCompare renamedLibrary
              _ eq_refl).
Defined.


Lemma top5_by_playlists_witness :
  ∃ snap ranking,
    snapshotFor Ref.localeCompare mixedLibrary = Some snap
    ∧ map TopArtist.artistName (topArtistsByPlaylists snap) = ["Ann"; "Bob"]
    ∧ Permutation ranking (artistTable snap)
    ∧ StronglySorted (rankedByPlaylists Ref.localeCompare) ranking
    ∧ topArtistsByPlaylists snap
      = map (topOfRowByPlaylists (totalPlaylists (totals snap)))
            (take 5 ranking).
Proof.
  destruct (top5_by_playlists Ref.localeCompare Ref_localeCompare_total
              Ref_localeCompare_trans mixedLibrary _ eq_refl)
    as (ranking & H1 & H2 & H3).
  eexists _, ranking. split; [reflexivity|]. split; [reflexivity|].
  by split_and!.
Defined.

Lemma top5_tracks_witness :
  ∃ snap ranking,
    snapshotFor Ref.localeCompare mixedLibrary = Some snap
    ∧ map (λ t, (TopTrack.trackId t, TopTrack.playlistCount t))
          (topTracksByPlaylists snap) = [("T1", 2); ("T2", 1)]
    ∧ topTracksByPlaylists snap = take 5 ranking
    ∧ StronglySorted (rankedTracks Ref.localeCompare) ranking
    ∧ Permutation (map TopTrack.trackId ranking)
                  (JsMap.keys (firstTracks (concat (libraryOf mixedLibrary)))).
Proof.
  destruct (top5_tracks Ref.localeCompare Ref_localeCompare_total
              Ref_localeCompare_trans mixedLibrary _ eq_refl)
    as (ranking & H1 & H2 & H3 & _).
  eexists _, ranking. split; [reflexivity|]. split; [reflexivity|].
  by split_and!.
Defined.

Lemma artist_images_witness :
  ∃ snap,
    snapshotFor Ref.localeCompare picturedLibrary = Some snap
    ∧ map (λ r, (ArtistRow.artistId r, ArtistRow.imageUrl r))
          (artistTable snap) = [("A1", Some "ann.jpg"); ("A2", None)]
    ∧ Forall (λ row, ArtistRow.imageUrl row
                     = imageFrom (artistObjsOf picturedLibrary)
                                 (ArtistRow.artistId row))
             (artistTable snap).
Proof.
  eexists. split; [reflexivity|]. split; [reflexivity|].
  apply Forall_forall. intros row Hrow.
  by apply (artist_images Ref.localeCompare picturedLibrary _ eq_refl).
Defined.

Lemma percentages_in_range_witness :
  ∃ snap,
    snapshotFor Ref.localeCompare mixedLibrary = Some snap
    ∧ Forall (λ row, (0 <= ArtistRow.songPercent row <= 100)%Q
                     ∧ (0 <= ArtistRow.playlistPercent row <= 100)%Q)
             (artistTable snap).
Proof.
  eexists. split; [reflexivity|].
  destruct (percentages_in_range Ref.localeCompare mixedLibrary _ eq_refl)
    as (H1 & _ & _ & H4).
  apply Forall_forall. intros row Hrow.
  destruct (H1 row Hrow) as [Hs Hp]. split; [|done].
  split; [done|]. apply H4; [compute_done|done].
Defined.

Lemma fetchAllPlaylists_collects_witness :
  ∃ chain,
    Spotify.fetchAllPlaylists playlistPages 2 "token"
    = (map (λ l, Spotify.bearer l.1 "token") chain,
       Spotify.Returned (flat_map (λ l, Spotify.items l.2) chain))
    ∧ length chain = 2
    ∧ flat_map (λ l, Spotify.items l.2) chain
      = [Some {| pl_id := Some "P1" |}; Some {| pl_id := Some "P2" |};
         Some {| pl_id := Some "P3" |}].
Proof.
  eexists. split.
  - apply (fetchAllPlaylists_collects playlistPages "token");
      [eapply Linked_page; [reflexivity|reflexivity|];
       eapply Linked_page; [reflexivity|reflexivity|];
       by apply Linked_end
      |simpl; apply le_n].
  - split; reflexivity.
Defined.

Lemma fetchAllPlaylistTracks_failure_witness :
  ∃ pre req,
    (Spotify.fetchAllPlaylistTracks trackPages 5 "token" "P1").1 = pre ++ [req]
    ∧ Forall (answeredOk trackPages) pre
    ∧ Forall (λ req, Spotify.authorization req = "Bearer token")
             (Spotify.fetchAllPlaylistTracks trackPages 5 "token" "P1").1
    ∧ (trackPages req
       = Spotify.Rejected "Spotify API error 429: Too many requests"
       ∨ ∃ status txt,
           trackPages req = Spotify.NotOk status txt
           ∧ "Spotify API error 429: Too many requests"
             = ("Spotify API error " ++ showNat status ++ ": " ++ txt)%string).
Proof.
  apply (fetchAllPlaylistTracks_failure trackPages 5 "token" "P1").
  reflexivity.
Defined.


Lemma status_agrees_with_scan_witness :
  Status.hasAccessToken (Status.GET [("sp_refresh_token", "RT")]) = false
  ↔ GET Ref.localeCompare signedOut
    = ([CallGetAccessToken],
       inr (NextResponse_json (ErrorBody "not_authenticated") 401)).
Proof.
  apply (status_agrees_with_scan Ref.localeCompare signedOut
           [("sp_refresh_token", "RT")]).
  reflexivity.
Defined.

Lemma callback_cookies_witness :
  ∃ age,
    (Callback.GET (Some "id") (Some "secret") (λ s, s) tokenEndpoint
       (Some "good") (Some "0a1b") (Some "0a1b")
       (Some "127.0.0.1:3000") None).2
    = Callback.Redirect "http://127.0.0.1:3000/"
        [SetCookie "sp_access_token" "AT"
           (mkCookieOptions true "lax" false "/" age);
         SetCookie "sp_refresh_token" "RT"
           (mkCookieOptions true "lax" false "/" 2592000);
         DeleteCookie "spotify_auth_state"]
    ∧ (60 <= age)%Z
    ∧ (90 <= 3600 → age = 3600 - 30)%Z.
Proof.
  exact (callback_cookies (Some "id") (Some "secret") (λ s, s) tokenEndpoint
           (Some "good") (Some "0a1b") (Some "0a1b")
           (Some "127.0.0.1:3000") None _ _ (surjective_pairing _)).
Defined.

Lemma login_callback_handshake_witness :
  let login := Login.GET (λ _, Byte.x2a) (Some "id")
                         (Some "127.0.0.1:3000") None in
  let params := Login.searchParams (Login.location login) in
  ∃ state redirectUri,
    JsMap.get "state" params = Some state
    ∧ JsMap.get "redirect_uri" params = Some redirectUri
    ∧ Login.cookies login
      = [SetCookie "spotify_auth_state" state
           (mkCookieOptions true "lax" false "/" 600)]
    ∧ String.length state = 32
    ∧ (Callback.GET (Some "id") (Some "secret") (λ s, s) tokenEndpoint
         (Some "good") (Some state) (Some state)
         (Some "127.0.0.1:3000") None).1
      = [Callback.tokenRequest (Some "id") (Some "secret") (λ s, s)
           "good" redirectUri].
Proof.
  apply (login_callback_handshake (λ _, Byte.x2a) (Some "id") (Some "id")
           (Some "secret") (λ s, s) tokenEndpoint (Some "127.0.0.1:3000")
           None (Some "good") "good").
  reflexivity.
Defined.

Lemma Ref_baseCompare_total a b :
  (Ref.baseCompare a b <= 0 ∨ Ref.baseCompare b a <= 0)%Z.
Proof. apply codeUnitCompare_total. Qed.

Lemma Ref_baseCompare_trans a b c :
  (Ref.baseCompare a b <= 0 → Ref.baseCompare b c <= 0
   → Ref.baseCompare a c <= 0)%Z.
Proof. apply codeUnitCompare_trans. Qed.

Lemma loadJSON_saveJSON_witness :
  loadJSON Ref.JSON_parse STORAGE_DECISIONS_KEY JNull
           (saveJSON Ref.JSON_stringify STORAGE_DECISIONS_KEY
                     (Some (JObj [("A1", JBool true)])) freshPage)
  = JObj [("A1", JBool true)]
  ∧ loadJSON Ref.JSON_parse STORAGE_DECK_INDEX_KEY (JNum 0) freshPage = JNum 0.
Proof.
  destruct (loadJSON_saveJSON Ref.JSON_stringify Ref.JSON_parse
              STORAGE_DECISIONS_KEY (JObj [("A1", JBool true)]) JNull
              freshPage) as (H1 & _).
  destruct (loadJSON_saveJSON Ref.JSON_stringify Ref.JSON_parse
              STORAGE_DECK_INDEX_KEY JNull (JNum 0) freshPage)
    as (_ & _ & H3 & _).
  split; [apply H1|by apply H3].
  split; [vm_compute; reflexivity|by vm_compute].
Defined.


Lemma scan_failure_keeps_data_witness :
  let h' := scanSpotify Ref.JSON_stringify (ScanNotOk 502 None)
                        reviewingHome in
  Page.data (Home.page h') = Page.data reviewingPage
  ∧ Page.mode (Home.page h') = ModeStart
  ∧ Page.error (Home.page h') = Some "HTTP 502".
Proof.
  cbv zeta.
  destruct (scan_failure_keeps_data Ref.JSON_stringify (ScanNotOk 502 None)
              reviewingHome) as (H1 & _ & _ & _ & _ & H6 & _ & m & H8 & _ & ->);
    [done|].
  by split_and!.
Defined.

Lemma scan_of_route_witness :
  ∃ reply,
    replyOf (NextResponse_json (SnapshotBody duetSnapshot) 200) = Some reply
    ∧ let h' := scanSpotify Ref.JSON_stringify reply
                  (Home.onPage (Page.setDeckIndex 7) reviewingHome) in
      Page.data (Home.page h') = Some (Snapshot_toJSON duetSnapshot)
      ∧ Page.deckIndex (Home.page h') = 2%Q
      ∧ (Page.deckIndex (Home.page h')
         <= ofNat (totalArtists (totals duetSnapshot)))%Q
      ∧ Page.mode (Home.page h') = ModeInsights.
Proof.
  destruct (scan_of_route Ref.JSON_stringify Ref.localeCompare duetLibrary
              _ _ (Home.onPage (Page.setDeckIndex 7) reviewingHome)
              (surjective_pairing _
               : GET Ref.localeCompare duetLibrary
                 = (_, inr (NextResponse_json (SnapshotBody duetSnapshot)
                                              200))))
    as (reply & Hr & _ & _ & H).
  exists reply. split; [exact Hr|].
  cbv zeta in *. simpl snapshotOf in H.
  destruct H as (H1 & _ & H3 & _ & _ & H6 & _).
  split_and!; try done.
  injection Hr as <-. reflexivity.
Defined.

Lemma deckArtistsSorted_alphabetical_witness :
  ∃ snap,
    snapshotFor Ref.localeCompare tieLibrary = Some snap
    ∧ map ArtistDeckItem.artistName (artists snap) = ["ann"; "Bob"]
    ∧ map ArtistDeckItem.artistName
          (deckArtistsSorted Ref.baseCompare (Some snap)) = ["ann"; "Bob"]
    ∧ StronglySorted
        (λ a b, (Ref.baseCompare (ArtistDeckItem.artistName a)
                                 (ArtistDeckItem.artistName b) <= 0)%Z)
        (deckArtistsSorted Ref.baseCompare (Some snap)).
Proof.
  eexists. split; [reflexivity|]. split; [reflexivity|].
  split; [reflexivity|].
  apply (deckArtistsSorted_alphabetical Ref.baseCompare Ref_baseCompare_total
           Ref_baseCompare_trans).
Defined.

Lemma markCurrent_decides_witness :
  let s' := markCurrent Ref.JSON_stringify duetDeck false reviewingPage in
  ∃ fields,
    Page.decisions s' = JObj fields
    ∧ fields = [("A1", JBool true); ("A2", JBool false)]
    ∧ Page.deckIndex s' = (1 + 1)%Q
    ∧ JsMap.get STORAGE_DECISIONS_KEY (Page.localStorage s')
      = Some (Ref.JSON_stringify (JObj fields) 0).
Proof.
  cbv zeta.
  destruct (markCurrent_decides Ref.JSON_stringify duetDeck false
              reviewingPage) as (_ & _ & H).
  destruct (H (ArtistDeckItem.mk "A2" "Bob" None 1) eq_refl)
    as (fields & H1 & _ & _ & H4 & H5 & _).
  exists fields. split_and!; try done.
  rewrite H1 in *. clear -H1. vm_compute in H1. by injection H1 as <-.
Defined.

Lemma undoDeck_restores_witness :
  let marked := markCurrent Ref.JSON_stringify duetDeck false reviewingPage in
  let undone := undoDeck Ref.JSON_stringify marked in
  (Page.deckIndex undone == 1)%Q
  ∧ Page.decisions undone = Page.decisions marked
  ∧ Page.decisions undone = JObj [("A1", JBool true); ("A2", JBool false)].
Proof.
  cbv zeta.
  destruct (undoDeck_restores Ref.JSON_stringify duetDeck false reviewingPage)
    as (_ & H).
  destruct (H (ArtistDeckItem.mk "A2" "Bob" None 1) eq_refl) as (H1 & H2 & _).
  split_and!; [exact H1|exact H2|reflexivity].
Defined.

Lemma default_table_order_witness :
  ∃ snap,
    snapshotFor Ref.localeCompare mixedLibrary = Some snap
    ∧ sortedTable Ref.localeCompare (artistTable snap) reviewingHome
      = artistTable snap.
Proof.
  eexists. split; [reflexivity|].
  by apply (default_table_order Ref.localeCompare Ref_localeCompare_total
              Ref_localeCompare_trans Ref.localeCompare mixedLibrary).
Defined.

Lemma randomString_hex_witness :
  let random := λ i, match i with 0 => Byte.x0a | _ => Byte.xff end in
  Login.randomString random 2 = "0aff"
  ∧ String.length (Login.randomString random 2) = 4
  ∧ Forall (λ c, isHexDigit c = true)
           (list_ascii_of_string (Login.randomString random 2)).
Proof.
  cbv zeta.
  destruct (randomString_hex
              (λ i, match i with 0 => Byte.x0a | _ => Byte.xff end) 2)
    as (Hlen & Hhex & _).
  split; [reflexivity|]. split; [exact Hlen|exact Hhex].
Defined.

Lemma callback_state_guard_witness :
  (Callback.GET (Some "id") (Some "secret") (λ s, s) tokenEndpoint
     (Some "good") (Some "s1") (Some "s1") (Some "localhost:3000") None).1
  = [Callback.tokenRequest (Some "id") (Some "secret") (λ s, s) "good"
       "http://localhost:3000/api/auth/callback"]
  ∧ Callback.GET (Some "id") (Some "secret") (λ s, s) tokenEndpoint
      (Some "good") (Some "s1") (Some "s2") (Some "localhost:3000") None
    = ([], Callback.Redirect "http://localhost:3000/?error=auth_state" []).
Proof.
  destruct (callback_state_guard (Some "id") (Some "secret") (λ s, s)
              tokenEndpoint (Some "good") (Some "s1") (Some "s1")
              (Some "localhost:3000") None) as (H1 & _).
  destruct (callback_state_guard (Some "id") (Some "secret") (λ s, s)
              tokenEndpoint (Some "good") (Some "s1") (Some "s2")
              (Some "localhost:3000") None) as (_ & H2).
  split.
  - exact (H1 "good" "s1" eq_refl eq_refl eq_refl).
  - apply H2. intros (c & s & _ & H3 & H4). simpl in H3, H4. congruence.
Defined.

Lemma insight_pages_bounded_witness :
  (Page.insightPage (nextInsight reviewingPage) == 3
   ∧ Page.insightPage (prevInsight (nextInsight reviewingPage)) == 2
   ∧ Page.insightPage (nextInsight (Page.setInsightPage 4 reviewingPage))
     <= 4)%Q.
Proof.
  destruct (insight_pages_bounded reviewingPage)
    as (_ & _ & _ & _ & H1 & _ & H2).
  destruct (insight_pages_bounded (Page.setInsightPage 4 reviewingPage))
    as (H3 & _).
  cbv zeta in *. split_and!.
  - rewrite H1; [reflexivity|by vm_compute].
  - rewrite H2; [reflexivity|]. split; by vm_compute.
  - exact H3.
Defined.

Lemma onKeyDown_scope_witness :
  Home.page (onKeyDown Ref.JSON_stringify duetDeck "ArrowRight" reviewingHome)
  = markCurrent Ref.JSON_stringify duetDeck true reviewingPage
  ∧ onKeyDown Ref.JSON_stringify duetDeck "Enter" reviewingHome
    = reviewingHome
  ∧ onKeyDown Ref.JSON_stringify duetDeck "ArrowRight"
              (Home.setLoadingScan true reviewingHome)
    = Home.setLoadingScan true reviewingHome.
Proof.
  destruct (onKeyDown_scope Ref.JSON_stringify duetDeck "Enter" reviewingHome)
    as (_ & _ & H1 & H2).
  destruct (onKeyDown_scope Ref.JSON_stringify duetDeck "ArrowRight"
              (Home.setLoadingScan true reviewingHome)) as (_ & H3 & _).
  cbv zeta in *. split_and!.
  - by apply H2.
  - by apply H1.
  - apply H3. right. by left.
Defined.

Lemma sortedTable_sorted_witness :
  ∃ snap,
    snapshotFor Ref.localeCompare trioLibrary = Some snap
    ∧ let h := Home.setSortDir Asc
                 (Home.setSortKey KeyPlaylistPercent reviewingHome) in
      StronglySorted (orderedBy KeyPlaylistPercent Asc)
                     (sortedTable Ref.localeCompare (artistTable snap) h)
      ∧ toggleSort KeyPlaylistPercent (toggleSort KeyPlaylistPercent h) = h
      ∧ sortedTable Ref.localeCompare (artistTable snap)
                    (toggleSort KeySongCount h)
        = Array_sort (byColumn Ref.localeCompare KeySongCount Desc)
                     (artistTable snap).
Proof.
  eexists. split; [reflexivity|]. cbv zeta.
  match goal with
  | |- context [sortedTable _ ?t ?h] =>
      destruct (sortedTable_sorted Ref.localeCompare t h)
        as (_ & H1 & H2 & H3)
  end.
  split_and!; [by apply H1|exact H2|by apply H3].
Defined.
